(** * fairdiplomacy/data/dataset.py: order encoding, candidate sets, score
      targets and the dataset index

    A shallow embedding of the functions of [dataset.py] and the properties
    of them that the specification states.  Tensors are nested lists of
    integers, Python dictionaries are association lists with unique keys,
    exceptions are the [Raise] results of an error monad. *)

From Stdlib Require Import List String Ascii Bool Arith ZArith QArith Lia.
From Stdlib Require Import Permutation Sorted DecimalString.
From Stdlib Require SpecFloat.
Import ListNotations.

Local Close Scope Q_scope.
Local Open Scope string_scope.
Local Open Scope list_scope.
Local Open Scope nat_scope.

(** ** Exceptions *)

Inductive exn : Type :=
| KeyError
| IndexError
| ValueError
| AssertionError
| RuntimeError
| TypeError
| NotImplementedError.

Inductive result (A : Type) : Type :=
| Ok (a : A)
| Raise (e : exn).

Arguments Ok {A} a.
Arguments Raise {A} e.

Definition bind {A B : Type} (m : result A) (k : A -> result B) : result B :=
  match m with
  | Ok a => k a
  | Raise e => Raise e
  end.

Notation "x <- m ;; k" := (bind m (fun x => k))
  (at level 61, m at next level, right associativity).

Definition is_ok {A : Type} (m : result A) : bool :=
  match m with Ok _ => true | Raise _ => false end.

(** [[f(x) for x in l]] where [f] may raise: the first exception wins. *)
Fixpoint mapM {A B : Type} (f : A -> result B) (l : list A) : result (list B) :=
  match l with
  | [] => Ok []
  | x :: xs => y <- f x ;; ys <- mapM f xs ;; Ok (y :: ys)
  end.

(** ** The Python builtins the module uses *)

Module Py.

(** [str.isspace] on one code point below 256. *)
Definition is_space (c : ascii) : bool :=
  let n := nat_of_ascii c in
  (((9 <=? n) && (n <=? 13)) || ((28 <=? n) && (n <=? 32))
   || (n =? 133) || (n =? 160))%nat.

(** [s.split()]: the maximal runs of non-whitespace characters. *)
Fixpoint split (s : string) : list string :=
  match s with
  | EmptyString => []
  | String c s' =>
      if is_space c then split s'
      else
        match s' with
        | EmptyString => [String c EmptyString]
        | String c' _ =>
            if is_space c' then String c EmptyString :: split s'
            else
              match split s' with
              | f :: fs => String c f :: fs
              | [] => [String c EmptyString]
              end
        end
  end.

(** [s.replace(pat, "")] for a nonempty [pat]: the occurrences of [pat]
    are removed from left to right, without overlap.  [skip] counts the
    characters of an occurrence still to be dropped. *)
Fixpoint remove_go (pat : string) (skip : nat) (s : string) : string :=
  match s with
  | EmptyString => EmptyString
  | String c s' =>
      match skip with
      | S k => remove_go pat k s'
      | O =>
          if String.prefix pat s
          then remove_go pat (String.length pat - 1) s'
          else String c (remove_go pat 0 s')
      end
  end.

Definition remove (pat s : string) : string := remove_go pat 0 s.

(** [sep.join(l)] *)
Definition join (sep : string) (l : list string) : string :=
  String.concat sep l.

(** A stable sort by an integer key, as [sorted(l, key=...)] and
    [list.sort(key=...)] are; the keys are computed beforehand. *)
Section Sorting.
Context {A : Type}.
Variable leb : A -> A -> bool.

Fixpoint insert (x : A) (l : list A) : list A :=
  match l with
  | [] => [x]
  | y :: ys => if leb x y then x :: y :: ys else y :: insert x ys
  end.

Definition sort (l : list A) : list A := fold_right insert [] l.
End Sorting.

(** [sorted(l)] on strings: code point order. *)
Definition sorted_str (l : list string) : list string := sort String.leb l.

(** [sorted(l)] on integers, [tensor.sort().values]. *)
Definition sorted_Z (l : list Z) : list Z := sort Z.leb l.

(** [sorted(l, key=k)] with the keys paired to the elements. *)
Definition sorted_by_key {A : Type} (l : list (nat * A)) : list A :=
  map snd (sort (fun a b => fst a <=? fst b)%nat l).

(** [l.index(x)]: the first position of [x], [ValueError] if absent. *)
Fixpoint index (l : list string) (x : string) : result nat :=
  match l with
  | [] => Raise ValueError
  | y :: ys => if String.eqb y x then Ok 0%nat
               else i <- index ys x ;; Ok (S i)
  end.

(** [l[i]] for a nonnegative [i]. *)
Definition getitem {A : Type} (l : list A) (i : nat) : result A :=
  match nth_error l i with
  | Some x => Ok x
  | None => Raise IndexError
  end.

(** [itertools.combinations(l, n)] *)
Fixpoint combinations {A : Type} (l : list A) (n : nat) {struct l}
  : list (list A) :=
  match n with
  | O => [[]]
  | S n' =>
      match l with
      | [] => []
      | x :: xs => map (cons x) (combinations xs n') ++ combinations xs n
      end
  end.

(** [itertools.product] applied to the lists of [ls] *)
Fixpoint product {A : Type} (ls : list (list A)) : list (list A) :=
  match ls with
  | [] => [[]]
  | l :: rest => flat_map (fun x => map (cons x) (product rest)) l
  end.

(** [s.endswith(suf)] *)
Definition endswith (s suf : string) : bool :=
  let n := String.length s in
  let m := String.length suf in
  (m <=? n)%nat && String.eqb (String.substring (n - m) m s) suf.

(** Dictionaries with string keys. *)
Definition dict (V : Type) : Type := list (string * V).

Fixpoint get {V : Type} (d : dict V) (k : string) : option V :=
  match d with
  | [] => None
  | (k', v) :: d' => if String.eqb k' k then Some v else get d' k
  end.

(** [d[k]] *)
Definition lookup {V : Type} (d : dict V) (k : string) : result V :=
  match get d k with
  | Some v => Ok v
  | None => Raise KeyError
  end.

(** [k in d] *)
Definition mem {V : Type} (d : dict V) (k : string) : bool :=
  match get d k with Some _ => true | None => false end.

(** [{k: f(v) for k, v in d.items()}] *)
Definition map_values {V W : Type} (f : V -> W) (d : dict V) : dict W :=
  map (fun kv => (fst kv, f (snd kv))) d.

(** [s.strip()] *)
Fixpoint lstrip (s : string) : string :=
  match s with
  | EmptyString => EmptyString
  | String c s' => if is_space c then lstrip s' else s
  end.

Fixpoint rstrip (s : string) : string :=
  match s with
  | EmptyString => EmptyString
  | String c s' =>
      match rstrip s' with
      | EmptyString => if is_space c then EmptyString else String c EmptyString
      | r => String c r
      end
  end.

Definition strip (s : string) : string := rstrip (lstrip s).

Definition digit_of (c : ascii) : option Z :=
  let n := nat_of_ascii c in
  if ((48 <=? n) && (n <=? 57))%nat then Some (Z.of_nat (n - 48)) else None.

(** The digits of a decimal literal: single underscores are allowed
    between two digits. *)
Fixpoint digits_value (acc : Z) (after_digit : bool) (s : string)
  : option Z :=
  match s with
  | EmptyString => if after_digit then Some acc else None
  | String c s' =>
      match digit_of c with
      | Some d => digits_value (10 * acc + d) true s'
      | None =>
          if (Ascii.eqb c "_" && after_digit)%bool
          then digits_value acc false s'
          else None
      end
  end.

(** [int(s)] on a string of ASCII characters: surrounding whitespace, an
    optional sign, decimal digits; [ValueError] otherwise. *)
Definition int (s : string) : result Z :=
  let body (t : string) :=
    match digits_value 0 false t with
    | Some v => Ok v
    | None => Raise ValueError
    end in
  match strip s with
  | String "-" t => v <- body t ;; Ok (- v)%Z
  | String "+" t => body t
  | t => body t
  end.

(** [s[1:-1]] *)
Definition slice_1_m1 (s : string) : string :=
  String.substring 1 (String.length s - 2) s.

End Py.

(** ** Constants of the model *)

(** Modelled from the spec: the fixed maximum number of steps of a candidate
    set ([fairdiplomacy.models.consts] is not among the sources).  The value
    is the one in the docstrings of [encode_game], [get_valid_orders_impl]
    and [encode_power_actions]. *)
Definition MAX_SEQ_LEN : nat := 17.

(** Modelled from the spec: the fixed maximum number of candidates of a
    step ([fairdiplomacy.utils.order_idxs] is not among the sources), with
    the value of the same docstrings. *)
Definition MAX_VALID_LEN : nat := 469.

(** ** encode_weighted_sos_scores

    The scores are floating point numbers in the source.  This section
    reads the arithmetic of the function over exact rationals; the module
    [Float] below reads the same function over the binary64 numbers of
    Python and the binary32 elements of the tensors, with their
    rounding. *)

Section Scores.

(** The board state of a turn and the scoring of the rules engine
    ([compute_game_scores_from_state(p, state).square_score]) are external
    to the module. *)
Variable State : Type.
Variable square_score : nat -> State -> Q.

(** [len(POWERS)] *)
Variable n_powers : nat.

Record Phase : Type := mkPhase { name : string; state : State }.

(** A game as the function reads it: [game.get_phase_history()] and
    [game.get_square_scores()]. *)
Record Game : Type := mkGame {
  get_phase_history : list Phase;
  get_square_scores : list Q
}.

(** [[compute_game_scores_from_state(p, phase.state).square_score
      for p in range(len(POWERS))]] *)
Definition sq_scores_of (phase : Phase) : list Q :=
  map (fun p => square_score p (state phase)) (seq 0 n_powers).

(** [d[k] = v] on a dictionary with integer keys. *)
Fixpoint year_set (d : list (Z * string)) (k : Z) (v : string)
  : list (Z * string) :=
  match d with
  | [] => [(k, v)]
  | (k', v') :: d' =>
      if Z.eqb k' k then (k, v) :: d' else (k', v') :: year_set d' k v
  end.

(** The first loop: [end_of_year_phases[int(phase.name[1:-1])] = phase.name] *)
Fixpoint year_table (d : list (Z * string)) (phases : list Phase)
  : result (list (Z * string)) :=
  match phases with
  | [] => Ok d
  | phase :: rest =>
      y <- Py.int (Py.slice_1_m1 (name phase)) ;;
      year_table (year_set d y (name phase)) rest
  end.

(** [set(end_of_year_phases.values())] *)
Definition end_of_year_phases (phases : list Phase) : result (list string) :=
  d <- year_table [] phases ;; Ok (map snd d).

(** [phase.name in end_of_year_phases] *)
Definition is_year_end (ends : list string) (phase : Phase) : bool :=
  existsb (String.eqb (name phase)) ends.

(** [row += t] and [row[:] = t] on a row of a tensor: the shapes agree or
    [t] has one element, which is broadcast. *)
Definition row_add (row t : list Q) : result (list Q) :=
  if List.length t =? List.length row then
    Ok (map (fun yt => fst yt + snd yt)%Q (combine row t))
  else match t with
       | [v] => Ok (map (fun y => y + v)%Q row)
       | _ => Raise RuntimeError
       end.

Definition row_assign (row t : list Q) : result (list Q) :=
  if List.length t =? List.length row then Ok t
  else match t with
       | [v] => Ok (map (fun _ => v) row)
       | _ => Raise RuntimeError
       end.

(** The state of the second loop: the accumulated scores, the remaining
    mass and the weight of the next year-end turn. *)
Record Acc : Type := mkAcc {
  scores : list Q;
  remaining : Q;
  weight : Q
}.

Fixpoint accumulate (value_decay_alpha : Q) (ends : list string)
  (phases : list Phase) (a : Acc) : result Acc :=
  match phases with
  | [] => Ok a
  | phase :: rest =>
      if negb (is_year_end ends phase) then
        accumulate value_decay_alpha ends rest a
      else
        let sq_scores := sq_scores_of phase in
        y <- row_add (scores a)
               (map (Qmult (weight a)) sq_scores) ;;
        accumulate value_decay_alpha ends rest
          (mkAcc y (remaining a - weight a)%Q
                 (weight a * value_decay_alpha)%Q)
  end.

(** [phase_idx] is an index of [range(num_phases)].  The result is the
    row of the [1 x 7] tensor. *)
Definition encode_weighted_sos_scores (game : Game) (phase_idx : nat)
  (value_decay_alpha : Q) : result (list Q) :=
  let y_final_scores := repeat 0%Q 7 in
  let phases := get_phase_history game in
  if Z.eqb (Z.of_nat phase_idx) (Z.of_nat (List.length phases) - 1) then
    phase <- Py.getitem phases phase_idx ;;
    row_assign y_final_scores (sq_scores_of phase)
  else
    ends <- end_of_year_phases phases ;;
    a <- accumulate value_decay_alpha ends (skipn (phase_idx + 1) phases)
           (mkAcc y_final_scores 1%Q (1 - value_decay_alpha)%Q) ;;
    row_add (scores a)
      (map (Qmult (remaining a)) (get_square_scores game)).

End Scores.

Arguments mkPhase {State} name state.
Arguments name {State} p.
Arguments state {State} p.
Arguments mkGame {State} get_phase_history get_square_scores.
Arguments get_phase_history {State} g.
Arguments get_square_scores {State} g.
Arguments year_table {State} d phases.
Arguments end_of_year_phases {State} phases.
Arguments is_year_end {State} ends phase.
Arguments sq_scores_of {State} square_score n_powers phase.
Arguments accumulate {State} square_score n_powers value_decay_alpha ends phases a.
Arguments encode_weighted_sos_scores {State} square_score n_powers game phase_idx value_decay_alpha.

(** *** The same function in floating point *)

Module Float.

(** A Python [float] is a binary64 number and an element of a
    [torch.FloatTensor] a binary32 number; both are values of the
    specification of IEEE 754 of the Standard Library, which rounds to
    nearest, ties to even. *)
Definition float : Type := SpecFloat.spec_float.

(** The binary64 number of an integer literal such as [1.0]. *)
Definition of_Z (z : Z) : float := SpecFloat.binary_normalize 53 1024 z 0 false.


Definition zero : float := SpecFloat.S754_zero false.
Definition one : float := of_Z 1.

(** [-] and [*] of two Python floats. *)
Definition sub64 : float -> float -> float := SpecFloat.SFsub 53 1024.
Definition mul64 : float -> float -> float := SpecFloat.SFmul 53 1024.

(** [+] and [*] of two elements of float tensors. *)
Definition add32 : float -> float -> float := SpecFloat.SFadd 24 128.
Definition mul32 : float -> float -> float := SpecFloat.SFmul 24 128.

(** The conversion of a Python float to an element of a float tensor, in
    [torch.FloatTensor([...])] and where a tensor is multiplied by a
    Python scalar. *)
Definition to_float32 (x : float) : float :=
  match x with
  | SpecFloat.S754_finite s m e => SpecFloat.binary_round 24 128 s m e
  | _ => x
  end.


Section Scores.

Variable State : Type.
Variable square_score : nat -> State -> float.
Variable n_powers : nat.

Record Game : Type := mkGame {
  get_phase_history : list (Phase State);
  get_square_scores : list float
}.

(** [torch.FloatTensor([... square_score ... for p in range(len(POWERS))])] *)
Definition sq_scores_of (phase : Phase State) : list float :=
  map (fun p => to_float32 (square_score p (state phase))) (seq 0 n_powers).

(** [row += t] and [row[:] = t] on a row of a float tensor. *)
Definition row_add (row t : list float) : result (list float) :=
  if List.length t =? List.length row then
    Ok (map (fun yt => add32 (fst yt) (snd yt)) (combine row t))
  else match t with
       | [v] => Ok (map (fun y => add32 y v) row)
       | _ => Raise RuntimeError
       end.

Definition row_assign (row t : list float) : result (list float) :=
  if List.length t =? List.length row then Ok t
  else match t with
       | [v] => Ok (map (fun _ => v) row)
       | _ => Raise RuntimeError
       end.

(** The state of the second loop: the float tensor of the scores, and the
    Python floats [remaining] and [weight]. *)
Record Acc : Type := mkAcc {
  scores : list float;
  remaining : float;
  weight : float
}.

Fixpoint accumulate (value_decay_alpha : float) (ends : list string)
  (phases : list (Phase State)) (a : Acc) : result Acc :=
  match phases with
  | [] => Ok a
  | phase :: rest =>
      if negb (is_year_end ends phase) then
        accumulate value_decay_alpha ends rest a
      else
        let sq_scores := sq_scores_of phase in
        y <- row_add (scores a)
               (map (mul32 (to_float32 (weight a))) sq_scores) ;;
        accumulate value_decay_alpha ends rest
          (mkAcc y (sub64 (remaining a) (weight a))
                 (mul64 (weight a) value_decay_alpha))
  end.

Definition encode_weighted_sos_scores (game : Game) (phase_idx : nat)
  (value_decay_alpha : float) : result (list float) :=
  let y_final_scores := repeat zero 7 in
  let phases := get_phase_history game in
  if Z.eqb (Z.of_nat phase_idx) (Z.of_nat (List.length phases) - 1) then
    phase <- Py.getitem phases phase_idx ;;
    row_assign y_final_scores (sq_scores_of phase)
  else
    ends <- end_of_year_phases phases ;;
    a <- accumulate value_decay_alpha ends (skipn (phase_idx + 1) phases)
           (mkAcc y_final_scores one (sub64 one value_decay_alpha)) ;;
    row_add (scores a)
      (map (mul32 (to_float32 (remaining a)))
           (map to_float32 (get_square_scores game))).

End Scores.

Arguments mkGame {State} get_phase_history get_square_scores.
Arguments get_phase_history {State} g.
Arguments get_square_scores {State} g.
Arguments sq_scores_of {State} square_score n_powers phase.
Arguments accumulate {State} square_score n_powers value_decay_alpha ends phases a.
Arguments encode_weighted_sos_scores {State} square_score n_powers game phase_idx value_decay_alpha.

End Float.

Section Encoding.

(** The location table, the order vocabulary, the padding sentinel and the
    list of powers are tables of modules that are not among the sources:
    they are parameters here. *)
Variable LOCS : list string.
Variable ORDER_VOCABULARY : list string.
Variable EOS_IDX : Z.
Variable POWERS : list string.

(** Modelled from the spec: [ORDER_VOCABULARY_TO_IDX] of
    [fairdiplomacy.utils.order_idxs], the table from order strings to their
    dense ids.  The id of a string is its position in [ORDER_VOCABULARY]
    (the last one, as in a dictionary filled in the order of the table);
    a string that is not in the table raises [KeyError]. *)
Fixpoint vocab_find (l : list string) (i : Z) (s : string) : option Z :=
  match l with
  | [] => None
  | x :: xs =>
      match vocab_find xs (i + 1) s with
      | Some j => Some j
      | None => if String.eqb x s then Some i else None
      end
  end.

Definition ORDER_VOCABULARY_TO_IDX (s : string) : result Z :=
  match vocab_find ORDER_VOCABULARY 0 s with
  | Some i => Ok i
  | None => Raise KeyError
  end.

(** [ORDER_VOCABULARY[idx]] for an id. *)
Definition ORDER_VOCABULARY_at (idx : Z) : result string :=
  if (idx <? 0)%Z then Raise IndexError
  else Py.getitem ORDER_VOCABULARY (Z.to_nat idx).

(** *** smarter_order_index *)

Definition coast_suffixes : list string := ["/NC"; "/EC"; "/SC"; "/WC"].

(** The loop [for suffix in ...: order = order.replace(suffix, "")]. *)
Definition strip_coasts (order : string) : string :=
  fold_left (fun o suffix => Py.remove suffix o) coast_suffixes order.

Definition smarter_order_index (order : string) : result Z :=
  match ORDER_VOCABULARY_TO_IDX order with
  | Ok i => Ok i
  | Raise KeyError => ORDER_VOCABULARY_TO_IDX (strip_coasts order)
  | Raise e => Raise e
  end.

(** *** filter_orders_in_vocab *)

Fixpoint filter_orders_in_vocab (orders : list string)
  : result (list string * list Z) :=
  match orders with
  | [] => Ok ([], [])
  | order :: rest =>
      match smarter_order_index order with
      | Ok idx =>
          r <- filter_orders_in_vocab rest ;;
          Ok (order :: fst r, idx :: snd r)
      | Raise KeyError => filter_orders_in_vocab rest
      | Raise e => Raise e
      end
  end.

(** *** encode_power_actions *)

(** [order.split()[2] == "B"], evaluated only where every order has three
    fields. *)
Definition is_build (order : string) : bool :=
  String.eqb (nth 2 (Py.split order) "") "B".

(** The [else] branch: every order goes through [smarter_order_index], an
    order that raises [KeyError] is skipped. *)
Fixpoint resolve_orders (orders : list string) : result (list Z) :=
  match orders with
  | [] => Ok []
  | order :: rest =>
      match smarter_order_index order with
      | Ok idx => idxs <- resolve_orders rest ;; Ok (idx :: idxs)
      | Raise KeyError => resolve_orders rest
      | Raise e => Raise e
      end
  end.

(** The sort key [LOCS.index(ORDER_VOCABULARY[idx].split()[1])]. *)
Definition loc_key (idx : Z) : result nat :=
  s <- ORDER_VOCABULARY_at idx ;;
  loc <- Py.getitem (Py.split s) 1 ;;
  Py.index LOCS loc.

(** [order_idxs.sort(key=...)]: the keys are computed first, an exception
    of a key leaves the function. *)
Definition sort_by_loc (order_idxs : list Z) : result (list Z) :=
  keyed <- mapM (fun idx => k <- loc_key idx ;; Ok (k, idx)) order_idxs ;;
  Ok (Py.sorted_by_key keyed).

(** [(row == order_idx).nonzero()[0, 0]]: the first position that holds
    [order_idx]; [None] stands for the [IndexError] of an empty result. *)
Fixpoint find_pos (row : list Z) (order_idx : Z) : option nat :=
  match row with
  | [] => None
  | v :: row' =>
      if Z.eqb v order_idx then Some 0
      else option_map S (find_pos row' order_idx)
  end.

(** [y[i] = v] on a list that is long enough. *)
Fixpoint set_nth {A : Type} (l : list A) (i : nat) (v : A) : list A :=
  match l, i with
  | [], _ => []
  | _ :: xs, O => v :: xs
  | x :: xs, S i' => x :: set_nth xs i' v
  end.

(** The final loop.  [x_possible_actions[i]], the search and the store
    [y_actions[i] = cand_idx] are all inside the [try]: an [IndexError] of
    any of them returns the labels written so far and [False]. *)
Fixpoint locate_orders (x_possible_actions : list (list Z)) (i : nat)
  (order_idxs : list Z) (y_actions : list Z) : list Z * bool :=
  match order_idxs with
  | [] => (y_actions, true)
  | order_idx :: rest =>
      match nth_error x_possible_actions i with
      | None => (y_actions, false)
      | Some row =>
          match find_pos row order_idx with
          | None => (y_actions, false)
          | Some cand_idx =>
              if i <? List.length y_actions
              then locate_orders x_possible_actions (S i) rest
                     (set_nth y_actions i (Z.of_nat cand_idx))
              else (y_actions, false)
          end
      end
  end.

Definition encode_power_actions (orders : list string)
  (x_possible_actions : list (list Z)) : result (list Z * bool) :=
  let y_actions := repeat EOS_IDX MAX_SEQ_LEN in
  if existsb (fun order => List.length (Py.split order) <? 3) orders then
    Ok (y_actions, false)
  else if existsb is_build orders then
    if forallb is_build orders then
      match ORDER_VOCABULARY_TO_IDX (Py.join ";" (Py.sorted_str orders)) with
      | Ok order_idx =>
          order_idxs <- sort_by_loc [order_idx] ;;
          Ok (locate_orders x_possible_actions 0 order_idxs y_actions)
      | Raise KeyError => Ok (y_actions, false)
      | Raise e => Raise e
      end
    else Raise AssertionError
  else
    order_idxs <- resolve_orders orders ;;
    order_idxs <- sort_by_loc order_idxs ;;
    Ok (locate_orders x_possible_actions 0 order_idxs y_actions).

(** *** get_valid_orders_impl *)

(** [[x for x in v if x != "WAIVE"]] *)
Definition strip_waive (v : list string) : list string :=
  filter (fun x => negb (String.eqb x "WAIVE")) v.

(** The sort key of an orderable location:
    [LOCS.index(all_possible_orders[loc][0].split()[1])]. *)
Definition orderable_key (all_possible_orders : Py.dict (list string))
  (loc : string) : result nat :=
  v <- Py.lookup all_possible_orders loc ;;
  first <- Py.getitem v 0 ;;
  unit_loc <- Py.getitem (Py.split first) 1 ;;
  Py.index LOCS unit_loc.

Definition sort_orderable (all_possible_orders : Py.dict (list string))
  (locs : list string) : result (list string) :=
  keyed <- mapM (fun loc => k <- orderable_key all_possible_orders loc ;;
                            Ok (k, loc)) locs ;;
  Ok (Py.sorted_by_key keyed).

(** The candidate strings of a build turn: every choice of [n_builds]
    locations, every choice of one order for each, sorted and joined. *)
Definition build_orders (cands : list (list string)) (n_builds : nat)
  : list string :=
  flat_map (fun c => map (fun x => Py.join ";" (Py.sorted_str x))
                         (Py.product c))
           (Py.combinations cands n_builds).

(** [row[:len(vals)] = vals] *)
Definition set_prefix (vals row : list Z) : list Z :=
  vals ++ skipn (List.length vals) row.

(** [t[0, :r, :len(vals)] = vals.unsqueeze(0)] on the rows [t] of the
    batch entry: a source wider than the rows cannot be broadcast. *)
Definition assign_rows (t : list (list Z)) (r : nat) (vals : list Z)
  : result (list (list Z)) :=
  if List.length vals <=? MAX_VALID_LEN
  then Ok (map (set_prefix vals) (firstn r t) ++ skipn r t)
  else Raise RuntimeError.

(** [t[0, i, :len(vals)] = vals] *)
Definition assign_row (t : list (list Z)) (i : nat) (vals : list Z)
  : result (list (list Z)) :=
  match nth_error t i with
  | None => Raise IndexError
  | Some row =>
      if List.length vals <=? MAX_VALID_LEN
      then Ok (set_nth t i (set_prefix vals row))
      else Raise RuntimeError
  end.

(** [loc_idxs[0, [LOCS.index(l) for l in orderable_locs]] = -2] *)
Definition mark_locs (loc_idxs : list Z) (orderable_locs : list string)
  : result (list Z) :=
  js <- mapM (Py.index LOCS) orderable_locs ;;
  Ok (fold_left (fun t j => set_nth t j (-2)%Z) js loc_idxs).

(** The loop of an ordinary turn. *)
Fixpoint move_steps (all_possible_orders : Py.dict (list string))
  (i : nat) (orderable_locs : list string)
  (all_order_idxs : list (list Z)) (loc_idxs : list Z)
  : result (list (list Z) * list Z) :=
  match orderable_locs with
  | [] => Ok (all_order_idxs, loc_idxs)
  | loc :: rest =>
      v <- Py.lookup all_possible_orders loc ;;
      r <- filter_orders_in_vocab v ;;
      all_order_idxs <- assign_row all_order_idxs i (Py.sorted_Z (snd r)) ;;
      j <- Py.index LOCS loc ;;
      move_steps all_possible_orders (S i) rest all_order_idxs
        (set_nth loc_idxs j (Z.of_nat i))
  end.

(** [builds] is [game_state["builds"]] with the ["count"] entry of every
    power.  The result is the tensor of candidate ids (batch of one), the
    step assignment of the locations (batch of one) and the step count. *)
Definition get_valid_orders_impl (power : string)
  (all_possible_orders : Py.dict (list string))
  (all_orderable_locations : Py.dict (list string))
  (builds : Py.dict Z)
  : result (list (list (list Z)) * list (list Z) * Z) :=
  let all_order_idxs := repeat (repeat EOS_IDX MAX_VALID_LEN) MAX_SEQ_LEN in
  let loc_idxs := repeat (-1)%Z (List.length LOCS) in
  if negb (Py.mem all_orderable_locations power) then
    Ok ([all_order_idxs], [loc_idxs], 0%Z)
  else
    let all_possible_orders := Py.map_values strip_waive all_possible_orders in
    locs <- Py.lookup all_orderable_locations power ;;
    orderable_locs <- sort_orderable all_possible_orders locs ;;
    cands <- mapM (Py.lookup all_possible_orders) orderable_locs ;;
    let power_possible_orders := List.concat cands in
    n_builds <- Py.lookup builds power ;;
    if (0 <? n_builds)%Z then
      let orders := build_orders cands (Z.to_nat n_builds) in
      order_idxs <- mapM ORDER_VOCABULARY_TO_IDX orders ;;
      all_order_idxs <- assign_rows all_order_idxs 1 (Py.sorted_Z order_idxs) ;;
      loc_idxs <- mark_locs loc_idxs orderable_locs ;;
      Ok ([all_order_idxs], [loc_idxs], n_builds)
    else if (n_builds <? 0)%Z then
      let n_disbands := (- n_builds)%Z in
      r <- filter_orders_in_vocab power_possible_orders ;;
      all_order_idxs <- assign_rows all_order_idxs (Z.to_nat n_disbands)
                          (Py.sorted_Z (snd r)) ;;
      loc_idxs <- mark_locs loc_idxs orderable_locs ;;
      Ok ([all_order_idxs], [loc_idxs], n_disbands)
    else
      r <- move_steps all_possible_orders 0 orderable_locs
             all_order_idxs loc_idxs ;;
      Ok ([fst r], [snd r], Z.of_nat (List.length orderable_locs)).

(** *** encode_phase

    The part of [encode_phase] that builds the labels and the validity
    mask.  [power_orders_samples] is the dictionary of order samples per
    power (from the recorded orders or from the counterfactual agent),
    [x_possible_actions] is [data_fields["x_possible_actions"][0]], the
    candidate sets of the powers, and [centers] is
    [game.get_state()["centers"]]. *)

(** [t[i] = v] on a tensor *)
Definition tensor_set {A : Type} (t : list A) (i : nat) (v : A)
  : result (list A) :=
  if i <? List.length t then Ok (set_nth t i v) else Raise IndexError.

(** The loop [for orders in orders_samples].  Where the sample is made of
    holds and [0 <= exclude_n_holds <= len(orders)], the source sets
    [valid = 0], an [int], and [valid_power_idxs[power_i] &= valid] on the
    boolean tensor raises [RuntimeError] (the result type [Long] cannot be
    cast to [Bool]); with the [bool] that [encode_power_actions] returns
    the bit is updated. *)
Fixpoint encode_samples (exclude_n_holds : Z) (power_i : nat)
  (x_possible_actions : list (list (list Z)))
  (orders_samples : list (list string)) (valid_power_idxs : list bool)
  : result (list (list Z) * list bool) :=
  match orders_samples with
  | [] => Ok ([], valid_power_idxs)
  | orders :: rest =>
      x <- Py.getitem x_possible_actions power_i ;;
      r <- encode_power_actions orders x ;;
      bit <- Py.getitem valid_power_idxs power_i ;;
      valid_power_idxs <-
        (if ((0 <=? exclude_n_holds)%Z
             && (exclude_n_holds <=? Z.of_nat (List.length orders))%Z
             && forallb (fun o => Py.endswith o " H") orders)%bool
         then Raise RuntimeError
         else tensor_set valid_power_idxs power_i (bit && snd r)) ;;
      r' <- encode_samples exclude_n_holds power_i x_possible_actions rest
              valid_power_idxs ;;
      Ok (fst r :: fst r', snd r')
  end.

(** The loop [for power_i, power in enumerate(POWERS)]. *)
Fixpoint encode_powers (n_cf_agent_samples : nat) (exclude_n_holds : Z)
  (power_orders_samples : Py.dict (list (list string)))
  (x_possible_actions : list (list (list Z)))
  (power_i : nat) (powers : list string) (valid_power_idxs : list bool)
  : result (list (list (list Z)) * list bool) :=
  match powers with
  | [] => Ok ([], valid_power_idxs)
  | power :: rest =>
      orders_samples <- Py.lookup power_orders_samples power ;;
      r <- match orders_samples with
           | [] =>
               v <- tensor_set valid_power_idxs power_i false ;;
               Ok (repeat (repeat EOS_IDX MAX_SEQ_LEN) n_cf_agent_samples, v)
           | _ =>
               encode_samples exclude_n_holds power_i x_possible_actions
                 orders_samples valid_power_idxs
           end ;;
      r' <- encode_powers n_cf_agent_samples exclude_n_holds
              power_orders_samples x_possible_actions (S power_i) rest
              (snd r) ;;
      Ok (fst r :: fst r', snd r')
  end.

(** [torch.stack] of the slots of the powers: a nonempty list of tensors
    of one shape. *)
Definition stack_slots (y_actions_lst : list (list (list Z)))
  : result (list (list (list Z))) :=
  match y_actions_lst with
  | [] => Raise RuntimeError
  | slot :: rest =>
      if forallb (fun t => List.length t =? List.length slot) rest
      then Ok y_actions_lst
      else Raise RuntimeError
  end.

(** [(y_actions != EOS_IDX).any(dim=2).all(dim=1)] for one power *)
Definition has_orders (slot : list (list Z)) : bool :=
  forallb (existsb (fun v => negb (Z.eqb v EOS_IDX))) slot.

(** [valid_power_idxs &= t] *)
Definition mask_and (valid_power_idxs t : list bool) : result (list bool) :=
  if List.length t =? List.length valid_power_idxs then
    Ok (map (fun vt => fst vt && snd vt)%bool (combine valid_power_idxs t))
  else match t with
       | [b] => Ok (map (fun v => v && b)%bool valid_power_idxs)
       | _ => Raise RuntimeError
       end.

(** [max(final_score.values())] *)
Definition max_score (final_score : Py.dict Z) : result Z :=
  match final_score with
  | [] => Raise ValueError
  | (_, v) :: rest => Ok (fold_left Z.max (map snd rest) v)
  end.

(** The loop that clears the powers below [only_with_min_final_score]. *)
Fixpoint clear_low_scores (final_score : Py.dict Z) (min_score : Z)
  (i : nat) (powers : list string) (valid_power_idxs : list bool)
  : result (list bool) :=
  match powers with
  | [] => Ok valid_power_idxs
  | power :: rest =>
      let score := match Py.get final_score power with
                   | Some v => v | None => 0%Z end in
      v <- (if (score <? min_score)%Z
            then tensor_set valid_power_idxs i false
            else Ok valid_power_idxs) ;;
      clear_low_scores final_score min_score (S i) rest v
  end.

(** [encode_phase].  The rolled back game and the feature encoder are
    not among the sources: what the function reads of them, the candidate
    sets, the order samples and the centers of the final state, are
    arguments.  The result is the score target, the labels and the mask
    of the data fields. *)
Definition encode_phase {State : Type} (square_score : nat -> State -> Q)
  (game : Game State) (phase_idx : nat) (value_decay_alpha : Q)
  (power_orders_samples : Py.dict (list (list string)))
  (x_possible_actions : list (list (list Z)))
  (centers : Py.dict (list string))
  (only_with_min_final_score : option Z) (n_cf_agent_samples : nat)
  (input_valid_power_idxs : list bool) (exclude_n_holds : Z)
  : result (list Q * list (list (list Z)) * list bool) :=
  _ <- Py.getitem (get_phase_history game) phase_idx ;;
  y_final_scores <-
    encode_weighted_sos_scores square_score (List.length POWERS) game
      phase_idx value_decay_alpha ;;
  r <- encode_powers n_cf_agent_samples exclude_n_holds power_orders_samples
         x_possible_actions 0 POWERS input_valid_power_idxs ;;
  y_actions <- stack_slots (fst r) ;;
  valid_power_idxs <- mask_and (snd r) (map has_orders y_actions) ;;
  valid_power_idxs <-
    match only_with_min_final_score with
    | None => Ok valid_power_idxs
    | Some min_score =>
        let final_score :=
          Py.map_values (fun v => Z.of_nat (List.length v)) centers in
        m <- max_score final_score ;;
        if (min_score <=? m)%Z
        then clear_low_scores final_score min_score 0 POWERS valid_power_idxs
        else Ok valid_power_idxs
    end ;;
  Ok (y_final_scores, y_actions, valid_power_idxs).

End Encoding.

(** ** Dataset: the index over the encoded games *)

Section DatasetIndex.

(** The columnar fields of one encoded turn other than the validity mask
    ([DataFields] is not among the sources). *)
Variable Fields : Type.

(** [len(POWERS)] *)
Variable n_powers : nat.

Record EncodedRow : Type := mkRow {
  valid_power_idxs : list bool;
  fields : Fields
}.

(** An encoded game: the rows of its turns. *)
Definition EncodedGame : Type := list EncodedRow.

(** The attributes of a [Dataset] that the index uses; the fields that
    pre-processing populates are [None] before. *)
Record Dataset : Type := mkDataset {
  game_ids : list string;
  debug_only_opening_phase : bool;
  n_cf_agent_samples : Z;
  game_idxs : option (list Z);
  phase_idxs : option (list Z);
  power_idxs : option (list Z);
  x_idxs : option (list Z);
  encoded_games : option (list EncodedRow);
  num_games : option Z;
  num_phases : option Z;
  num_elements : option Z;
  _preprocessed : bool
}.

(** [__init__] *)
Definition Dataset_init (game_ids : list string) (n_cf_agent_samples : Z)
  : Dataset :=
  mkDataset game_ids false n_cf_agent_samples
    None None None None None None None None false.

(** An attribute that must not be [None] where it is used in arithmetic. *)
Definition the {A : Type} (o : option A) : result A :=
  match o with Some a => Ok a | None => Raise TypeError end.

(** [valid_power_idxs.nonzero()[:, 0]] *)
Fixpoint nonzero_from (i : Z) (mask : list bool) : list Z :=
  match mask with
  | [] => []
  | b :: rest => (if b then [i] else []) ++ nonzero_from (i + 1) rest
  end.

Definition nonzero (mask : list bool) : list Z := nonzero_from 0 mask.

(** [g["valid_power_idxs"][0].any()] *)
Definition first_row_any (g : EncodedGame) : result bool :=
  row <- Py.getitem g 0 ;; Ok (existsb (fun b => b) (valid_power_idxs row)).

Fixpoint filterM {A : Type} (f : A -> result bool) (l : list A)
  : result (list A) :=
  match l with
  | [] => Ok []
  | x :: xs =>
      b <- f x ;; r <- filterM f xs ;; Ok (if b then x :: r else r)
  end.

(** One entry of the four index tensors. *)
Record IndexEntry : Type := mkEntry {
  e_game : Z; e_phase : Z; e_power : Z; e_x : Z
}.

(** The inner loops of [preprocess] over the turns of one game. *)
Fixpoint index_phases (game_idx phase_idx x_idx : Z) (rows : EncodedGame)
  : result (list IndexEntry) :=
  match rows with
  | [] => Ok []
  | row :: rest =>
      if List.length (valid_power_idxs row) =? n_powers then
        es <- index_phases game_idx (phase_idx + 1) (x_idx + 1) rest ;;
        Ok (map (fun power_idx => mkEntry game_idx phase_idx power_idx x_idx)
                (nonzero (valid_power_idxs row)) ++ es)
      else Raise AssertionError
  end.

(** The outer loop over the games; [x_idx] runs over all turns. *)
Fixpoint index_games (game_idx x_idx : Z) (games : list EncodedGame)
  : result (list IndexEntry) :=
  match games with
  | [] => Ok []
  | g :: rest =>
      es <- index_phases game_idx 0 x_idx g ;;
      es' <- index_games (game_idx + 1)
               (x_idx + Z.of_nat (List.length g)) rest ;;
      Ok (es ++ es')
  end.

(** [preprocess], from the result of [mp_encode_games]: a game id and an
    encoded game, both [None] for a game that could not be loaded.
    [DataFields.cat] puts the rows of the games one after the other.  The
    assertions of [validate_dataset] (line 153) are on the lengths of the
    collated columns, which the rows of this model do not carry: the
    function is modelled up to that call, where the source can still
    raise [AssertionError], and the statements on it are about the
    datasets that it returns. *)
Definition preprocess (self : Dataset)
  (encoded_game_tuples : list (option string * option EncodedGame))
  : result Dataset :=
  if debug_only_opening_phase self then Raise AssertionError else
  let encoded :=
    flat_map (fun t => match snd t with Some g => [g] | None => [] end)
             encoded_game_tuples in
  encoded <- filterM first_row_any encoded ;;
  ids <- filterM (fun t => match fst t, snd t with
                           | None, _ => Ok false
                           | Some _, Some g => first_row_any g
                           | Some _, None => Raise TypeError
                           end) encoded_game_tuples ;;
  es <- index_games 0 0 encoded ;;
  let rows := List.concat encoded in
  Ok (mkDataset
        (flat_map (fun t => match fst t with Some i => [i] | None => [] end)
                  ids)
        (debug_only_opening_phase self)
        (n_cf_agent_samples self)
        (Some (map e_game es)) (Some (map e_phase es))
        (Some (map e_power es)) (Some (map e_x es))
        (Some rows)
        (Some (Z.of_nat (List.length encoded)))
        (Some (match encoded with
               | [] => 0%Z | _ => Z.of_nat (List.length rows) end))
        (Some (Z.of_nat (List.length es)))
        true).

(** [__len__] *)
Definition Dataset_len_ (self : Dataset) : result Z :=
  n <- the (num_elements self) ;; Ok (n * n_cf_agent_samples self)%Z.

(** [len(self)]: the builtin refuses a negative length. *)
Definition Dataset_len (self : Dataset) : result Z :=
  n <- Dataset_len_ self ;;
  if (n <? 0)%Z then Raise ValueError else Ok n.

(** [t[idx]] for an index tensor [idx]: a negative index counts from the
    end, an index outside [-len, len) raises. *)
Definition tensor_at (t : list Z) (i : Z) : result Z :=
  let n := Z.of_nat (List.length t) in
  if ((i <? - n) || (n <=? i))%Z then Raise IndexError
  else Py.getitem t (Z.to_nat (if (i <? 0)%Z then i + n else i)%Z).

(** [idx.max()] *)
Definition tensor_max (idx : list Z) : result Z :=
  match idx with
  | [] => Raise RuntimeError
  | i :: rest => Ok (fold_left Z.max rest i)
  end.

(** What [__getitem__] resolves an example to: the turn row of the
    columnar storage, the power and the counterfactual sample. *)
Record Resolved : Type := mkResolved {
  r_x_idx : Z; r_power_idx : Z; r_sample_idx : Z
}.

(** [__getitem__] on an index tensor, up to the gathering of the fields of
    the resolved rows.  The remainder and the floor division of an integer
    tensor by zero raise a [RuntimeError]. *)
Definition Dataset_getitem_tensor (self : Dataset) (idx : list Z)
  : result (list Resolved) :=
  if negb (_preprocessed self) then Raise AssertionError else
  m <- tensor_max idx ;;
  n <- Dataset_len self ;;
  if negb (m <? n)%Z then Raise AssertionError else
  let n_cf := n_cf_agent_samples self in
  if (n_cf =? 0)%Z then Raise RuntimeError else
  xs <- the (x_idxs self) ;;
  ps <- the (power_idxs self) ;;
  mapM (fun i =>
          let sample_idx := (i mod n_cf)%Z in
          let row := (i / n_cf)%Z in
          x_idx <- tensor_at xs row ;;
          power_idx <- tensor_at ps row ;;
          Ok (mkResolved x_idx power_idx sample_idx)) idx.

(** [__getitem__] on an [int]: [idx = torch.tensor([idx])]. *)
Definition Dataset_getitem (self : Dataset) (idx : Z)
  : result (list Resolved) :=
  Dataset_getitem_tensor self [idx].

(** [torch.cat] *)
Definition tensor_cat (ts : list (list Z)) : result (list Z) :=
  match ts with
  | [] => Raise RuntimeError
  | _ => Ok (List.concat ts)
  end.

(** [np.cumsum([0] + xs[:-1])]: the offsets of the parts. *)
Fixpoint offsets (start : Z) (xs : list Z) : list Z :=
  match xs with
  | [] => []
  | x :: rest => start :: offsets (start + x) rest
  end.

(** The checks at the head of [from_merge]. *)
Fixpoint check_mergeable (datasets : list Dataset) : result unit :=
  match datasets with
  | [] => Ok tt
  | d :: rest =>
      if negb (n_cf_agent_samples d =? 1)%Z then Raise NotImplementedError
      else if negb (_preprocessed d) then Raise NotImplementedError
      else check_mergeable rest
  end.

(** [from_merge]; the merged dataset is built with the default
    [n_cf_agent_samples=1]. *)
Definition from_merge (datasets : list Dataset) : result Dataset :=
  _ <- check_mergeable datasets ;;
  ngs <- mapM (fun d => the (num_games d)) datasets ;;
  nps <- mapM (fun d => the (num_phases d)) datasets ;;
  let game_offsets := offsets 0 ngs in
  let phase_offsets := offsets 0 nps in
  gs <- mapM (fun d_off => t <- the (game_idxs (fst d_off)) ;;
                           Ok (map (Z.add (snd d_off)) t))
          (combine datasets game_offsets) ;;
  merged_game_idxs <- tensor_cat gs ;;
  phs <- mapM (fun d => the (phase_idxs d)) datasets ;;
  merged_phase_idxs <- tensor_cat phs ;;
  pws <- mapM (fun d => the (power_idxs d)) datasets ;;
  merged_power_idxs <- tensor_cat pws ;;
  xs <- mapM (fun d_off => t <- the (x_idxs (fst d_off)) ;;
                           Ok (map (Z.add (snd d_off)) t))
          (combine datasets phase_offsets) ;;
  merged_x_idxs <- tensor_cat xs ;;
  encs <- mapM (fun d => the (encoded_games d)) datasets ;;
  nes <- mapM (fun d => the (num_elements d)) datasets ;;
  Ok (mkDataset
        (flat_map game_ids datasets) false 1
        (Some merged_game_idxs) (Some merged_phase_idxs)
        (Some merged_power_idxs) (Some merged_x_idxs)
        (Some (List.concat encs))
        (Some (fold_left Z.add ngs 0%Z))
        (Some (fold_left Z.add nps 0%Z))
        (Some (fold_left Z.add nes 0%Z))
        true).

(** The attributes that pre-processing populates are there once the flag
    is set, and the number of elements counts the rows of the index. *)
Definition populated (d : Dataset) : Prop :=
  exists gs phs pws xs enc ng np,
    game_idxs d = Some gs /\ phase_idxs d = Some phs
    /\ power_idxs d = Some pws /\ x_idxs d = Some xs
    /\ encoded_games d = Some enc
    /\ num_games d = Some ng /\ num_phases d = Some np
    /\ num_elements d = Some (Z.of_nat (List.length xs))
    /\ List.length pws = List.length xs.

Definition well_formed (d : Dataset) : Prop :=
  _preprocessed d = true -> populated d.

(** What [from_merge] asks of an input. *)
Definition mergeable (d : Dataset) : Prop :=
  n_cf_agent_samples d = 1%Z /\ _preprocessed d = true.

(** The number of elements of a populated dataset. *)
Definition elements (d : Dataset) : Z :=
  match num_elements d with Some n => n | None => 0%Z end.

(** The number of rows of the index of a dataset. *)
Definition index_rows (d : Dataset) : nat :=
  match x_idxs d with Some t => List.length t | None => 0 end.

(** The number of set bits of the validity masks of a list of games. *)
Definition count_valid (games : list EncodedGame) : nat :=
  List.length
    (filter (fun b : bool => b)
            (flat_map valid_power_idxs (List.concat games))).

End DatasetIndex.

Arguments mkRow {Fields} valid_power_idxs fields.
Arguments valid_power_idxs {Fields} e.
Arguments mkDataset {Fields}.
Arguments game_ids {Fields} d.
Arguments n_cf_agent_samples {Fields} d.
Arguments game_idxs {Fields} d.
Arguments phase_idxs {Fields} d.
Arguments power_idxs {Fields} d.
Arguments x_idxs {Fields} d.
Arguments encoded_games {Fields} d.
Arguments num_games {Fields} d.
Arguments num_phases {Fields} d.
Arguments num_elements {Fields} d.
Arguments _preprocessed {Fields} d.
Arguments Dataset_init {Fields} game_ids n_cf_agent_samples.
Arguments first_row_any {Fields} g.
Arguments index_phases {Fields} n_powers game_idx phase_idx x_idx rows.
Arguments index_games {Fields} n_powers game_idx x_idx games.
Arguments preprocess {Fields} n_powers self encoded_game_tuples.
Arguments Dataset_len_ {Fields} self.
Arguments Dataset_len {Fields} self.
Arguments Dataset_getitem_tensor {Fields} self idx.
Arguments Dataset_getitem {Fields} self idx.
Arguments check_mergeable {Fields} datasets.
Arguments from_merge {Fields} datasets.
Arguments populated {Fields} d.
Arguments well_formed {Fields} d.
Arguments count_valid {Fields} games.
Arguments mergeable {Fields} d.
Arguments elements {Fields} d.
Arguments index_rows {Fields} d.


(** ** Vocabulary of the statements *)

(** An order with fewer than three whitespace-separated fields. *)
Definition short_order (order : string) : Prop :=
  List.length (Py.split order) < 3.

(** An order whose third field is ["B"]. *)
Definition build_order (order : string) : Prop :=
  nth_error (Py.split order) 2 = Some "B".

(** The position of an id in the candidate list of step [i], if the step
    exists and holds the id. *)
Definition candidate_pos (x_possible_actions : list (list Z)) (i : nat)
  (order_idx : Z) : option nat :=
  match nth_error x_possible_actions i with
  | Some row => find_pos row order_idx
  | None => None
  end.

(** The rank of the location of an id in [LOCS]: its sort key. *)
Definition loc_rank (LOCS ORDER_VOCABULARY : list string) (idx : Z) : nat :=
  match loc_key LOCS ORDER_VOCABULARY idx with
  | Ok k => k
  | Raise _ => 0
  end.

(** Powers, sums and weighted sums of rationals. *)
Fixpoint qpow (a : Q) (n : nat) : Q :=
  match n with
  | O => 1%Q
  | S n' => (a * qpow a n')%Q
  end.



(** The weights [(1 - alpha) * alpha^j] for [j0 <= j < j0 + n]. *)
Fixpoint decay_weights (alpha : Q) (j0 n : nat) : list Q :=
  match n with
  | O => []
  | S n' => ((1 - alpha) * qpow alpha j0)%Q :: decay_weights alpha (S j0) n'
  end.

(** The weighted sum as the loop builds it: the weight is multiplied by
    [alpha] after every value. *)
Fixpoint running_sum (w alpha : Q) (vs : list Q) : Q :=
  match vs with
  | [] => 0%Q
  | v :: vs' => (w * v + running_sum (w * alpha) alpha vs')%Q
  end.

(** A mask that has at least the cleared bits of another one. *)
Definition mask_le (v v' : list bool) : Prop :=
  List.length v' = List.length v
  /\ forall i, nth_error v i = Some false -> nth_error v' i = Some false.

(** [c] picks elements of [l], in the order of [l]. *)
Inductive subseq {A : Type} : list A -> list A -> Prop :=
| subseq_nil : subseq [] []
| subseq_take (x : A) (c l : list A) : subseq c l -> subseq (x :: c) (x :: l)
| subseq_skip (x : A) (c l : list A) : subseq c l -> subseq c (x :: l).

(** The serialization of one order for each candidate list of a choice. *)
Definition serialization_of (choice : list (list string)) (s : string)
  : Prop :=
  exists x, Forall2 (fun o v => In o v) x choice
            /\ s = Py.join ";" (Py.sorted_str x).

(** The binomial coefficient C(m, n). *)
Fixpoint binom (m n : nat) {struct m} : nat :=
  match n with
  | O => 1
  | S n' =>
      match m with
      | O => 0
      | S m' => binom m' n' + binom m' n
      end
  end.

(** ** More of the module *)

(** The gather index of [__getitem__] for one example:
    [(x_idx * len(POWERS) + power_idx) * MAX_SEQ_LEN + arange(MAX_SEQ_LEN)],
    the rows of the candidate store that hold the steps of the power at
    the turn. *)
Definition possible_actions_idx (n_powers : nat) (x_idx power_idx : Z)
  : list Z :=
  map (fun k => ((x_idx * Z.of_nat n_powers + power_idx)
                 * Z.of_nat MAX_SEQ_LEN + Z.of_nat k)%Z)
      (seq 0 MAX_SEQ_LEN).

(** [a >= b] on ratings; the right side is [None] when [min_rating] was
    not given, and the comparison of a number with [None] raises. *)
Definition rating_ge (a : Q) (b : option Q) : result bool :=
  match b with
  | Some m => Ok (Qle_bool m a)
  | None => Raise TypeError
  end.

(** [get_valid_power_idxs]: [game_metadata] maps a game to the
    ["logit_rating"] of every power. *)
Definition get_valid_power_idxs (POWERS : list string)
  (game_metadata : Py.dict (Py.dict Q)) (min_rating : option Q)
  (game_id : string) : result (list bool) :=
  mapM (fun pwr =>
          game <- Py.lookup game_metadata game_id ;;
          rating <- Py.lookup game pwr ;;
          rating_ge rating min_rating) POWERS.

(** ** More vocabulary of the statements *)

(** The ids of the orders of a list that the vocabulary resolves, in the
    order of the list. *)
Definition resolved_ids (ORDER_VOCABULARY : list string)
  (orders : list string) : list Z :=
  flat_map (fun o => match smarter_order_index ORDER_VOCABULARY o with
                     | Ok i => [i]
                     | Raise _ => []
                     end) orders.

(** The orders of a list that the vocabulary resolves. *)
Definition resolved_orders (ORDER_VOCABULARY : list string)
  (orders : list string) : list string :=
  filter (fun o => is_ok (smarter_order_index ORDER_VOCABULARY o)) orders.

(** A row of candidate ids behind its padding. *)
Definition padded_row (EOS_IDX : Z) (ids : list Z) : list Z :=
  ids ++ repeat EOS_IDX (MAX_VALID_LEN - List.length ids).

(** The shape [MAX_SEQ_LEN x MAX_VALID_LEN] of the steps of a candidate
    set, and the shape of the set with its batch dimension. *)
Definition rows_shape (t : list (list Z)) : Prop :=
  List.length t = MAX_SEQ_LEN
  /\ Forall (fun row => List.length row = MAX_VALID_LEN) t.

Definition candidate_shape (t : list (list (list Z))) : Prop :=
  exists rows, t = [rows] /\ rows_shape rows.

(** A step assignment: one entry per location, each -1, -2 or a step. *)
Definition assignment_entry (v : Z) : Prop :=
  v = (-1)%Z \/ v = (-2)%Z \/ (0 <= v < Z.of_nat MAX_SEQ_LEN)%Z.

Definition assignment_shape (LOCS : list string) (t : list (list Z))
  : Prop :=
  exists row,
    t = [row] /\ List.length row = List.length LOCS
    /\ Forall assignment_entry row.

(** A location that a move or a disband turn can handle: it is in [LOCS],
    it has candidates, and the ids of those the vocabulary resolves fit a
    step. *)
Definition orderable_ok (LOCS ORDER_VOCABULARY : list string)
  (all_possible_orders : Py.dict (list string)) (loc : string) : Prop :=
  In loc LOCS
  /\ exists v, Py.get all_possible_orders loc = Some v
               /\ List.length (resolved_ids ORDER_VOCABULARY v)
                  <= MAX_VALID_LEN.

(** [c in s] for a character. *)
Definition contains_char (c : ascii) (s : string) : bool :=
  existsb (Ascii.eqb c) (list_ascii_of_string s).

(** A label that is the sentinel or a position in the candidate list of
    its step. *)
Definition label_in_range (EOS_IDX : Z) (x_possible_actions : list (list Z))
  (k : nat) (v : Z) : Prop :=
  v = EOS_IDX
  \/ exists row, nth_error x_possible_actions k = Some row
                 /\ (0 <= v < Z.of_nat (List.length row))%Z.

(** The year that the first loop of [encode_weighted_sos_scores] reads in
    the name of a turn: [int(name[1:-1])]. *)
Definition year_of (name : string) : result Z :=
  Py.int (Py.slice_1_m1 name).



(** The test of [encode_phase] on a sample of holds (lines 391-392):
    [0 <= exclude_n_holds <= len(orders)] and every order ends in [" H"]. *)
Definition all_holds (exclude_n_holds : Z) (orders : list string) : Prop :=
  (0 <= exclude_n_holds <= Z.of_nat (List.length orders))%Z
  /\ Forall (fun o => Py.endswith o " H" = true) orders.

(** The order samples of [encode_phase] without a [cf_agent]:
    [{power: [phase.orders.get(power, [])] for power in POWERS}]. *)
Definition recorded_samples (POWERS : list string)
  (orders : Py.dict (list string)) : Py.dict (list (list string)) :=
  map (fun power =>
         (power, [match Py.get orders power with
                  | Some v => v
                  | None => []
                  end])) POWERS.

(** [final_score.get(power, 0)] over the centers of the final state. *)
Definition final_score_of (centers : Py.dict (list string)) (power : string)
  : Z :=
  match Py.get (Py.map_values (fun v => Z.of_nat (List.length v)) centers)
               power with
  | Some v => v
  | None => 0%Z
  end.

(** The first turn of a game has a valid power. *)
Definition has_valid_power {Fields : Type} (g : EncodedGame Fields) : bool :=
  match g with
  | row :: _ => existsb (fun b => b) (valid_power_idxs row)
  | [] => false
  end.

(** What [encode_game] returns for a game: [None, None] when it could not
    be loaded, its id and its encoding otherwise. *)
Definition loaded_or_not {Fields : Type}
  (t : option string * option (EncodedGame Fields)) : Prop :=
  match t with
  | (Some _, Some _) | (None, None) => True
  | _ => False
  end.

(** The games with a valid power on their first turn, with their ids. *)
Definition kept_games {Fields : Type}
  (tuples : list (option string * option (EncodedGame Fields)))
  : list (string * EncodedGame Fields) :=
  flat_map (fun t => match t with
                     | (Some i, Some g) =>
                         if has_valid_power g then [(i, g)] else []
                     | _ => []
                     end) tuples.

(** A tuple that [preprocess] can take: a game that was not loaded has no
    id; a loaded game has a turn and, if it is kept, masks of [n_powers]
    bits on all its turns. *)
Definition encodable {Fields : Type} (n_powers : nat)
  (t : option string * option (EncodedGame Fields)) : Prop :=
  match snd t with
  | Some g =>
      g <> []
      /\ (has_valid_power g = true ->
          Forall (fun row => List.length (valid_power_idxs row) = n_powers) g)
  | None => fst t = None
  end.

(** The number of turn rows of a populated dataset. *)
Definition phases {Fields : Type} (d : Dataset Fields) : Z :=
  match num_phases d with Some n => n | None => 0%Z end.

(** The sum of a quantity over a list. *)
Definition total {A : Type} (f : A -> Z) (l : list A) : Z :=
  fold_right (fun a s => (f a + s)%Z) 0%Z l.

(** A vocabulary entry whose second field is a location of [LOCS]. *)
Definition located (LOCS : list string) (entry : string) : Prop :=
  exists loc, nth_error (Py.split entry) 1 = Some loc /\ In loc LOCS.

(** ** Small tables for the examples *)

Module Ex.

Definition LOCS : list string :=
  ["BUR"; "MAR"; "PAR"; "STP"; "STP/NC"; "STP/SC"].

Definition VOCAB : list string :=
  ["A PAR H"; "A MAR - BUR"; "F STP - BAR"; "A MAR B"; "A PAR B";
   "A MAR B;A PAR B"; "F STP/NC B"; "A MAR H"].

Definition EOS : Z := (-1)%Z.

Definition POWERS : list string :=
  ["AUSTRIA"; "ENGLAND"; "FRANCE"; "GERMANY"; "ITALY"; "RUSSIA"; "TURKEY"].

(** A game of six turns over three years; the state of a turn is a number
    and the first power scores that number. *)
Definition game : Game nat :=
  mkGame [mkPhase "S1901M" 1; mkPhase "F1901M" 2; mkPhase "W1901A" 3;
          mkPhase "S1902M" 4; mkPhase "F1902M" 5; mkPhase "S1903M" 6]
         [7; 0; 0; 0; 0; 0; 1]%Q.

Definition square_score (p st : nat) : Q :=
  if p =? 0 then inject_Z (Z.of_nat st) else 0%Q.



(** Two encoded games of two turns and of one turn, and a game that could
    not be loaded; the fields of a turn other than the mask are left out. *)
Definition tuples : list (option string * option (EncodedGame unit)) :=
  [(Some "game_1",
    Some [mkRow [false; false; true; false; false; false; false] tt;
          mkRow [false; false; false; false; false; false; false] tt]);
   (None, None);
   (Some "game_3",
    Some [mkRow [true; false; false; false; false; false; true] tt])].

(** The dataset over these games, with one sample per example. *)
Definition indexed : Dataset unit :=
  Eval vm_compute in
    match preprocess 7 (Dataset_init ["game_1"; "game_2"; "game_3"] 1)
                     tuples with
    | Ok d => d
    | Raise _ => Dataset_init [] 1
    end.

(** A move turn in which FRANCE alone has a unit, in PAR, and orders it to
    hold; the recorded orders give the other powers one empty sample. *)
Definition phase_orders : Py.dict (list (list string)) :=
  [("AUSTRIA", [[]]); ("ENGLAND", [[]]); ("FRANCE", [["A PAR H"]]);
   ("GERMANY", [[]]); ("ITALY", [[]]); ("RUSSIA", [[]]); ("TURKEY", [[]])].

Definition phase_candidates : list (list (list Z)) :=
  let none := repeat [] 17 in
  [none; none; [5; 0]%Z :: repeat [] 16; none; none; none; none].

Definition all_powers_valid : list bool := repeat true 7.

(** The mask of a game in which the rating of FRANCE is below the
    minimum. *)
Definition france_excluded : list bool :=
  [true; true; false; true; true; true; true].

(** A build turn of one power with two home locations. *)
Definition build_possible_orders : Py.dict (list string) :=
  [("PAR", ["A PAR B"; "WAIVE"]); ("MAR", ["A MAR B"; "WAIVE"])].

Definition build_orderable : Py.dict (list string) :=
  [("FRANCE", ["PAR"; "MAR"])].

(** Candidate sets of 17 steps for a power with units in MAR and PAR. *)
Definition move_candidates : list (list Z) :=
  [[5; 1; 7]; [0]]%Z ++ repeat [] 15.

Definition single_candidates : list (list Z) :=
  [[3]; [4]]%Z ++ repeat [] 15.

Definition mixed_candidates : list (list Z) :=
  [[3]; [0]]%Z ++ repeat [] 15.

(** 470 different orders for one location, and the vocabulary that has
    them all. *)
Definition wide_candidates : list string :=
  map (fun i => "A PAR B " ++ NilEmpty.string_of_uint (Nat.to_uint i))%string
      (seq 0 470).

End Ex.

(** ** More tables for the examples *)

Module Ex2.

(** An ordinary turn of FRANCE with units in PAR and MAR; one candidate of
    PAR is not in the vocabulary. *)
Definition move_possible_orders : Py.dict (list string) :=
  [("PAR", ["A PAR H"; "A PAR - BUR"]);
   ("MAR", ["A MAR - BUR"; "A MAR H"])].

Definition orderable : Py.dict (list string) := [("FRANCE", ["PAR"; "MAR"])].

(** Eighteen locations, a hold order for each, and a power that can order
    them all. *)
Definition locs18 : list string :=
  ["ADR"; "AEG"; "ALB"; "ANK"; "APU"; "ARM"; "BAL"; "BAR"; "BEL"; "BER";
   "BLA"; "BOH"; "BRE"; "BUD"; "BUL"; "BUR"; "CLY"; "CON"].

Definition holds18 : Py.dict (list string) :=
  map (fun loc => (loc, ["A " ++ loc ++ " H"]%string)) locs18.

Definition vocab18 : list string :=
  map (fun loc => "A " ++ loc ++ " H")%string locs18.

(** A turn on which FRANCE owes two disbands. *)
Definition disband_possible_orders : Py.dict (list string) :=
  [("PAR", ["A PAR D"]); ("MAR", ["A MAR D"])].

Definition disband_vocab : list string :=
  ["A PAR D"; "A PAR H"; "A MAR D"].

End Ex2.

(** * Properties *)

(** The two dimensions stay folded in the proofs. *)
Opaque MAX_SEQ_LEN MAX_VALID_LEN.

(** ** The error monad *)

Lemma bind_ok_inv {A B : Type} (m : result A) (k : A -> result B) (b : B) :
  bind m k = Ok b -> exists a, m = Ok a /\ k a = Ok b.
Proof.
  destruct m as [a|e]; simpl; intros H; [eauto | discriminate].
Qed.

Lemma mapM_length {A B : Type} (f : A -> result B) (l : list A) (r : list B) :
  mapM f l = Ok r -> List.length r = List.length l.
Proof.
  revert r; induction l as [|x xs IH]; simpl; intros r H.
  - inversion H; reflexivity.
  - destruct (f x) as [y|e]; simpl in H; [|discriminate].
    destruct (mapM f xs) as [ys|e]; simpl in H; [|discriminate].
    inversion H; subst; simpl; f_equal; apply IH; reflexivity.
Qed.

Lemma mapM_total {A B : Type} (f : A -> result B) (l : list A) :
  Forall (fun x => exists y, f x = Ok y) l -> exists r, mapM f l = Ok r.
Proof.
  induction 1 as [|x xs [y Hy] _ [r Hr]]; simpl.
  - eauto.
  - rewrite Hy, Hr; simpl; eauto.
Qed.

Lemma mapM_map {A B : Type} (f : A -> result B) (g : A -> B) (l : list A) :
  Forall (fun x => f x = Ok (g x)) l -> mapM f l = Ok (map g l).
Proof.
  induction 1 as [|x xs Hx _ IH]; simpl; [reflexivity|].
  rewrite Hx, IH; reflexivity.
Qed.

(** ** The builtins on sample inputs *)

Example split_example :
  Py.split "  F STP/NC  -  BAR " = ["F"; "STP/NC"; "-"; "BAR"].
Proof. reflexivity. Qed.

Example remove_example :
  Py.remove "/NC" "F STP/NC - BAR/NCx/N/NCC" = "F STP - BARx/NC".
Proof. reflexivity. Qed.

Example sorted_str_example :
  Py.sorted_str ["b"; "a"; "ab"; "B"] = ["B"; "a"; "ab"; "b"].
Proof. reflexivity. Qed.

Example int_examples :
  Py.int (Py.slice_1_m1 "W1901A") = Ok 1901%Z
  /\ Py.int " -19_01 " = Ok (-1901)%Z
  /\ Py.int "1__2" = Raise ValueError
  /\ Py.int (Py.slice_1_m1 "COMPLETED") = Raise ValueError.
Proof. repeat split; reflexivity. Qed.

Example combinations_example :
  Py.combinations [1; 2; 3; 4] 2
  = [[1; 2]; [1; 3]; [1; 4]; [2; 3]; [2; 4]; [3; 4]].
Proof. reflexivity. Qed.

Example product_example :
  Py.product [[1; 2]; [3; 4]; [5]]
  = [[1; 3; 5]; [1; 4; 5]; [2; 3; 5]; [2; 4; 5]].
Proof. reflexivity. Qed.

(** ** The vocabulary table *)

Lemma vocab_find_nth (l : list string) (s : string) :
  forall (i j : Z),
    vocab_find l i s = Some j ->
    (i <= j)%Z /\ nth_error l (Z.to_nat (j - i)) = Some s.
Proof.
  induction l as [|x xs IH]; simpl; intros i j H; [discriminate|].
  destruct (vocab_find xs (i + 1) s) as [j'|] eqn:E.
  - inversion H; subst j'; destruct (IH _ _ E) as [Hle Hn].
    split; [lia|].
    replace (Z.to_nat (j - i)) with (S (Z.to_nat (j - (i + 1)))) by lia.
    exact Hn.
  - destruct (String.eqb x s) eqn:Ex; [|discriminate].
    inversion H; subst j; apply String.eqb_eq in Ex; subst x.
    split; [lia|]; rewrite Z.sub_diag; reflexivity.
Qed.

(** The id of a string leads back to the string. *)
Lemma ORDER_VOCABULARY_at_id (ORDER_VOCABULARY : list string) (s : string)
  (idx : Z) :
  ORDER_VOCABULARY_TO_IDX ORDER_VOCABULARY s = Ok idx ->
  ORDER_VOCABULARY_at ORDER_VOCABULARY idx = Ok s.
Proof.
  unfold ORDER_VOCABULARY_TO_IDX, ORDER_VOCABULARY_at; intros H.
  destruct (vocab_find ORDER_VOCABULARY 0 s) as [j|] eqn:E; [|discriminate].
  inversion H; subst j; destruct (vocab_find_nth _ _ _ _ E) as [Hle Hn].
  destruct (idx <? 0)%Z eqn:E0; [apply Z.ltb_lt in E0; lia|].
  unfold Py.getitem; rewrite Z.sub_0_r in Hn; rewrite Hn; reflexivity.
Qed.

(** ** C6: the two-tier vocabulary lookup *)

Section Vocabulary.

Variable ORDER_VOCABULARY : list string.

Local Abbreviation TO_IDX := (ORDER_VOCABULARY_TO_IDX ORDER_VOCABULARY).

Lemma ORDER_VOCABULARY_TO_IDX_raises (s : string) (e : exn) :
  TO_IDX s = Raise e -> e = KeyError.
Proof.
  unfold ORDER_VOCABULARY_TO_IDX.
  destruct (vocab_find ORDER_VOCABULARY 0 s); intros H;
    [discriminate | inversion H; reflexivity].
Qed.

Lemma smarter_order_index_raises (order : string) (e : exn) :
  smarter_order_index ORDER_VOCABULARY order = Raise e -> e = KeyError.
Proof.
  unfold smarter_order_index.
  destruct (ORDER_VOCABULARY_TO_IDX ORDER_VOCABULARY order) as [i|e'] eqn:H1.
  - discriminate.
  - pose proof (ORDER_VOCABULARY_TO_IDX_raises _ _ H1); subst e'.
    apply ORDER_VOCABULARY_TO_IDX_raises.
Qed.

(** C6.  [smarter_order_index] returns the id of the order string when the
    vocabulary has it; on a miss it returns the id of the string with the
    occurrences of /NC, /EC, /SC and /WC removed when the vocabulary has
    that one; and it raises, a [KeyError], exactly when both lookups
    miss. *)
Theorem smarter_order_index_two_tier (order : string) :
  (forall i, TO_IDX order = Ok i ->
             smarter_order_index ORDER_VOCABULARY order = Ok i)
  /\ (forall j, TO_IDX order = Raise KeyError ->
                TO_IDX (strip_coasts order) = Ok j ->
                smarter_order_index ORDER_VOCABULARY order = Ok j)
  /\ (forall e, smarter_order_index ORDER_VOCABULARY order = Raise e <->
                e = KeyError
                /\ TO_IDX order = Raise KeyError
                /\ TO_IDX (strip_coasts order) = Raise KeyError).
Proof.
  unfold smarter_order_index.
  destruct (ORDER_VOCABULARY_TO_IDX ORDER_VOCABULARY order) as [i|e1] eqn:H1.
  - split; [|split].
    + intros i' Hi; inversion Hi; reflexivity.
    + intros j Hj; discriminate.
    + intros e; split; [intros He; discriminate|].
      intros (_ & Hm & _); discriminate.
  - pose proof (ORDER_VOCABULARY_TO_IDX_raises _ _ H1); subst e1.
    split; [|split].
    + intros i Hi; discriminate.
    + intros j _ Hj; exact Hj.
    + intros e; split.
      * intros He.
        pose proof (ORDER_VOCABULARY_TO_IDX_raises _ _ He); subst e.
        auto.
      * intros (-> & _ & Hm); exact Hm.
Qed.

End Vocabulary.

(** The removal at work: a coast on the unit and on the destination. *)
Example strip_coasts_example :
  strip_coasts "F STP/NC S F BUL/EC - RUM" = "F STP S F BUL - RUM".
Proof. reflexivity. Qed.

Lemma smarter_order_index_two_tier_witness :
  smarter_order_index Ex.VOCAB "A PAR H" = Ok 0%Z
  /\ smarter_order_index Ex.VOCAB "F STP/SC - BAR" = Ok 2%Z
  /\ smarter_order_index Ex.VOCAB "A XXX/EC H" = Raise KeyError.
Proof.
  destruct (smarter_order_index_two_tier Ex.VOCAB "A PAR H") as (H1 & _ & _).
  destruct (smarter_order_index_two_tier Ex.VOCAB "F STP/SC - BAR")
    as (_ & H2 & _).
  destruct (smarter_order_index_two_tier Ex.VOCAB "A XXX/EC H")
    as (_ & _ & H3).
  split; [apply H1; reflexivity|].
  split; [apply H2; reflexivity|].
  apply H3; repeat split; reflexivity.
Defined.

(** ** C7, C9: the orders that [encode_power_actions] refuses or skips *)

Section OrderEncoder.

Variable LOCS : list string.
Variable ORDER_VOCABULARY : list string.
Variable EOS_IDX : Z.

Local Abbreviation encode := (encode_power_actions LOCS ORDER_VOCABULARY EOS_IDX).
Local Abbreviation resolve := (resolve_orders ORDER_VOCABULARY).
Local Abbreviation smarter := (smarter_order_index ORDER_VOCABULARY).

Lemma existsb_short_true (orders : list string) :
  Exists short_order orders ->
  existsb (fun order => List.length (Py.split order) <? 3) orders = true.
Proof.
  intros H; apply existsb_exists; apply Exists_exists in H.
  destruct H as (o & Hin & Ho); exists o; split; [exact Hin|].
  apply Nat.ltb_lt; exact Ho.
Qed.

Lemma existsb_short_false (orders : list string) :
  Forall (fun o => ~ short_order o) orders ->
  existsb (fun order => List.length (Py.split order) <? 3) orders = false.
Proof.
  induction 1 as [|o os Ho _ IH]; simpl; [reflexivity|].
  rewrite IH, orb_false_r; apply Nat.ltb_ge; unfold short_order in Ho; lia.
Qed.

Lemma is_build_iff (order : string) :
  ~ short_order order -> (is_build order = true <-> build_order order).
Proof.
  unfold short_order, is_build, build_order; intros Hlen.
  destruct (nth_error (Py.split order) 2) as [f|] eqn:Hn.
  - rewrite (nth_error_nth _ _ _ Hn); rewrite String.eqb_eq.
    split; [intros ->; reflexivity | intros H; inversion H; reflexivity].
  - apply nth_error_None in Hn; lia.
Qed.

Lemma existsb_is_build_false (orders : list string) :
  Forall (fun o => ~ short_order o) orders ->
  Forall (fun o => ~ build_order o) orders ->
  existsb is_build orders = false.
Proof.
  induction 1 as [|o os Ho _ IH]; intros Hb; simpl; [reflexivity|].
  inversion Hb; subst.
  rewrite IH by assumption; rewrite orb_false_r.
  destruct (is_build o) eqn:E; [|reflexivity].
  apply is_build_iff in E; [contradiction | exact Ho].
Qed.

(** C9.  A list in which every order has three fields, some order is a
    build and some order is not raises the assertion failure. *)
Theorem mixed_build_orders_assertion (orders : list string)
  (x_possible_actions : list (list Z)) :
  Forall (fun o => ~ short_order o) orders ->
  Exists build_order orders ->
  Exists (fun o => ~ build_order o) orders ->
  encode orders x_possible_actions = Raise AssertionError.
Proof.
  intros Hlen Hb Hnb; unfold encode_power_actions.
  rewrite (existsb_short_false _ Hlen).
  assert (E1 : existsb is_build orders = true).
  { apply existsb_exists; apply Exists_exists in Hb.
    destruct Hb as (o & Hin & Ho); exists o; split; [exact Hin|].
    apply is_build_iff; [|exact Ho].
    rewrite Forall_forall in Hlen; apply Hlen; exact Hin. }
  assert (E2 : forallb is_build orders = false).
  { apply Exists_exists in Hnb; destruct Hnb as (o & Hin & Ho).
    destruct (forallb is_build orders) eqn:E; [|reflexivity].
    rewrite forallb_forall in E; specialize (E o Hin).
    apply is_build_iff in E; [contradiction|].
    rewrite Forall_forall in Hlen; apply Hlen; exact Hin. }
  rewrite E1, E2; reflexivity.
Qed.

Lemma resolve_orders_skip (l1 l2 : list string) (order : string) :
  smarter order = Raise KeyError ->
  resolve (l1 ++ order :: l2) = resolve (l1 ++ l2).
Proof.
  intros Hk; induction l1 as [|o os IH]; simpl.
  - rewrite Hk; reflexivity.
  - rewrite IH; reflexivity.
Qed.

(** C7.  A list with an order of fewer than three fields is invalid and its
    labels are all the padding sentinel; in a list without build orders, an
    order that resolves to no id even after the fallback is dropped: the
    result is the one of the list without it. *)
Theorem short_or_unresolved_orders (x_possible_actions : list (list Z)) :
  (forall orders,
      Exists short_order orders ->
      encode orders x_possible_actions
      = Ok (repeat EOS_IDX MAX_SEQ_LEN, false))
  /\ (forall l1 order l2,
         Forall (fun o => ~ short_order o) (l1 ++ order :: l2) ->
         Forall (fun o => ~ build_order o) (l1 ++ order :: l2) ->
         smarter order = Raise KeyError ->
         encode (l1 ++ order :: l2) x_possible_actions
         = encode (l1 ++ l2) x_possible_actions).
Proof.
  split.
  - intros orders H; unfold encode_power_actions.
    rewrite (existsb_short_true _ H); reflexivity.
  - intros l1 order l2 Hlen Hnb Hk.
    assert (Hlen' : Forall (fun o => ~ short_order o) (l1 ++ l2)).
    { apply Forall_app in Hlen; destruct Hlen as [Ha Hb].
      inversion Hb; subst; apply Forall_app; split; assumption. }
    assert (Hnb' : Forall (fun o => ~ build_order o) (l1 ++ l2)).
    { apply Forall_app in Hnb; destruct Hnb as [Ha Hb].
      inversion Hb; subst; apply Forall_app; split; assumption. }
    unfold encode_power_actions.
    rewrite (existsb_short_false _ Hlen), (existsb_short_false _ Hlen').
    rewrite (existsb_is_build_false _ Hlen Hnb).
    rewrite (existsb_is_build_false _ Hlen' Hnb').
    rewrite (resolve_orders_skip _ _ _ Hk); reflexivity.
Qed.

End OrderEncoder.

Lemma mixed_build_orders_assertion_witness :
  encode_power_actions Ex.LOCS Ex.VOCAB Ex.EOS ["A PAR B"; "A MAR H"]
    [[4; 7]; [4; 7]]%Z
  = Raise AssertionError.
Proof.
  apply mixed_build_orders_assertion.
  - repeat constructor; unfold short_order; simpl; lia.
  - apply Exists_cons_hd; reflexivity.
  - apply Exists_cons_tl, Exists_cons_hd; unfold build_order; simpl.
    discriminate.
Defined.

Lemma short_or_unresolved_orders_witness :
  encode_power_actions Ex.LOCS Ex.VOCAB Ex.EOS ["A PAR"; "A MAR H"]
    [[7]; [0]]%Z
  = Ok (repeat Ex.EOS MAX_SEQ_LEN, false)
  /\ encode_power_actions Ex.LOCS Ex.VOCAB Ex.EOS
       ["A MAR H"; "A XXX H"; "A PAR H"] [[7]; [0]]%Z
     = Ok ([0; 0]%Z ++ repeat Ex.EOS 15, true).
Proof.
  destruct (short_or_unresolved_orders Ex.LOCS Ex.VOCAB Ex.EOS [[7]; [0]]%Z)
    as [H1 H2].
  split.
  - apply H1; apply Exists_cons_hd; unfold short_order; simpl; lia.
  - refine (eq_trans (H2 ["A MAR H"] "A XXX H" ["A PAR H"] _ _ _) _).
    + repeat constructor; unfold short_order; simpl; lia.
    + repeat constructor; unfold build_order; simpl; discriminate.
    + reflexivity.
    + reflexivity.
Defined.

(** ** Sorting and enumeration *)

Section SortFacts.

Context {A : Type}.
Variable leb : A -> A -> bool.

Lemma insert_perm (x : A) (l : list A) :
  Permutation (Py.insert leb x l) (x :: l).
Proof.
  induction l as [|y ys IH]; simpl; [apply Permutation_refl|].
  destruct (leb x y); [apply Permutation_refl|].
  eapply perm_trans; [apply perm_skip, IH | apply perm_swap].
Qed.

Lemma sort_perm (l : list A) : Permutation (Py.sort leb l) l.
Proof.
  induction l as [|x xs IH]; simpl; [apply perm_nil|].
  eapply perm_trans; [apply insert_perm | apply perm_skip, IH].
Qed.

Lemma sort_length (l : list A) : List.length (Py.sort leb l) = List.length l.
Proof. apply Permutation_length, sort_perm. Qed.

Variable le : A -> A -> Prop.
Hypothesis leb_le : forall x y, leb x y = true -> le x y.
Hypothesis leb_total : forall x y, leb x y = false -> le y x.

Lemma insert_sorted (x : A) (l : list A) :
  Sorted le l -> Sorted le (Py.insert leb x l).
Proof.
  induction 1 as [|y ys Hs IH Hhd]; simpl.
  - repeat constructor.
  - destruct (leb x y) eqn:E.
    + constructor; [constructor; assumption | constructor; auto].
    + constructor; [exact IH|].
      destruct ys as [|z zs]; simpl.
      * constructor; auto.
      * destruct (leb x z); constructor; auto.
        inversion Hhd; assumption.
Qed.

Lemma sort_sorted (l : list A) : Sorted le (Py.sort leb l).
Proof.
  induction l as [|x xs IH]; simpl; [constructor | apply insert_sorted, IH].
Qed.

End SortFacts.

Lemma sorted_Z_sorted (l : list Z) : Sorted Z.le (Py.sorted_Z l).
Proof.
  apply sort_sorted; intros x y H; [apply Z.leb_le; exact H|].
  apply Z.leb_gt in H; lia.
Qed.

Lemma sorted_by_key_perm {A : Type} (l : list (nat * A)) :
  Permutation (Py.sorted_by_key l) (map snd l).
Proof. unfold Py.sorted_by_key; apply Permutation_map, sort_perm. Qed.

Lemma combinations_length {A : Type} (l : list A) (n : nat) :
  List.length (Py.combinations l n) = binom (List.length l) n.
Proof.
  revert n; induction l as [|x xs IH]; intros [|n]; simpl; try reflexivity.
  rewrite length_app, length_map, !IH; reflexivity.
Qed.

Lemma combinations_elements {A : Type} (l : list A) (n : nat) (c : list A) :
  In c (Py.combinations l n) ->
  List.length c = n /\ Forall (fun x => In x l) c.
Proof.
  revert n c; induction l as [|x xs IH]; intros [|n] c; simpl.
  - intros [<-|[]]; split; [reflexivity | constructor].
  - intros [].
  - intros [<-|[]]; split; [reflexivity | constructor].
  - rewrite in_app_iff, in_map_iff; intros [(c' & <- & Hc) | Hc].
    + destruct (IH _ _ Hc) as [Hl Hf]; split; [simpl; lia|].
      constructor; [left; reflexivity|].
      eapply Forall_impl; [|exact Hf]; intros a Ha; right; exact Ha.
    + destruct (IH _ _ Hc) as [Hl Hf]; split; [exact Hl|].
      eapply Forall_impl; [|exact Hf]; intros a Ha; right; exact Ha.
Qed.

Lemma subseq_nil_l {A : Type} (l : list A) : subseq [] l.
Proof. induction l; constructor; assumption. Qed.

Lemma combinations_In {A : Type} (l : list A) :
  forall (n : nat) (c : list A),
    In c (Py.combinations l n) <-> subseq c l /\ List.length c = n.
Proof.
  induction l as [|x xs IH]; intros [|n] c; simpl.
  - split.
    + intros [<-|[]]; split; [constructor | reflexivity].
    + intros [H _]; inversion H; left; reflexivity.
  - split; [intros [] | intros [H Hl]; inversion H; subst; discriminate].
  - split.
    + intros [<-|[]]; split; [apply subseq_nil_l | reflexivity].
    + intros [_ Hl]; destruct c; [left; reflexivity | discriminate].
  - rewrite in_app_iff, in_map_iff; split.
    + intros [(c' & <- & Hc)|Hc].
      * apply IH in Hc; destruct Hc as [Hs Hl].
        split; [constructor; exact Hs | simpl; lia].
      * apply IH in Hc; destruct Hc as [Hs Hl].
        split; [constructor; exact Hs | exact Hl].
    + intros [Hs Hl]; inversion Hs; subst.
      * left; exists c0; split; [reflexivity|].
        apply IH; split; [assumption | simpl in Hl; lia].
      * right; apply IH; split; assumption.
Qed.

Lemma product_In {A : Type} (ls : list (list A)) :
  forall x, In x (Py.product ls) <-> Forall2 (fun o v => In o v) x ls.
Proof.
  induction ls as [|l rest IH]; intros x; simpl.
  - split; [intros [<-|[]]; constructor | intros H; inversion H; auto].
  - rewrite in_flat_map; split.
    + intros (a & Ha & Hx); apply in_map_iff in Hx.
      destruct Hx as (x' & <- & Hx'); constructor; [exact Ha|].
      apply IH; exact Hx'.
    + intros H; inversion H; subst.
      exists x0; split; [assumption|].
      apply in_map_iff; eexists; split; [reflexivity|].
      apply IH; assumption.
Qed.

(** The candidate strings of a build turn are the serializations of the
    choices of [n] of the candidate lists. *)
Lemma build_orders_In (cands : list (list string)) (n : nat) (s : string) :
  In s (build_orders cands n) <->
  exists choice, subseq choice cands /\ List.length choice = n
                 /\ serialization_of choice s.
Proof.
  unfold build_orders, serialization_of; rewrite in_flat_map; split.
  - intros (c & Hc & Hs); apply in_map_iff in Hs.
    destruct Hs as (x & <- & Hx).
    apply combinations_In in Hc; destruct Hc as [Hsub Hl].
    exists c; repeat split; try assumption.
    exists x; split; [apply product_In; exact Hx | reflexivity].
  - intros (c & Hsub & Hl & x & Hx & ->).
    exists c; split; [apply combinations_In; split; assumption|].
    apply in_map_iff; exists x; split; [reflexivity|].
    apply product_In; exact Hx.
Qed.

Lemma flat_map_length_const {A B : Type} (f : A -> list B) (l : list A)
  (c : nat) :
  Forall (fun x => List.length (f x) = c) l ->
  List.length (flat_map f l) = List.length l * c.
Proof.
  induction 1 as [|x xs Hx _ IH]; simpl; [reflexivity|].
  rewrite length_app, Hx, IH; reflexivity.
Qed.

Lemma product_length {A : Type} (ls : list (list A)) (k : nat) :
  Forall (fun v => List.length v = k) ls ->
  List.length (Py.product ls) = k ^ List.length ls.
Proof.
  induction 1 as [|v vs Hv _ IH]; simpl; [reflexivity|].
  rewrite (flat_map_length_const _ _ (k ^ List.length vs)).
  - rewrite Hv; reflexivity.
  - apply Forall_forall; intros x _; rewrite length_map; exact IH.
Qed.

Lemma build_orders_length (cands : list (list string)) (n k : nat) :
  Forall (fun v => List.length v = k) cands ->
  List.length (build_orders cands n) = binom (List.length cands) n * k ^ n.
Proof.
  intros Hk; unfold build_orders.
  rewrite (flat_map_length_const _ _ (k ^ n)).
  - rewrite combinations_length; reflexivity.
  - apply Forall_forall; intros c Hc.
    destruct (combinations_elements _ _ _ Hc) as [Hl Hf].
    rewrite length_map, (product_length c k); [rewrite Hl; reflexivity|].
    eapply Forall_impl; [|exact Hf]; intros v Hv.
    rewrite Forall_forall in Hk; apply Hk; exact Hv.
Qed.

(** ** C10, C1: the candidate sets of [get_valid_orders_impl] *)

Lemma skipn_repeat {A : Type} (x : A) (n m : nat) :
  skipn n (repeat x m) = repeat x (m - n).
Proof.
  revert m; induction n as [|n IH]; intros [|m]; simpl; auto.
Qed.

Lemma index_In_total (l : list string) (x : string) :
  In x l -> exists i, Py.index l x = Ok i.
Proof.
  induction l as [|y ys IH]; simpl; [intros []|].
  intros H; destruct (String.eqb y x) eqn:E; [eauto|].
  destruct H as [->|H]; [rewrite String.eqb_refl in E; discriminate|].
  destruct (IH H) as [i Hi]; rewrite Hi; simpl; eauto.
Qed.

Lemma MAX_SEQ_LEN_succ : MAX_SEQ_LEN = S (MAX_SEQ_LEN - 1).
Proof. reflexivity. Qed.

Lemma assign_rows_first (EOS_IDX : Z) (vals : list Z) :
  List.length vals <= MAX_VALID_LEN ->
  assign_rows (repeat (repeat EOS_IDX MAX_VALID_LEN) MAX_SEQ_LEN) 1 vals
  = Ok ((vals ++ repeat EOS_IDX (MAX_VALID_LEN - List.length vals))
        :: repeat (repeat EOS_IDX MAX_VALID_LEN) (MAX_SEQ_LEN - 1)).
Proof.
  intros H; unfold assign_rows.
  destruct (List.length vals <=? MAX_VALID_LEN) eqn:E;
    [|apply Nat.leb_gt in E; lia].
  rewrite MAX_SEQ_LEN_succ at 1 2; simpl.
  unfold set_prefix; rewrite skipn_repeat; reflexivity.
Qed.

Section CandidateSets.

Variable LOCS : list string.
Variable ORDER_VOCABULARY : list string.
Variable EOS_IDX : Z.

Local Abbreviation impl :=
  (get_valid_orders_impl LOCS ORDER_VOCABULARY EOS_IDX).
Local Abbreviation TO_IDX := (ORDER_VOCABULARY_TO_IDX ORDER_VOCABULARY).

(** C10.  For a power that is not a key of the orderable-locations map the
    candidate ids are all the padding sentinel, the step assignment is -1
    everywhere and the step count is 0. *)
Theorem absent_power_candidates (power : string)
  (all_possible_orders all_orderable_locations : Py.dict (list string))
  (builds : Py.dict Z) :
  Py.get all_orderable_locations power = None ->
  impl power all_possible_orders all_orderable_locations builds
  = Ok ([repeat (repeat EOS_IDX MAX_VALID_LEN) MAX_SEQ_LEN],
        [repeat (-1)%Z (List.length LOCS)], 0%Z).
Proof.
  intros H; unfold get_valid_orders_impl, Py.mem; rewrite H; reflexivity.
Qed.

(** The sort of the orderable locations rearranges them. *)
Lemma sort_orderable_perm (apo : Py.dict (list string))
  (locs ols : list string) :
  sort_orderable LOCS apo locs = Ok ols -> Permutation ols locs.
Proof.
  unfold sort_orderable; intros H.
  apply bind_ok_inv in H; destruct H as (keyed & Hk & H).
  inversion H; subst; clear H.
  eapply perm_trans; [apply sorted_by_key_perm|].
  assert (E : map snd keyed = locs); [|rewrite E; apply Permutation_refl].
  revert keyed Hk; induction locs as [|l ls IH]; simpl; intros keyed Hk.
  - inversion Hk; reflexivity.
  - destruct (orderable_key LOCS apo l); simpl in Hk; [|discriminate].
    destruct (mapM _ ls) as [r|]; simpl in Hk; [|discriminate].
    inversion Hk; subst; simpl; f_equal; apply IH; reflexivity.
Qed.

(** C1, amended.  On a turn with [n_builds > 0] builds owed, when the
    orderable locations of the power sort to [orderable_locs] (every one
    has a first candidate that names a location of [LOCS]), every one of
    the [m] locations has [k] candidates once the waive is removed and is
    itself in [LOCS], every serialized combination is a key of the
    vocabulary and C(m, n) * k^n is at most [MAX_VALID_LEN], the first step
    of the candidate set holds the ids of the C(m, n) * k^n combinations,
    sorted, before the padding, the other steps are padding, and the step
    count is [n_builds]. *)
Theorem build_turn_candidates (power : string)
  (all_possible_orders all_orderable_locations : Py.dict (list string))
  (builds : Py.dict Z) (locs orderable_locs : list string)
  (cands : list (list string)) (n_builds : Z) (k : nat) :
  let stripped := Py.map_values strip_waive all_possible_orders in
  let n := Z.to_nat n_builds in
  let m := List.length locs in
  Py.get all_orderable_locations power = Some locs ->
  sort_orderable LOCS stripped locs = Ok orderable_locs ->
  mapM (Py.lookup stripped) orderable_locs = Ok cands ->
  Forall (fun v => List.length v = k) cands ->
  Forall (fun loc => In loc LOCS) orderable_locs ->
  Py.get builds power = Some n_builds ->
  (0 < n_builds)%Z ->
  Forall (fun s => exists i, TO_IDX s = Ok i) (build_orders cands n) ->
  binom m n * k ^ n <= MAX_VALID_LEN ->
  exists order_idxs loc_idxs,
    mapM TO_IDX (build_orders cands n) = Ok order_idxs
    /\ (forall s, In s (build_orders cands n) <->
                  exists choice,
                    subseq choice cands /\ List.length choice = n
                    /\ serialization_of choice s)
    /\ List.length order_idxs = binom m n * k ^ n
    /\ Sorted Z.le (Py.sorted_Z order_idxs)
    /\ Permutation (Py.sorted_Z order_idxs) order_idxs
    /\ impl power all_possible_orders all_orderable_locations builds
       = Ok ([(Py.sorted_Z order_idxs
                ++ repeat EOS_IDX (MAX_VALID_LEN - binom m n * k ^ n))
              :: repeat (repeat EOS_IDX MAX_VALID_LEN) (MAX_SEQ_LEN - 1)],
             [loc_idxs], n_builds).
Proof.
  intros stripped n m Hget Hsort Hcands Hk Hlocs Hb Hpos Hvoc Hfit.
  destruct (mapM_total _ _ Hvoc) as [order_idxs Hids].
  assert (Hm : List.length cands = m).
  { rewrite (mapM_length _ _ _ Hcands).
    apply Permutation_length, (sort_orderable_perm _ _ _ Hsort). }
  assert (Hlen : List.length order_idxs = binom m n * k ^ n).
  { rewrite (mapM_length _ _ _ Hids), (build_orders_length _ _ k Hk), Hm.
    reflexivity. }
  assert (Hmark : exists js, mapM (Py.index LOCS) orderable_locs = Ok js).
  { apply mapM_total; eapply Forall_impl; [|exact Hlocs].
    intros loc Hin; apply index_In_total; exact Hin. }
  destruct Hmark as [js Hjs].
  exists order_idxs.
  exists (fold_left (fun t j => set_nth t j (-2)%Z) js
            (repeat (-1)%Z (List.length LOCS))).
  split; [exact Hids|].
  split; [intros s; apply build_orders_In|].
  split; [exact Hlen|].
  split; [apply sorted_Z_sorted|].
  split; [apply sort_perm|].
  assert (Hfit' : List.length (Py.sorted_Z order_idxs) <= MAX_VALID_LEN).
  { unfold Py.sorted_Z; rewrite sort_length, Hlen; exact Hfit. }
  unfold get_valid_orders_impl, Py.mem.
  rewrite Hget; cbn [negb].
  fold stripped; unfold Py.lookup at 1; rewrite Hget; cbn [bind].
  rewrite Hsort; cbn [bind]; rewrite Hcands; cbn [bind].
  unfold Py.lookup at 1; rewrite Hb; cbn [bind].
  destruct (0 <? n_builds)%Z eqn:E; [|apply Z.ltb_ge in E; lia].
  fold n; rewrite Hids; cbn [bind].
  rewrite (assign_rows_first _ _ Hfit'); cbn [bind].
  unfold mark_locs; rewrite Hjs; cbn [bind].
  unfold Py.sorted_Z at 2; rewrite sort_length, Hlen.
  reflexivity.
Qed.

End CandidateSets.

Lemma absent_power_candidates_witness :
  get_valid_orders_impl Ex.LOCS Ex.VOCAB Ex.EOS "ITALY"
    Ex.build_possible_orders Ex.build_orderable [("FRANCE", 1%Z)]
  = Ok ([repeat (repeat Ex.EOS MAX_VALID_LEN) MAX_SEQ_LEN],
        [repeat (-1)%Z (List.length Ex.LOCS)], 0%Z).
Proof. apply absent_power_candidates; reflexivity. Defined.

Lemma build_turn_candidates_witness :
  exists order_idxs loc_idxs,
    mapM (ORDER_VOCABULARY_TO_IDX Ex.VOCAB) ["A MAR B"; "A PAR B"]
    = Ok order_idxs
    /\ List.length order_idxs = 2
    /\ get_valid_orders_impl Ex.LOCS Ex.VOCAB Ex.EOS "FRANCE"
         Ex.build_possible_orders Ex.build_orderable [("FRANCE", 1%Z)]
       = Ok ([(Py.sorted_Z order_idxs ++ repeat Ex.EOS (MAX_VALID_LEN - 2))
              :: repeat (repeat Ex.EOS MAX_VALID_LEN) (MAX_SEQ_LEN - 1)],
             [loc_idxs], 1%Z).
Proof.
  destruct (build_turn_candidates Ex.LOCS Ex.VOCAB Ex.EOS "FRANCE"
              Ex.build_possible_orders Ex.build_orderable [("FRANCE", 1%Z)]
              ["PAR"; "MAR"] ["MAR"; "PAR"] [["A MAR B"]; ["A PAR B"]]
              1%Z 1)
    as (order_idxs & loc_idxs & H1 & _ & H2 & _ & _ & H3).
  - reflexivity.
  - reflexivity.
  - reflexivity.
  - repeat constructor.
  - repeat constructor; simpl; tauto.
  - reflexivity.
  - lia.
  - repeat constructor; eexists; reflexivity.
  - apply Nat.leb_le; vm_compute; reflexivity.
  - exists order_idxs, loc_idxs; repeat split; assumption.
Defined.

(** C1 as stated fails where the turn is outside the amended conditions:
    470 candidates of one location do not fit the 469 places of a step, a
    combination that the vocabulary lacks has no id, and a location whose
    only candidate is the waive has no first candidate to sort by.  The
    call raises in each case. *)
Lemma build_turn_candidates_counterexample :
  (List.length (strip_waive Ex.wide_candidates) = 470
   /\ Forall (fun s => is_ok (ORDER_VOCABULARY_TO_IDX Ex.wide_candidates s)
                       = true)
             (build_orders [strip_waive Ex.wide_candidates] 1)
   /\ get_valid_orders_impl Ex.LOCS Ex.wide_candidates Ex.EOS "FRANCE"
        [("PAR", Ex.wide_candidates)] [("FRANCE", ["PAR"])]
        [("FRANCE", 1%Z)]
      = Raise RuntimeError)
  /\ get_valid_orders_impl Ex.LOCS Ex.VOCAB Ex.EOS "FRANCE"
       [("PAR", ["A PAR B"; "WAIVE"]); ("MAR", ["A MAR B"; "WAIVE"]);
        ("BUR", ["A BUR B"; "WAIVE"])]
       [("FRANCE", ["PAR"; "MAR"; "BUR"])] [("FRANCE", 1%Z)]
     = Raise KeyError
  /\ get_valid_orders_impl Ex.LOCS Ex.VOCAB Ex.EOS "FRANCE"
       [("PAR", ["WAIVE"])] [("FRANCE", ["PAR"])] [("FRANCE", 1%Z)]
     = Raise IndexError.
Proof.
  split; [split; [|split]|split].
  - vm_compute; reflexivity.
  - apply Forall_forall.
    apply (forallb_forall
             (fun s => is_ok (ORDER_VOCABULARY_TO_IDX Ex.wide_candidates s))).
    vm_compute; reflexivity.
  - vm_compute; reflexivity.
  - vm_compute; reflexivity.
  - vm_compute; reflexivity.
Qed.

(** ** C4: the labels of a list of orders *)

Lemma set_nth_length {A : Type} (l : list A) (i : nat) (v : A) :
  List.length (set_nth l i v) = List.length l.
Proof.
  revert i; induction l as [|x xs IH]; intros [|i]; simpl; auto.
Qed.

Lemma set_nth_same {A : Type} (l : list A) (i : nat) (v : A) :
  i < List.length l -> nth_error (set_nth l i v) i = Some v.
Proof.
  revert i; induction l as [|x xs IH]; intros [|i]; simpl; intros H;
    try lia; [reflexivity | apply IH; lia].
Qed.

Lemma set_nth_other {A : Type} (l : list A) (i j : nat) (v : A) :
  i <> j -> nth_error (set_nth l i v) j = nth_error l j.
Proof.
  revert i j; induction l as [|x xs IH]; intros [|i] [|j]; simpl; intros H;
    try reflexivity; [lia | apply IH; lia].
Qed.

Section Locate.

Variable x_possible_actions : list (list Z).

Local Abbreviation pos := (candidate_pos x_possible_actions).
Local Abbreviation locate := (locate_orders x_possible_actions).

Lemma locate_orders_found (order_idxs : list Z) :
  forall (i : nat) (y : list Z),
    i + List.length order_idxs <= List.length y ->
    (forall j idx, nth_error order_idxs j = Some idx ->
                   exists c, pos (i + j) idx = Some c) ->
    exists labels,
      locate i order_idxs y = (labels, true)
      /\ List.length labels = List.length y
      /\ (forall j idx, nth_error order_idxs j = Some idx ->
            exists c, pos (i + j) idx = Some c
                      /\ nth_error labels (i + j) = Some (Z.of_nat c))
      /\ (forall p, p < i \/ i + List.length order_idxs <= p ->
            nth_error labels p = nth_error y p).
Proof.
  induction order_idxs as [|idx rest IH]; intros i y Hlen Hall.
  - exists y; simpl; repeat split; auto.
    intros j idx Hj; destruct j; discriminate.
  - simpl in Hlen.
    destruct (Hall 0 idx eq_refl) as [c Hc].
    rewrite Nat.add_0_r in Hc.
    destruct (IH (S i) (set_nth y i (Z.of_nat c))) as (labels & H1 & H2 & H3 & H4).
    + rewrite set_nth_length; lia.
    + intros j idx' Hj; specialize (Hall (S j) idx' Hj).
      replace (S i + j) with (i + S j) by lia; exact Hall.
    + exists labels; simpl.
      unfold candidate_pos in Hc.
      destruct (nth_error x_possible_actions i) as [row|] eqn:Er;
        [|discriminate].
      rewrite Hc.
      destruct (i <? List.length y) eqn:E; [|apply Nat.ltb_ge in E; lia].
      split; [exact H1|].
      split; [rewrite H2; apply set_nth_length|].
      split.
      * intros [|j] idx' Hj; simpl in Hj.
        -- inversion Hj; subst idx'; exists c; rewrite Nat.add_0_r.
           split.
           ++ unfold candidate_pos; rewrite Er; exact Hc.
           ++ rewrite H4 by lia; apply set_nth_same; lia.
        -- destruct (H3 j idx' Hj) as (c' & Hc' & Hl).
           replace (i + S j) with (S i + j) by lia; eauto.
      * intros p Hp; rewrite H4 by (simpl in Hp; lia).
        apply set_nth_other; simpl in Hp; lia.
Qed.

Lemma locate_orders_missing (order_idxs : list Z) :
  forall (i : nat) (y : list Z),
    (exists j idx, nth_error order_idxs j = Some idx
                   /\ pos (i + j) idx = None) ->
    snd (locate i order_idxs y) = false.
Proof.
  induction order_idxs as [|idx rest IH]; intros i y (j & idx' & Hj & Hp).
  - destruct j; discriminate.
  - simpl; unfold candidate_pos in Hp.
    destruct (nth_error x_possible_actions i) as [row|] eqn:Er;
      [|reflexivity].
    destruct (find_pos row idx) as [c|] eqn:Ec; [|reflexivity].
    destruct (i <? List.length y); [|reflexivity].
    destruct j as [|j]; simpl in Hj.
    + inversion Hj; subst idx'; rewrite Nat.add_0_r, Er in Hp; congruence.
    + apply IH; exists j, idx'; split; [exact Hj|].
      unfold candidate_pos; replace (S i + j) with (i + S j) by lia.
      exact Hp.
Qed.

End Locate.

Lemma Sorted_map_rel {A B : Type} (R : A -> A -> Prop) (R' : B -> B -> Prop)
  (P : A -> Prop) (f : A -> B) (l : list A) :
  (forall a b, P a -> P b -> R a b -> R' (f a) (f b)) ->
  Forall P l -> Sorted R l -> Sorted R' (map f l).
Proof.
  intros HR HP HS; induction HS as [|a l HS IH Hhd]; simpl; [constructor|].
  inversion HP; subst.
  constructor; [apply IH; assumption|].
  destruct Hhd as [|b l' Hab]; simpl; constructor.
  inversion H2; subst; apply HR; assumption.
Qed.

Section OrderLabels.

Variable LOCS : list string.
Variable ORDER_VOCABULARY : list string.
Variable EOS_IDX : Z.

Local Abbreviation encode := (encode_power_actions LOCS ORDER_VOCABULARY EOS_IDX).
Local Abbreviation smarter := (smarter_order_index ORDER_VOCABULARY).
Local Abbreviation rank := (loc_rank LOCS ORDER_VOCABULARY).

Lemma resolve_orders_all (orders : list string) (order_idxs : list Z) :
  mapM smarter orders = Ok order_idxs ->
  resolve_orders ORDER_VOCABULARY orders = Ok order_idxs.
Proof.
  revert order_idxs; induction orders as [|o os IH]; simpl; intros ids H.
  - exact H.
  - destruct (smarter o) as [i|e]; simpl in H; [|discriminate].
    destruct (mapM smarter os) as [r|e]; simpl in H; [|discriminate].
    rewrite (IH r eq_refl); exact H.
Qed.

Lemma sort_by_loc_keyed (order_idxs : list Z) (keyed : list (nat * Z)) :
  mapM (fun idx => k <- loc_key LOCS ORDER_VOCABULARY idx ;; Ok (k, idx))
       order_idxs = Ok keyed ->
  map snd keyed = order_idxs
  /\ Forall (fun p => fst p = rank (snd p)) keyed.
Proof.
  revert keyed; induction order_idxs as [|i is_ IH]; simpl; intros keyed H.
  - inversion H; split; [reflexivity | constructor].
  - destruct (loc_key LOCS ORDER_VOCABULARY i) as [k|e] eqn:Ek; simpl in H;
      [|discriminate].
    destruct (mapM _ is_) as [r|e]; simpl in H; [|discriminate].
    inversion H; subst; destruct (IH r eq_refl) as [H1 H2].
    split; [simpl; f_equal; exact H1|].
    constructor; [|exact H2].
    unfold loc_rank; simpl; rewrite Ek; reflexivity.
Qed.

(** The ids leave the sort rearranged, in the order of their locations in
    [LOCS]. *)
Lemma sort_by_loc_sorted (order_idxs sorted : list Z) :
  sort_by_loc LOCS ORDER_VOCABULARY order_idxs = Ok sorted ->
  Permutation sorted order_idxs
  /\ Sorted (fun a b => rank a <= rank b) sorted.
Proof.
  unfold sort_by_loc; intros H.
  apply bind_ok_inv in H; destruct H as (keyed & Hk & H).
  inversion H; subst; clear H.
  destruct (sort_by_loc_keyed _ _ Hk) as [Hsnd Hrank].
  split.
  - rewrite <- Hsnd; apply sorted_by_key_perm.
  - unfold Py.sorted_by_key.
    eapply Sorted_map_rel with
      (R := fun a b : nat * Z => fst a <= fst b)
      (P := fun p => fst p = rank (snd p)).
    + intros a b Ha Hb Hab; rewrite <- Ha, <- Hb; exact Hab.
    + eapply Permutation_Forall; [|exact Hrank].
      apply Permutation_sym, sort_perm.
    + apply sort_sorted.
      * intros a b Hab; apply Nat.leb_le; exact Hab.
      * intros a b Hab; apply Nat.leb_gt in Hab; lia.
Qed.

(** C4, amended.  For a list without build orders in which every order has
    three fields and resolves to an id, and whose ids sort by location to
    [sorted]: when the i-th id of [sorted] occurs in the candidate list of
    step i for every i, the result is valid and label i is the position of
    that id in the list of step i, the labels past the orders being the
    sentinel; when some id of [sorted] is absent from the list of its
    step, the result is invalid. *)
Theorem order_labels (orders : list string)
  (x_possible_actions : list (list Z)) (order_idxs sorted : list Z) :
  Forall (fun o => ~ short_order o) orders ->
  Forall (fun o => ~ build_order o) orders ->
  mapM smarter orders = Ok order_idxs ->
  sort_by_loc LOCS ORDER_VOCABULARY order_idxs = Ok sorted ->
  List.length x_possible_actions = MAX_SEQ_LEN ->
  Permutation sorted order_idxs
  /\ Sorted (fun a b => rank a <= rank b) sorted
  /\ ((forall i idx, nth_error sorted i = Some idx ->
         exists c, candidate_pos x_possible_actions i idx = Some c) ->
      exists labels,
        encode orders x_possible_actions = Ok (labels, true)
        /\ List.length labels = MAX_SEQ_LEN
        /\ (forall i idx, nth_error sorted i = Some idx ->
              exists c, candidate_pos x_possible_actions i idx = Some c
                        /\ nth_error labels i = Some (Z.of_nat c))
        /\ (forall i, List.length sorted <= i < MAX_SEQ_LEN ->
              nth_error labels i = Some EOS_IDX))
  /\ ((exists i idx, nth_error sorted i = Some idx
                     /\ candidate_pos x_possible_actions i idx = None) ->
      exists labels, encode orders x_possible_actions = Ok (labels, false)).
Proof.
  intros Hlen Hnb Hres Hsort Hx.
  destruct (sort_by_loc_sorted _ _ Hsort) as [Hperm Hsorted].
  assert (Henc : encode orders x_possible_actions
                 = Ok (locate_orders x_possible_actions 0 sorted
                         (repeat EOS_IDX MAX_SEQ_LEN))).
  { unfold encode_power_actions.
    rewrite (existsb_short_false _ Hlen).
    rewrite (existsb_is_build_false _ Hlen Hnb).
    rewrite (resolve_orders_all _ _ Hres); cbn [bind].
    rewrite Hsort; reflexivity. }
  split; [exact Hperm|]; split; [exact Hsorted|]; split.
  - intros Hall.
    assert (Hfit : List.length sorted <= MAX_SEQ_LEN).
    { destruct sorted as [|s0 ss] eqn:Es; [simpl; lia|]; rewrite <- Es in *.
      assert (Hlast : exists idx,
                 nth_error sorted (List.length sorted - 1) = Some idx).
      { destruct (nth_error sorted (List.length sorted - 1)) eqn:E; [eauto|].
        apply nth_error_None in E; rewrite Es in E; simpl in E; lia. }
      destruct Hlast as [idx Hidx].
      destruct (Hall _ _ Hidx) as [c Hc]; unfold candidate_pos in Hc.
      destruct (nth_error x_possible_actions (List.length sorted - 1)) eqn:E;
        [|discriminate].
      assert (List.length sorted - 1 < List.length x_possible_actions)
        by (apply nth_error_Some; congruence).
      lia. }
    destruct (locate_orders_found x_possible_actions sorted 0
                (repeat EOS_IDX MAX_SEQ_LEN))
      as (labels & H1 & H2 & H3 & H4).
    + rewrite repeat_length; simpl; exact Hfit.
    + exact Hall.
    + exists labels; rewrite Henc, H1.
      split; [reflexivity|].
      split; [rewrite H2; apply repeat_length|].
      split; [exact H3|].
      intros i Hi; rewrite H4 by (simpl; lia).
      apply nth_error_repeat; lia.
  - intros Hmiss.
    pose proof (locate_orders_missing x_possible_actions sorted 0
                  (repeat EOS_IDX MAX_SEQ_LEN) Hmiss) as Hf.
    destruct (locate_orders x_possible_actions 0 sorted
                (repeat EOS_IDX MAX_SEQ_LEN)) as [labels b] eqn:E.
    simpl in Hf; subst b; exists labels; exact Henc.
Qed.

(** An all-build list is encoded through the id of its sorted,
    semicolon-joined serialization, looked up without the fallback. *)
Lemma build_orders_label (orders : list string)
  (x_possible_actions : list (list Z)) (order_idx : Z) :
  orders <> [] ->
  Forall (fun o => ~ short_order o) orders ->
  Forall build_order orders ->
  ORDER_VOCABULARY_TO_IDX ORDER_VOCABULARY (Py.join ";" (Py.sorted_str orders))
  = Ok order_idx ->
  encode orders x_possible_actions
  = (order_idxs <- sort_by_loc LOCS ORDER_VOCABULARY [order_idx] ;;
     Ok (locate_orders x_possible_actions 0 order_idxs
           (repeat EOS_IDX MAX_SEQ_LEN))).
Proof.
  intros Hne Hlen Hb Hid; unfold encode_power_actions.
  rewrite (existsb_short_false _ Hlen).
  assert (Hall : forallb is_build orders = true).
  { apply forallb_forall; intros o Ho; rewrite Forall_forall in Hlen, Hb.
    apply is_build_iff; auto. }
  assert (Hex : existsb is_build orders = true).
  { destruct orders as [|o os]; [congruence|].
    simpl in Hall |- *; apply andb_prop in Hall; destruct Hall as [-> _].
    reflexivity. }
  rewrite Hex, Hall, Hid; reflexivity.
Qed.

End OrderLabels.

Lemma order_labels_witness :
  exists labels,
    encode_power_actions Ex.LOCS Ex.VOCAB Ex.EOS ["A PAR H"; "A MAR - BUR"]
      Ex.move_candidates = Ok (labels, true)
    /\ nth_error labels 0 = Some 1%Z
    /\ nth_error labels 1 = Some 0%Z
    /\ nth_error labels 2 = Some Ex.EOS.
Proof.
  destruct (order_labels Ex.LOCS Ex.VOCAB Ex.EOS ["A PAR H"; "A MAR - BUR"]
              Ex.move_candidates [0; 1]%Z [1; 0]%Z)
    as (_ & _ & H & _).
  - repeat constructor; unfold short_order; simpl; lia.
  - repeat constructor; unfold build_order; simpl; discriminate.
  - reflexivity.
  - reflexivity.
  - reflexivity.
  - destruct H as (labels & H1 & _ & H3 & H4).
    + intros [|[|i]] idx Hi; simpl in Hi; inversion Hi; subst.
      * exists 1; reflexivity.
      * exists 0; reflexivity.
      * destruct i; discriminate.
    + exists labels; split; [exact H1|].
      destruct (H3 0 1%Z eq_refl) as (c0 & Hc0 & Hl0).
      destruct (H3 1 0%Z eq_refl) as (c1 & Hc1 & Hl1).
      vm_compute in Hc0, Hc1; inversion Hc0; inversion Hc1; subst.
      split; [exact Hl0|]; split; [exact Hl1|].
      apply H4; split; [simpl; lia | apply Nat.ltb_lt; vm_compute; reflexivity].
Defined.

(** C4 as stated fails on lists with build orders.  Two build orders whose
    own ids stand in the candidate lists of their steps are encoded through
    the id of the joint serialization, which step 0 does not hold: the
    result is invalid.  A list that mixes a build with another order, each
    id in the list of its step, raises the assertion instead of returning
    a result. *)
Lemma order_labels_counterexample :
  (Forall (fun o => ~ short_order o) ["A PAR B"; "A MAR B"]
   /\ mapM (smarter_order_index Ex.VOCAB) ["A PAR B"; "A MAR B"]
      = Ok [4; 3]%Z
   /\ sort_by_loc Ex.LOCS Ex.VOCAB [4; 3]%Z = Ok [3; 4]%Z
   /\ candidate_pos Ex.single_candidates 0 3%Z = Some 0
   /\ candidate_pos Ex.single_candidates 1 4%Z = Some 0
   /\ encode_power_actions Ex.LOCS Ex.VOCAB Ex.EOS ["A PAR B"; "A MAR B"]
        Ex.single_candidates
      = Ok (repeat Ex.EOS MAX_SEQ_LEN, false))
  /\ (Forall (fun o => ~ short_order o) ["A PAR H"; "A MAR B"]
      /\ mapM (smarter_order_index Ex.VOCAB) ["A PAR H"; "A MAR B"]
         = Ok [0; 3]%Z
      /\ sort_by_loc Ex.LOCS Ex.VOCAB [0; 3]%Z = Ok [3; 0]%Z
      /\ candidate_pos Ex.mixed_candidates 0 3%Z = Some 0
      /\ candidate_pos Ex.mixed_candidates 1 0%Z = Some 0
      /\ encode_power_actions Ex.LOCS Ex.VOCAB Ex.EOS ["A PAR H"; "A MAR B"]
           Ex.mixed_candidates
         = Raise AssertionError).
Proof.
  split.
  - split; [repeat constructor; unfold short_order; simpl; lia|].
    repeat split; vm_compute; reflexivity.
  - split; [repeat constructor; unfold short_order; simpl; lia|].
    repeat split; vm_compute; reflexivity.
Qed.

(** ** The table of the years *)

Lemma year_set_spec (d : list (Z * string)) (k : Z) (v : string) :
  NoDup (map fst d) ->
  NoDup (map fst (year_set d k v))
  /\ forall k' v',
       In (k', v') (year_set d k v)
       <-> (k' = k /\ v' = v) \/ (k' <> k /\ In (k', v') d).
Proof.
  induction d as [|[k0 v0] d IH]; simpl; intros Hnd.
  - split; [repeat constructor; intros []|].
    intros k' v'; split.
    + intros [H|[]]; inversion H; auto.
    + intros [[-> ->]|[_ []]]; auto.
  - inversion Hnd as [|? ? Hnot Hnd']; subst.
    destruct (IH Hnd') as [IH1 IH2].
    destruct (Z.eqb_spec k0 k) as [->|Hne]; simpl.
    + split; [constructor; assumption|].
      intros k' v'; split.
      * intros [H|H]; [inversion H; auto|].
        right; split; [|auto].
        intros ->; apply Hnot; apply (in_map fst) in H; exact H.
      * intros [[-> ->]|[Hk [H|H]]]; auto.
        inversion H; subst; contradiction.
    + split.
      * constructor; [|exact IH1].
        intros Hin; apply in_map_iff in Hin.
        destruct Hin as ([k1 v1] & Hk1 & Hin); simpl in Hk1; subst k1.
        apply IH2 in Hin; destruct Hin as [[-> _]|[_ Hin]];
          [apply Hne; reflexivity|].
        apply Hnot; apply (in_map fst) in Hin; exact Hin.
      * intros k' v'; rewrite IH2; split.
        -- intros [H|[H|[Hk H]]]; auto.
           inversion H; subst; auto.
        -- intros [H|[Hk [H|H]]]; auto.
Qed.

Section YearTable.

Variable State : Type.

Local Abbreviation later_year k :=
  (fun q : Phase State => year_of (name q) <> Ok k).

Lemma year_table_spec (phases : list (Phase State)) :
  forall d d',
    NoDup (map fst d) ->
    year_table d phases = Ok d' ->
    forall k v,
      In (k, v) d'
      <-> (exists l1 ph l2,
              phases = l1 ++ ph :: l2 /\ name ph = v /\ year_of v = Ok k
              /\ Forall (later_year k) l2)
          \/ (In (k, v) d /\ Forall (later_year k) phases).
Proof.
  induction phases as [|phase rest IH]; simpl; intros d d' Hnd H k v.
  - inversion H; subst; split.
    + intros Hin; right; split; [exact Hin | constructor].
    + intros [(l1 & ph & l2 & Habs & _)|[Hin _]]; [|exact Hin].
      destruct l1; discriminate.
  - apply bind_ok_inv in H; destruct H as (y & Hy & H).
    destruct (year_set_spec d y (name phase) Hnd) as [Hnd' Hset].
    rewrite (IH _ _ Hnd' H k v), Hset; split.
    + intros [(l1 & ph & l2 & -> & Hn & Hk & Hl)|[[[-> ->]|[Hk Hin]] Hl]].
      * left; exists (phase :: l1), ph, l2; auto.
      * left; exists [], phase, rest; auto.
      * right; split; [exact Hin|]; constructor; [|exact Hl].
        unfold year_of; rewrite Hy; intros E; inversion E; subst.
        apply Hk; reflexivity.
    + intros [(l1 & ph & l2 & Heq & Hn & Hk & Hl)|[Hin Hl]].
      * destruct l1 as [|p1 l1]; simpl in Heq; inversion Heq; subst.
        -- right; split; [|exact Hl]; left.
           unfold year_of in Hk; rewrite Hy in Hk; inversion Hk; auto.
        -- left; exists l1, ph, l2; auto.
      * inversion Hl as [|? ? Hp Hrest]; subst.
        right; split; [|exact Hrest]; right; split; [|exact Hin].
        intros ->; apply Hp; exact Hy.
Qed.

End YearTable.

(** ** C2: the weights of the score target *)




(** The j-th weight is [(1 - alpha) * alpha^j]. *)
Lemma decay_weights_nth (alpha : Q) (n : nat) :
  forall j0 j,
    j < n ->
    nth j (decay_weights alpha j0 n) 0%Q
    = ((1 - alpha) * qpow alpha (j0 + j))%Q.
Proof.
  induction n as [|n IH]; intros j0 [|j] Hj; simpl; try lia.
  - rewrite Nat.add_0_r; reflexivity.
  - rewrite IH by lia; replace (j0 + S j) with (S j0 + j) by lia.
    reflexivity.
Qed.


Lemma nth_row_sum (y t : list Q) (p : nat) :
  List.length t = List.length y -> p < List.length y ->
  nth p (map (fun yt => fst yt + snd yt)%Q (combine y t)) 0%Q
  = (nth p y 0 + nth p t 0)%Q.
Proof.
  revert t p; induction y as [|a y IH]; intros [|b t] [|p]; simpl;
    intros Hl Hp; try lia; [reflexivity | apply IH; lia].
Qed.

Lemma nth_scaled (w : Q) (l : list Q) (p : nat) :
  p < List.length l -> nth p (map (Qmult w) l) 0%Q = (w * nth p l 0)%Q.
Proof.
  revert p; induction l as [|a l IH]; intros [|p]; simpl; intros Hp;
    try lia; [reflexivity | apply IH; lia].
Qed.

Lemma row_add_rows (y t : list Q) :
  List.length t = List.length y ->
  row_add y t = Ok (map (fun yt => fst yt + snd yt)%Q (combine y t)).
Proof.
  intros H; unfold row_add; rewrite H, Nat.eqb_refl; reflexivity.
Qed.

Section ScoreTarget.

Variable State : Type.
Variable square_score : nat -> State -> Q.

Local Abbreviation sq_scores := (sq_scores_of square_score 7).
Local Abbreviation encode_scores :=
  (encode_weighted_sos_scores square_score 7).

Lemma sq_scores_length (phase : Phase State) :
  List.length (sq_scores phase) = 7.
Proof. reflexivity. Qed.

Lemma nth_sq_scores (phase : Phase State) (p : nat) :
  p < 7 -> nth p (sq_scores phase) 0%Q = square_score p (state phase).
Proof.
  intros Hp; unfold sq_scores_of.
  do 7 (destruct p as [|p]; [reflexivity|]); lia.
Qed.

(** The second loop: what it adds to the scores and takes from the
    remaining mass. *)
Lemma accumulate_sum (alpha : Q) (ends : list string)
  (phases : list (Phase State)) :
  forall (y : list Q) (rem w : Q),
    List.length y = 7 ->
    exists a,
      accumulate square_score 7 alpha ends phases (mkAcc y rem w) = Ok a
      /\ List.length (scores a) = 7
      /\ (forall p, p < 7 ->
            (nth p (scores a) 0
             == nth p y 0
                + running_sum w alpha
                    (map (fun ph => square_score p (state ph))
                         (filter (is_year_end ends) phases)))%Q)
      /\ (remaining a
          == rem - running_sum w alpha
                     (repeat 1%Q
                        (List.length (filter (is_year_end ends) phases))))%Q.
Proof.
  induction phases as [|phase rest IH]; intros y rem w Hy.
  - exists (mkAcc y rem w); simpl; repeat split; auto; intros; ring.
  - cbn [accumulate filter]; destruct (is_year_end ends phase) eqn:E;
      cbn [negb scores weight remaining].
    + rewrite row_add_rows
        by (rewrite length_map, sq_scores_length; symmetry; exact Hy).
      cbn [bind].
      destruct (IH (map (fun yt => fst yt + snd yt)%Q
                      (combine y (map (Qmult w) (sq_scores phase))))
                   (rem - w)%Q (w * alpha)%Q)
        as (a & Ha & Hl & Hs & Hr).
      * rewrite length_map, length_combine, length_map, sq_scores_length, Hy.
        reflexivity.
      * exists a; split; [exact Ha|]; split; [exact Hl|]; split.
        -- intros p Hp; rewrite (Hs p Hp); cbn [map running_sum].
           rewrite nth_row_sum
             by (rewrite ?length_map, ?sq_scores_length; lia).
           rewrite nth_scaled by (rewrite sq_scores_length; exact Hp).
           rewrite nth_sq_scores by exact Hp; ring.
        -- rewrite Hr; cbn [List.length repeat running_sum]; ring.
    + destruct (IH y rem w Hy) as (a & Ha & Hl & Hs & Hr).
      exists a; repeat split; assumption.
Qed.

Lemma year_table_total (phases : list (Phase State)) :
  Forall (fun ph => exists y, Py.int (Py.slice_1_m1 (name ph)) = Ok y)
         phases ->
  forall d, exists d', year_table d phases = Ok d'.
Proof.
  induction 1 as [|ph rest [y Hy] _ IH]; intros d; simpl; [eauto|].
  rewrite Hy; simpl; apply IH.
Qed.








End ScoreTarget.



(** The score target of the first turn of the example game: the year ends
    of 1901, 1902 and 1903 weigh 1/2, 1/4 and 1/8, the final scores 1/8. *)
Example score_target_example :
  exists r,
    encode_weighted_sos_scores Ex.square_score 7 Ex.game 0 (1 # 2) = Ok r
    /\ Forall2 Qeq r [35 # 8; 0; 0; 0; 0; 0; 1 # 8]%Q.
Proof.
  eexists; split; [vm_compute; reflexivity|].
  repeat constructor; vm_compute; reflexivity.
Qed.

(** ** C5: merging datasets *)

Section Merge.

Variable Fields : Type.

Local Abbreviation DS := (Dataset Fields).

Lemma check_mergeable_raises (datasets : list DS) :
  Exists (fun d => ~ mergeable d) datasets ->
  check_mergeable datasets = Raise NotImplementedError.
Proof.
  induction datasets as [|d rest IH]; intros H; [inversion H|].
  simpl; destruct (n_cf_agent_samples d =? 1)%Z eqn:En; [|reflexivity].
  destruct (_preprocessed d) eqn:Ep; [|reflexivity].
  simpl; apply IH; inversion H; subst; [|assumption].
  exfalso; apply H1; split; [apply Z.eqb_eq; exact En | exact Ep].
Qed.

Lemma check_mergeable_ok (datasets : list DS) :
  Forall mergeable datasets -> check_mergeable datasets = Ok tt.
Proof.
  induction 1 as [|d rest [Hn Hp] _ IH]; simpl; [reflexivity|].
  rewrite Hn, Hp; simpl; exact IH.
Qed.

Lemma mapM_combine_total {A B C : Type} (f : A * B -> result C)
  (l : list A) (l' : list B) :
  Forall (fun a => forall b, exists c, f (a, b) = Ok c) l ->
  exists r, mapM f (combine l l') = Ok r
            /\ List.length r = List.length (combine l l').
Proof.
  intros H; revert l'; induction H as [|a l Ha _ IH]; intros [|b l']; simpl;
    eauto.
  destruct (Ha b) as [c Hc]; destruct (IH l') as (r & Hr & Hl).
  rewrite Hc, Hr; simpl; eexists; split; [reflexivity | simpl; congruence].
Qed.

Lemma offsets_length (start : Z) (xs : list Z) :
  List.length (offsets start xs) = List.length xs.
Proof.
  revert start; induction xs as [|x xs IH]; intros start; simpl; auto.
Qed.

Lemma tensor_cat_nonempty (ts : list (list Z)) :
  ts <> [] -> tensor_cat ts = Ok (List.concat ts).
Proof. destruct ts; [congruence | reflexivity]. Qed.

Lemma fold_left_add_nonneg (l : list Z) (a : Z) :
  Forall (fun z => 0 <= z)%Z l -> (0 <= a)%Z -> (0 <= fold_left Z.add l a)%Z.
Proof.
  intros H; revert a; induction H as [|z l Hz _ IH]; simpl; intros a Ha;
    [exact Ha | apply IH; lia].
Qed.

Lemma populated_len (d : DS) :
  mergeable d -> populated d ->
  (0 <= elements d)%Z
  /\ the (num_elements d) = Ok (elements d)
  /\ Dataset_len d = Ok (elements d).
Proof.
  intros [Hn _] (gs & phs & pws & xs & enc & ng & np & H); unfold elements.
  destruct H as (_ & _ & _ & _ & _ & _ & _ & He & _).
  unfold Dataset_len, Dataset_len_; rewrite He, Hn; simpl.
  rewrite Z.mul_1_r.
  destruct (Z.of_nat (List.length xs) <? 0)%Z eqn:E;
    [apply Z.ltb_lt in E; lia|].
  repeat split; lia.
Qed.

(** C5.  [from_merge] raises [NotImplementedError] when some input has
    [n_cf_agent_samples] other than 1 or is not pre-processed; on inputs
    that are all single-sample and pre-processed (datasets as the class
    builds them, at least one of them) it returns a dataset whose length
    is the sum of the lengths of the inputs. *)
Theorem from_merge_length (datasets : list DS) :
  (Exists (fun d => n_cf_agent_samples d <> 1%Z \/ _preprocessed d = false)
          datasets ->
   from_merge datasets = Raise NotImplementedError)
  /\ (datasets <> [] ->
      Forall well_formed datasets ->
      Forall (fun d => n_cf_agent_samples d = 1%Z /\ _preprocessed d = true)
             datasets ->
      exists merged lens,
        from_merge datasets = Ok merged
        /\ mapM Dataset_len datasets = Ok lens
        /\ Dataset_len merged = Ok (fold_left Z.add lens 0%Z)
        /\ n_cf_agent_samples merged = 1%Z
        /\ _preprocessed merged = true).
Proof.
  split.
  - intros H; unfold from_merge; rewrite check_mergeable_raises; [reflexivity|].
    eapply Exists_impl; [|exact H]; intros d [Hd|Hd] [Hn Hp]; congruence.
  - intros Hne Hwf Hm.
    assert (Hpop : Forall (fun d => mergeable d /\ populated d) datasets).
    { rewrite Forall_forall in *; intros d Hd; split; [apply Hm; exact Hd|].
      apply Hwf; [exact Hd | apply Hm; exact Hd]. }
    assert (Hfield : forall (A : Type) (f : DS -> option A),
               (forall d, populated d -> exists a, f d = Some a) ->
               exists r, mapM (fun d => the (f d)) datasets = Ok r
                         /\ List.length r = List.length datasets).
    { intros A f Hf.
      destruct (mapM_total (fun d => the (f d)) datasets) as [r Hr].
      - eapply Forall_impl; [|exact Hpop]; intros d [_ Hd].
        destruct (Hf d Hd) as [a Ha]; rewrite Ha; simpl; eauto.
      - exists r; split; [exact Hr | eapply mapM_length; exact Hr]. }
    assert (Hshift : forall (f : DS -> option (list Z)) (offs : list Z),
               (forall d, populated d -> exists a, f d = Some a) ->
               List.length offs = List.length datasets ->
               exists r,
                 mapM (fun d_off => t <- the (f (fst d_off)) ;;
                                    Ok (map (Z.add (snd d_off)) t))
                      (combine datasets offs) = Ok r
                 /\ r <> []).
    { intros f offs Hf Hlen.
      destruct (mapM_combine_total
                  (fun d_off : DS * Z =>
                     t <- the (f (fst d_off)) ;;
                     Ok (map (Z.add (snd d_off)) t)) datasets offs)
        as (r & Hr & Hl).
      - eapply Forall_impl; [|exact Hpop]; intros d [_ Hd] b.
        destruct (Hf d Hd) as [a Ha]; simpl; rewrite Ha; simpl; eauto.
      - exists r; split; [exact Hr|].
        rewrite length_combine, Hlen, Nat.min_id in Hl.
        destruct r; [|discriminate].
        destruct datasets; [congruence | discriminate]. }
    assert (Hcat : forall r : list (list Z),
               List.length r = List.length datasets -> r <> []).
    { intros r Hl ->; destruct datasets; [congruence | discriminate]. }
    unfold from_merge.
    rewrite (check_mergeable_ok _ Hm); cbn [bind].
    destruct (Hfield Z num_games) as (ngs & -> & Hngs).
    { intros d (gs & phs & pws & xs & enc & ng & np & H); exists ng; tauto. }
    destruct (Hfield Z num_phases) as (nps & -> & Hnps).
    { intros d (gs & phs & pws & xs & enc & ng & np & H); exists np; tauto. }
    cbn [bind].
    destruct (Hshift game_idxs (offsets 0 ngs)) as (gs & -> & Hgs).
    { intros d (gs & phs & pws & xs & enc & ng & np & H); exists gs; tauto. }
    { rewrite offsets_length; exact Hngs. }
    cbn [bind]; rewrite (tensor_cat_nonempty _ Hgs); cbn [bind].
    destruct (Hfield (list Z) phase_idxs) as (phs & -> & Hphs).
    { intros d (gs' & phs & pws & xs & enc & ng & np & H); exists phs; tauto. }
    cbn [bind]; rewrite (tensor_cat_nonempty _ (Hcat _ Hphs)); cbn [bind].
    destruct (Hfield (list Z) power_idxs) as (pws & -> & Hpws).
    { intros d (gs' & phs' & pws & xs & enc & ng & np & H); exists pws; tauto. }
    cbn [bind]; rewrite (tensor_cat_nonempty _ (Hcat _ Hpws)); cbn [bind].
    destruct (Hshift x_idxs (offsets 0 nps)) as (xs & -> & Hxs).
    { intros d (gs' & phs' & pws' & xs & enc & ng & np & H); exists xs; tauto. }
    { rewrite offsets_length; exact Hnps. }
    cbn [bind]; rewrite (tensor_cat_nonempty _ Hxs); cbn [bind].
    destruct (Hfield _ encoded_games) as (encs & -> & Hencs).
    { intros d (gs' & phs' & pws' & xs' & enc & ng & np & H); exists enc; tauto. }
    cbn [bind].
    assert (Hnes : mapM (fun d => the (num_elements d)) datasets
                   = Ok (map elements datasets)).
    { apply mapM_map; eapply Forall_impl; [|exact Hpop]; intros d [H1 H2].
      apply (populated_len d H1 H2). }
    assert (Hlens : mapM Dataset_len datasets = Ok (map elements datasets)).
    { apply mapM_map; eapply Forall_impl; [|exact Hpop]; intros d [H1 H2].
      apply (populated_len d H1 H2). }
    rewrite Hnes; cbn [bind].
    eexists; exists (map elements datasets).
    split; [reflexivity|]; split; [exact Hlens|].
    split; [|split; reflexivity].
    unfold Dataset_len, Dataset_len_; simpl.
    rewrite Z.mul_1_r.
    destruct (fold_left Z.add (map elements datasets) 0 <? 0)%Z eqn:E;
      [|reflexivity].
    apply Z.ltb_lt in E.
    assert (0 <= fold_left Z.add (map elements datasets) 0)%Z; [|lia].
    apply fold_left_add_nonneg; [|lia].
    apply Forall_map; eapply Forall_impl; [|exact Hpop]; intros d [H1 H2].
    apply (populated_len d H1 H2).
Qed.

(** [well_formed] is an invariant of the datasets that the class builds:
    it holds of a new dataset, after [preprocess] (below) and after
    [from_merge]. *)

Lemma Dataset_init_well_formed (ids : list string) (n : Z) :
  well_formed (Dataset_init (Fields := Fields) ids n).
Proof. intros H; discriminate. Qed.

Lemma check_mergeable_inv (datasets : list DS) :
  check_mergeable datasets = Ok tt -> Forall mergeable datasets.
Proof.
  induction datasets as [|d rest IH]; simpl; intros H; [constructor|].
  destruct (n_cf_agent_samples d =? 1)%Z eqn:En; [|discriminate].
  destruct (_preprocessed d) eqn:Ep; [|discriminate].
  constructor; [split; [apply Z.eqb_eq; exact En | exact Ep]|].
  apply IH; exact H.
Qed.

Lemma mapM_Forall2 {A B : Type} (f : A -> result B) (l : list A)
  (r : list B) :
  mapM f l = Ok r -> Forall2 (fun a b => f a = Ok b) l r.
Proof.
  revert r; induction l as [|a l IH]; simpl; intros r H.
  - inversion H; constructor.
  - destruct (f a) as [b|] eqn:Eb; simpl in H; [|discriminate].
    destruct (mapM f l) as [r'|]; simpl in H; [|discriminate].
    inversion H; subst; constructor; [exact Eb | apply IH; reflexivity].
Qed.

Lemma concat_length_rows (ds : list DS) (ts : list (list Z)) :
  Forall2 (fun d t => List.length t = index_rows d) ds ts ->
  List.length (List.concat ts) = list_sum (map index_rows ds).
Proof.
  induction 1 as [|d t ds ts Hd _ IH]; simpl; [reflexivity|].
  rewrite length_app, Hd, IH; reflexivity.
Qed.

Lemma fold_left_add_rows (l : list nat) (a : Z) :
  fold_left Z.add (map Z.of_nat l) a = (a + Z.of_nat (list_sum l))%Z.
Proof.
  revert a; induction l as [|n l IH]; simpl; intros a; [lia|].
  rewrite IH; lia.
Qed.

Lemma shifted_rows (f : DS -> option (list Z)) (ds : list DS) :
  forall (offs : list Z) (ts : list (list Z)),
    List.length offs = List.length ds ->
    mapM (fun d_off => t <- the (f (fst d_off)) ;;
                       Ok (map (Z.add (snd d_off)) t))
         (combine ds offs) = Ok ts ->
    Forall2 (fun d t => exists t0, f d = Some t0
                                   /\ List.length t = List.length t0) ds ts.
Proof.
  induction ds as [|d ds IH]; intros [|o offs] ts Hl H; simpl in *;
    try discriminate.
  - inversion H; constructor.
  - destruct (f d) as [t0|] eqn:Ef; simpl in H; [|discriminate].
    destruct (mapM _ (combine ds offs)) as [r|] eqn:Er; simpl in H;
      [|discriminate].
    inversion H; subst; constructor.
    + exists t0; split; [exact Ef | apply length_map].
    + apply (IH offs); [lia | exact Er].
Qed.

Lemma from_merge_well_formed (datasets : list DS) (merged : DS) :
  Forall well_formed datasets ->
  from_merge datasets = Ok merged ->
  well_formed merged.
Proof.
  intros Hwf H _; unfold from_merge in H.
  apply bind_ok_inv in H; destruct H as ([] & Hchk & H).
  pose proof (check_mergeable_inv _ Hchk) as Hm.
  assert (Hpop : Forall populated datasets).
  { rewrite Forall_forall in *; intros d Hd.
    apply Hwf; [exact Hd | apply (Hm d Hd)]. }
  apply bind_ok_inv in H; destruct H as (ngs & Hngs & H).
  apply bind_ok_inv in H; destruct H as (nps & Hnps & H).
  apply bind_ok_inv in H; destruct H as (gs & Hgs & H).
  apply bind_ok_inv in H; destruct H as (mg & Hmg & H).
  apply bind_ok_inv in H; destruct H as (phs & Hphs & H).
  apply bind_ok_inv in H; destruct H as (mph & Hmph & H).
  apply bind_ok_inv in H; destruct H as (pws & Hpws & H).
  apply bind_ok_inv in H; destruct H as (mpw & Hmpw & H).
  apply bind_ok_inv in H; destruct H as (xs & Hxs & H).
  apply bind_ok_inv in H; destruct H as (mx & Hmx & H).
  apply bind_ok_inv in H; destruct H as (encs & Hencs & H).
  apply bind_ok_inv in H; destruct H as (nes & Hnes & H).
  inversion H; subst merged; clear H.
  assert (Hcat : forall ts m, tensor_cat ts = Ok m -> m = List.concat ts).
  { intros [|t ts] m Hc; inversion Hc; reflexivity. }
  apply Hcat in Hmx, Hmpw; subst mx mpw.
  assert (Hx : Forall2 (fun d t => List.length t = index_rows d) datasets xs).
  { apply shifted_rows in Hxs;
      [|rewrite offsets_length; eapply mapM_length; exact Hnps].
    eapply Forall2_impl; [|exact Hxs].
    intros d t (t0 & Ht0 & Hl); unfold index_rows; rewrite Ht0; exact Hl. }
  assert (Hpw : Forall2 (fun d t => List.length t = index_rows d)
                        datasets pws).
  { apply mapM_Forall2 in Hpws.
    clear - Hpws Hpop; induction Hpws as [|d t ds ts Hd _ IH];
      [constructor|].
    inversion Hpop; subst; constructor; [|apply IH; assumption].
    destruct H1 as (g0 & p0 & w0 & x0 & e0 & n0 & m0 & Hd').
    destruct Hd' as (_ & _ & Hw & Hx0 & _ & _ & _ & _ & Hl).
    unfold index_rows; rewrite Hx0; rewrite Hw in Hd; inversion Hd; subst.
    exact Hl. }
  assert (Hne : nes = map Z.of_nat (map index_rows datasets)).
  { apply mapM_Forall2 in Hnes.
    clear - Hnes Hpop; induction Hnes as [|d n ds ns Hd _ IH];
      [reflexivity|].
    inversion Hpop; subst; simpl; f_equal; [|apply IH; assumption].
    destruct H1 as (g0 & p0 & w0 & x0 & e0 & n0 & m0 & Hd').
    destruct Hd' as (_ & _ & _ & Hx0 & _ & _ & _ & He & _).
    unfold index_rows; rewrite Hx0; rewrite He in Hd; inversion Hd.
    reflexivity. }
  unfold populated; simpl.
  do 7 eexists; repeat split; try reflexivity.
  - rewrite Hne, fold_left_add_rows, (concat_length_rows _ _ Hx).
    reflexivity.
  - rewrite (concat_length_rows _ _ Hx), (concat_length_rows _ _ Hpw).
    reflexivity.
Qed.

End Merge.

(** ** C3: the length of the index and the resolution of an example *)

Section Index.

Variable Fields : Type.
Variable n_powers : nat.

Local Abbreviation DS := (Dataset Fields).

Lemma nonzero_from_length (i : Z) (mask : list bool) :
  List.length (nonzero_from i mask)
  = List.length (filter (fun b : bool => b) mask).
Proof.
  revert i; induction mask as [|b mask IH]; intros i; simpl; [reflexivity|].
  destruct b; simpl; rewrite IH; reflexivity.
Qed.

Lemma index_phases_length (rows : EncodedGame Fields) :
  forall game_idx phase_idx x_idx es,
    index_phases n_powers game_idx phase_idx x_idx rows = Ok es ->
    List.length es
    = List.length (filter (fun b : bool => b)
                          (flat_map valid_power_idxs rows)).
Proof.
  induction rows as [|row rest IH]; simpl; intros g ph x es H.
  - inversion H; reflexivity.
  - destruct (List.length (valid_power_idxs row) =? n_powers);
      [|discriminate].
    apply bind_ok_inv in H; destruct H as (es' & He & H).
    inversion H; subst; clear H.
    rewrite filter_app, !length_app, length_map.
    unfold nonzero; rewrite nonzero_from_length, (IH _ _ _ _ He).
    reflexivity.
Qed.

Lemma index_games_length (games : list (EncodedGame Fields)) :
  forall game_idx x_idx es,
    index_games n_powers game_idx x_idx games = Ok es ->
    List.length es = count_valid games.
Proof.
  unfold count_valid.
  induction games as [|g rest IH]; simpl; intros gi x es H.
  - inversion H; reflexivity.
  - apply bind_ok_inv in H; destruct H as (es1 & H1 & H).
    apply bind_ok_inv in H; destruct H as (es2 & H2 & H).
    inversion H; subst; clear H.
    rewrite flat_map_app, filter_app, !length_app.
    rewrite (index_phases_length _ _ _ _ _ H1), (IH _ _ _ H2).
    reflexivity.
Qed.

(** After [preprocess] the dataset is populated, and its number of
    elements is the number of set validity bits of the games it kept. *)
Lemma preprocess_populated (self : DS)
  (tuples : list (option string * option (EncodedGame Fields))) (d : DS) :
  preprocess n_powers self tuples = Ok d ->
  exists kept,
    encoded_games d = Some (List.concat kept)
    /\ num_elements d = Some (Z.of_nat (count_valid kept))
    /\ n_cf_agent_samples d = n_cf_agent_samples self
    /\ _preprocessed d = true
    /\ populated d.
Proof.
  unfold preprocess; intros H.
  destruct (debug_only_opening_phase _ self); [discriminate|].
  apply bind_ok_inv in H; destruct H as (kept & Hk & H).
  apply bind_ok_inv in H; destruct H as (ids & Hi & H).
  apply bind_ok_inv in H; destruct H as (es & He & H).
  inversion H; subst; clear H; simpl.
  pose proof (index_games_length _ _ _ _ He) as Hlen.
  exists kept; repeat split; try (rewrite Hlen; reflexivity).
  unfold populated; simpl.
  do 7 eexists; repeat split; rewrite ?length_map; reflexivity.
Qed.

Lemma preprocess_well_formed (self : DS)
  (tuples : list (option string * option (EncodedGame Fields))) (d : DS) :
  preprocess n_powers self tuples = Ok d -> well_formed d.
Proof.
  intros H _; destruct (preprocess_populated _ _ _ H) as (k & H'); tauto.
Qed.

(** The length is the number of elements times the number of samples. *)
Lemma preprocess_len (self : DS)
  (tuples : list (option string * option (EncodedGame Fields))) (d : DS) :
  preprocess n_powers self tuples = Ok d ->
  exists kept,
    encoded_games d = Some (List.concat kept)
    /\ Dataset_len_ d
       = Ok (Z.of_nat (count_valid kept) * n_cf_agent_samples self)%Z.
Proof.
  intros H; destruct (preprocess_populated _ _ _ H)
    as (kept & H1 & H2 & H3 & _).
  exists kept; split; [exact H1|].
  unfold Dataset_len_; rewrite H2, H3; reflexivity.
Qed.

Lemma tensor_at_nth (t : list Z) (i : Z) :
  (0 <= i < Z.of_nat (List.length t))%Z ->
  tensor_at t i = Ok (nth (Z.to_nat i) t 0%Z).
Proof.
  intros Hi; unfold tensor_at.
  destruct ((i <? - Z.of_nat (List.length t))
            || (Z.of_nat (List.length t) <=? i))%Z eqn:E.
  - apply orb_true_iff in E; destruct E as [E|E];
      [apply Z.ltb_lt in E | apply Z.leb_le in E]; lia.
  - destruct (i <? 0)%Z eqn:E0; [apply Z.ltb_lt in E0; lia|].
    unfold Py.getitem.
    rewrite (nth_error_nth' t 0%Z) by lia; reflexivity.
Qed.

(** An index inside [0, len) resolves to row [i / n] of the index and to
    sample [i mod n]. *)
Lemma getitem_in_range (d : DS) (xs ps : list Z) (i : Z) :
  _preprocessed d = true ->
  x_idxs d = Some xs -> power_idxs d = Some ps ->
  List.length ps = List.length xs ->
  num_elements d = Some (Z.of_nat (List.length xs)) ->
  (0 < n_cf_agent_samples d)%Z ->
  (0 <= i < Z.of_nat (List.length xs) * n_cf_agent_samples d)%Z ->
  let n := n_cf_agent_samples d in
  Dataset_getitem d i
  = Ok [mkResolved (nth (Z.to_nat (i / n)) xs 0%Z)
                   (nth (Z.to_nat (i / n)) ps 0%Z) (i mod n)%Z].
Proof.
  intros Hp Hx Hpw Hl Hn Hcf Hi n.
  unfold Dataset_getitem, Dataset_getitem_tensor, Dataset_len, Dataset_len_.
  rewrite Hp, Hn, Hx, Hpw; simpl; fold n.
  destruct (Z.of_nat (List.length xs) * n <? 0)%Z eqn:E1;
    [apply Z.ltb_lt in E1; lia|].
  simpl.
  destruct (i <? Z.of_nat (List.length xs) * n)%Z eqn:E2;
    [|apply Z.ltb_ge in E2; lia].
  simpl.
  destruct (n =? 0)%Z eqn:E3; [apply Z.eqb_eq in E3; lia|].
  assert (Hrow : (0 <= i / n < Z.of_nat (List.length xs))%Z).
  { split; [apply Z.div_pos; lia|].
    apply Z.div_lt_upper_bound; lia. }
  rewrite (tensor_at_nth xs) by exact Hrow.
  rewrite (tensor_at_nth ps) by (rewrite Hl; exact Hrow).
  reflexivity.
Qed.

(** An index at or above the length fails the assertion. *)
Lemma getitem_above_range (d : DS) (len i : Z) :
  _preprocessed d = true ->
  Dataset_len d = Ok len ->
  (len <= i)%Z ->
  Dataset_getitem d i = Raise AssertionError.
Proof.
  intros Hp Hlen Hi.
  unfold Dataset_getitem, Dataset_getitem_tensor.
  rewrite Hp, Hlen; simpl.
  destruct (i <? len)%Z eqn:E; [apply Z.ltb_lt in E; lia | reflexivity].
Qed.

End Index.

(** C3, where the code departs from it.  The dataset of the example has
    three examples, so that -1 is outside the range [0, 3) of its
    indices; the assertion of [__getitem__] bounds the index from above
    only, and the index -1 is resolved, from the end of the index
    tensors, to the same row and sample as the index 2. *)
Theorem getitem_negative_index :
  preprocess 7 (Dataset_init ["game_1"; "game_2"; "game_3"] 1) Ex.tuples
  = Ok Ex.indexed
  /\ Dataset_len Ex.indexed = Ok 3%Z
  /\ Dataset_getitem Ex.indexed 3 = Raise AssertionError
  /\ Dataset_getitem Ex.indexed 2 = Ok [mkResolved 2 6 0]%Z
  /\ Dataset_getitem Ex.indexed (-1) = Ok [mkResolved 2 6 0]%Z.
Proof. repeat split; vm_compute; reflexivity. Qed.

Lemma from_merge_length_witness :
  from_merge [Ex.indexed; Dataset_init (Fields := unit) ["game_4"] 1]
  = Raise NotImplementedError
  /\ exists merged lens,
       from_merge [Ex.indexed; Ex.indexed] = Ok merged
       /\ mapM Dataset_len [Ex.indexed; Ex.indexed] = Ok lens
       /\ Dataset_len merged = Ok (fold_left Z.add lens 0%Z)
       /\ n_cf_agent_samples merged = 1%Z
       /\ _preprocessed merged = true.
Proof.
  split.
  - apply (proj1 (from_merge_length unit _)).
    apply Exists_cons_tl, Exists_cons_hd; right; reflexivity.
  - apply (proj2 (from_merge_length unit [Ex.indexed; Ex.indexed])).
    + discriminate.
    + assert (Hwf : well_formed Ex.indexed).
      { intros _; unfold populated.
        do 7 eexists; repeat split; reflexivity. }
      apply Forall_cons; [exact Hwf|].
      apply Forall_cons; [exact Hwf | apply Forall_nil].
    + apply Forall_cons; [split; reflexivity|].
      apply Forall_cons; [split; reflexivity | apply Forall_nil].
Defined.

(** ** C8: the slots of the powers and the validity mask *)

Lemma mask_le_refl (v : list bool) : mask_le v v.
Proof. split; auto. Qed.

Lemma mask_le_trans (v1 v2 v3 : list bool) :
  mask_le v1 v2 -> mask_le v2 v3 -> mask_le v1 v3.
Proof. intros [H1 H2] [H3 H4]; split; [congruence | auto]. Qed.

Lemma tensor_set_clear (v v' : list bool) (i : nat) (b : bool) :
  tensor_set v i b = Ok v' ->
  (nth_error v i = Some false -> b = false) ->
  mask_le v v' /\ nth_error v' i = Some b.
Proof.
  unfold tensor_set; destruct (i <? List.length v) eqn:E; [|discriminate].
  apply Nat.ltb_lt in E; intros H Hb; inversion H; subst; clear H.
  split; [split|].
  - apply set_nth_length.
  - intros k Hk; destruct (Nat.eq_dec i k) as [<-|Hne].
    + rewrite (Hb Hk); apply set_nth_same; exact E.
    + rewrite set_nth_other by exact Hne; exact Hk.
  - apply set_nth_same; exact E.
Qed.

Lemma getitem_nth_error {A : Type} (l : list A) (i : nat) (a : A) :
  Py.getitem l i = Ok a -> nth_error l i = Some a.
Proof.
  unfold Py.getitem; destruct (nth_error l i); intros H; inversion H.
  reflexivity.
Qed.

Section PhaseLabels.

Variable LOCS : list string.
Variable ORDER_VOCABULARY : list string.
Variable EOS_IDX : Z.
Variable POWERS : list string.
Variable State : Type.
Variable square_score : nat -> State -> Q.

Local Abbreviation encode := (encode_power_actions LOCS ORDER_VOCABULARY EOS_IDX).
Local Abbreviation samples :=
  (encode_samples LOCS ORDER_VOCABULARY EOS_IDX).
Local Abbreviation powers_loop :=
  (encode_powers LOCS ORDER_VOCABULARY EOS_IDX).
Local Abbreviation empty_slot n := (repeat (repeat EOS_IDX MAX_SEQ_LEN) n).

Lemma locate_orders_length (x : list (list Z)) (order_idxs : list Z) :
  forall i y, List.length (fst (locate_orders x i order_idxs y))
              = List.length y.
Proof.
  induction order_idxs as [|idx rest IH]; intros i y; simpl; [reflexivity|].
  destruct (nth_error x i); [|reflexivity].
  destruct (find_pos l idx); [|reflexivity].
  destruct (i <? List.length y); [|reflexivity].
  rewrite IH; apply set_nth_length.
Qed.

(** The labels of an order list always fill the [MAX_SEQ_LEN] places. *)
Lemma encode_power_actions_length (orders : list string)
  (x : list (list Z)) (labels : list Z) (valid : bool) :
  encode orders x = Ok (labels, valid) -> List.length labels = MAX_SEQ_LEN.
Proof.
  unfold encode_power_actions; intros H.
  destruct (existsb _ orders).
  { inversion H; apply repeat_length. }
  assert (Hloc : forall idxs r,
             (order_idxs <- sort_by_loc LOCS ORDER_VOCABULARY idxs ;;
              Ok (locate_orders x 0 order_idxs (repeat EOS_IDX MAX_SEQ_LEN)))
             = Ok r -> List.length (fst r) = MAX_SEQ_LEN).
  { intros idxs r Hr; apply bind_ok_inv in Hr.
    destruct Hr as (sorted & _ & Hr); inversion Hr; subst.
    rewrite locate_orders_length; apply repeat_length. }
  destruct (existsb is_build orders).
  - destruct (forallb is_build orders); [|discriminate].
    destruct (ORDER_VOCABULARY_TO_IDX ORDER_VOCABULARY _) as [idx|[]];
      try discriminate.
    + apply (Hloc _ _ H).
    + inversion H; apply repeat_length.
  - apply bind_ok_inv in H; destruct H as (idxs & _ & H).
    apply (Hloc _ _ H).
Qed.

Lemma encode_samples_slots (exclude_n_holds : Z) (power_i : nat)
  (x : list (list (list Z))) (orders_samples : list (list string)) :
  forall v slot v',
    samples exclude_n_holds power_i x orders_samples v = Ok (slot, v') ->
    List.length slot = List.length orders_samples
    /\ Forall (fun s => List.length s = MAX_SEQ_LEN) slot
    /\ mask_le v v'.
Proof.
  induction orders_samples as [|orders rest IH]; simpl; intros v slot v' H.
  - inversion H; subst; repeat split; auto.
  - apply bind_ok_inv in H; destruct H as (xp & _ & H).
    apply bind_ok_inv in H; destruct H as ([labels valid] & Henc & H).
    apply bind_ok_inv in H; destruct H as (bit & Hbit & H).
    apply bind_ok_inv in H; destruct H as (v1 & Hset & H).
    apply bind_ok_inv in H; destruct H as ([slot' v2] & Hrest & H).
    inversion H; subst; clear H.
    destruct (IH _ _ _ Hrest) as (Hl & Hf & Hle).
    apply getitem_nth_error in Hbit.
    destruct (_ && forallb _ orders)%bool; [discriminate|].
    destruct (tensor_set_clear _ _ _ _ Hset) as [Hle1 _].
    { intros Hk; rewrite Hbit in Hk; inversion Hk; reflexivity. }
    simpl; split; [f_equal; exact Hl|].
    split; [constructor; [|exact Hf]|eapply mask_le_trans; eassumption].
    eapply encode_power_actions_length; exact Henc.
Qed.

(** The slot of a power holds what [encode_power_actions] returns for its
    samples, whatever becomes of its bit. *)
Lemma encode_samples_labels (exclude_n_holds : Z) (power_i : nat)
  (x : list (list (list Z))) (orders_samples : list (list string)) :
  forall v slot v' xp,
    samples exclude_n_holds power_i x orders_samples v = Ok (slot, v') ->
    nth_error x power_i = Some xp ->
    Forall2 (fun orders labels =>
               exists valid, encode orders xp = Ok (labels, valid))
            orders_samples slot.
Proof.
  induction orders_samples as [|orders rest IH]; simpl;
    intros v slot v' xp H Hx.
  - inversion H; constructor.
  - apply bind_ok_inv in H; destruct H as (xp' & Hxp & H).
    apply bind_ok_inv in H; destruct H as ([labels valid] & Henc & H).
    apply bind_ok_inv in H; destruct H as (bit & _ & H).
    apply bind_ok_inv in H; destruct H as (v1 & _ & H).
    apply bind_ok_inv in H; destruct H as ([slot' v2] & Hrest & H).
    inversion H; subst; clear H.
    apply getitem_nth_error in Hxp; rewrite Hx in Hxp; inversion Hxp.
    subst xp'; constructor; [eauto | apply (IH _ _ _ _ Hrest Hx)].
Qed.

Lemma encode_powers_slots (n_cf_agent_samples : nat) (exclude_n_holds : Z)
  (power_orders_samples : Py.dict (list (list string)))
  (x : list (list (list Z))) (powers : list string) :
  forall power_i v ys v',
    powers_loop n_cf_agent_samples exclude_n_holds power_orders_samples x
      power_i powers v = Ok (ys, v') ->
    List.length ys = List.length powers
    /\ Forall (Forall (fun s => List.length s = MAX_SEQ_LEN)) ys
    /\ mask_le v v'
    /\ (forall j power,
          nth_error powers j = Some power ->
          Py.get power_orders_samples power = Some [] ->
          nth_error ys j = Some (empty_slot n_cf_agent_samples)
          /\ nth_error v' (power_i + j) = Some false).
Proof.
  induction powers as [|power rest IH]; simpl; intros power_i v ys v' H.
  - inversion H; subst.
    split; [reflexivity|]; split; [constructor|].
    split; [apply mask_le_refl|].
    intros [|j] p Hp; discriminate.
  - apply bind_ok_inv in H; destruct H as (orders_samples & Hlook & H).
    apply bind_ok_inv in H; destruct H as ([slot v1] & Hslot & H).
    apply bind_ok_inv in H; destruct H as ([ys' v2] & Hrest & H).
    inversion H; subst; clear H.
    destruct (IH _ _ _ _ Hrest) as (Hl & Hf & Hle & Hempty).
    assert (Hthis : Forall (fun s => List.length s = MAX_SEQ_LEN) slot
                    /\ mask_le v v1
                    /\ (orders_samples = [] ->
                        slot = empty_slot n_cf_agent_samples
                        /\ nth_error v1 power_i = Some false)).
    { destruct orders_samples as [|o os].
      - apply bind_ok_inv in Hslot; destruct Hslot as (v0 & Hset & Hs).
        inversion Hs; subst; clear Hs.
        destruct (tensor_set_clear _ _ _ _ Hset (fun _ => eq_refl))
          as [Hle0 Hbit].
        split; [|split; [exact Hle0 | auto]].
        apply Forall_forall; intros s Hs; apply repeat_spec in Hs; subst s.
        apply repeat_length.
      - destruct (encode_samples_slots _ _ _ _ _ _ _ Hslot) as (_ & H2 & H3).
        split; [exact H2|]; split; [exact H3 | discriminate]. }
    destruct Hthis as (Hf0 & Hle0 & He0).
    simpl; split; [f_equal; exact Hl|].
    split; [constructor; assumption|].
    split; [eapply mask_le_trans; eassumption|].
    intros [|j] p Hp Hget; simpl in Hp.
    + inversion Hp; subst p.
      unfold Py.lookup in Hlook; rewrite Hget in Hlook.
      inversion Hlook; subst orders_samples.
      destruct (He0 eq_refl) as [-> Hbit].
      split; [reflexivity|].
      rewrite Nat.add_0_r; apply (proj2 Hle); exact Hbit.
    + destruct (Hempty j p Hp Hget) as [H1 H2].
      split; [exact H1|].
      replace (power_i + S j) with (S power_i + j) by lia; exact H2.
Qed.

Lemma encode_powers_labels (n_cf_agent_samples : nat) (exclude_n_holds : Z)
  (power_orders_samples : Py.dict (list (list string)))
  (x : list (list (list Z))) (powers : list string) :
  forall power_i v ys v',
    powers_loop n_cf_agent_samples exclude_n_holds power_orders_samples x
      power_i powers v = Ok (ys, v') ->
    forall j power orders_samples,
      nth_error powers j = Some power ->
      Py.get power_orders_samples power = Some orders_samples ->
      orders_samples <> [] ->
      exists xp slot,
        nth_error x (power_i + j) = Some xp
        /\ nth_error ys j = Some slot
        /\ Forall2 (fun orders labels =>
                      exists valid, encode orders xp = Ok (labels, valid))
                   orders_samples slot.
Proof.
  induction powers as [|power rest IH]; simpl; intros power_i v ys v' H;
    intros j p ss Hj Hget Hne; [destruct j; discriminate|].
  apply bind_ok_inv in H; destruct H as (ss0 & Hlook & H).
  apply bind_ok_inv in H; destruct H as ([slot v1] & Hslot & H).
  apply bind_ok_inv in H; destruct H as ([ys' v2] & Hrest & H).
  inversion H; subst; clear H.
  destruct j as [|j]; simpl in Hj.
  - inversion Hj; subst p.
    unfold Py.lookup in Hlook; rewrite Hget in Hlook.
    inversion Hlook; subst ss0.
    destruct ss as [|o os]; [congruence|].
    assert (Hx : exists xp, nth_error x power_i = Some xp).
    { simpl in Hslot; apply bind_ok_inv in Hslot.
      destruct Hslot as (xp & Hxp & _).
      apply getitem_nth_error in Hxp; eauto. }
    destruct Hx as [xp Hx].
    exists xp, slot; rewrite Nat.add_0_r.
    split; [exact Hx|]; split; [reflexivity|].
    apply (encode_samples_labels _ _ _ _ _ _ _ _ Hslot Hx).
  - replace (power_i + S j) with (S power_i + j) by lia.
    apply (IH _ _ _ _ Hrest j p ss Hj Hget Hne).
Qed.

Lemma mask_and_bits (v t v' : list bool) :
  List.length t = List.length v ->
  mask_and v t = Ok v' ->
  mask_le v v'
  /\ forall i, nth_error t i = Some false -> nth_error v' i = Some false.
Proof.
  unfold mask_and; intros Hl H; rewrite Hl, Nat.eqb_refl in H.
  inversion H; subst; clear H.
  assert (Hnth : forall i a b,
             nth_error v i = Some a -> nth_error t i = Some b ->
             nth_error (map (fun vt => fst vt && snd vt)%bool (combine v t)) i
             = Some (a && b)%bool).
  { clear; revert t; induction v as [|a0 v IH]; intros [|b0 t] [|i] a b;
      simpl; intros Ha Hb; try discriminate.
    - inversion Ha; inversion Hb; reflexivity.
    - apply IH; assumption. }
  split; [split|].
  - rewrite length_map, length_combine, Hl; apply Nat.min_id.
  - intros i Hi.
    destruct (nth_error t i) as [b|] eqn:Et.
    + apply (Hnth i false b Hi Et).
    + apply nth_error_None in Et.
      assert (i < List.length v) by (apply nth_error_Some; congruence).
      lia.
  - intros i Hi.
    destruct (nth_error v i) as [a|] eqn:Ev.
    + rewrite (Hnth i a false Ev Hi); destruct a; reflexivity.
    + apply nth_error_None in Ev.
      assert (i < List.length t) by (apply nth_error_Some; congruence).
      lia.
Qed.

Lemma clear_low_scores_le (final_score : Py.dict Z) (min_score : Z)
  (powers : list string) :
  forall i v v',
    clear_low_scores final_score min_score i powers v = Ok v' ->
    mask_le v v'.
Proof.
  induction powers as [|power rest IH]; simpl; intros i v v' H.
  - inversion H; apply mask_le_refl.
  - apply bind_ok_inv in H; destruct H as (v1 & H1 & H).
    eapply mask_le_trans; [|apply (IH _ _ _ H)].
    destruct (_ <? min_score)%Z.
    + apply (tensor_set_clear _ _ _ _ H1 (fun _ => eq_refl)).
    + inversion H1; apply mask_le_refl.
Qed.

(** The steps of [encode_phase] behind a result. *)
Lemma encode_phase_inv (game : Game State) (phase_idx : nat) (alpha : Q)
  (power_orders_samples : Py.dict (list (list string)))
  (x_possible_actions : list (list (list Z)))
  (centers : Py.dict (list string))
  (only_with_min_final_score : option Z) (n_cf_agent_samples : nat)
  (input_valid_power_idxs : list bool) (exclude_n_holds : Z)
  (y_final_scores : list Q) (y_actions : list (list (list Z)))
  (valid : list bool) :
  encode_phase LOCS ORDER_VOCABULARY EOS_IDX POWERS square_score game
    phase_idx alpha power_orders_samples x_possible_actions centers
    only_with_min_final_score n_cf_agent_samples input_valid_power_idxs
    exclude_n_holds = Ok (y_final_scores, y_actions, valid) ->
  exists v1 v2,
    encode_weighted_sos_scores square_score (List.length POWERS) game
      phase_idx alpha = Ok y_final_scores
    /\ powers_loop n_cf_agent_samples exclude_n_holds power_orders_samples
         x_possible_actions 0 POWERS input_valid_power_idxs
       = Ok (y_actions, v1)
    /\ stack_slots y_actions = Ok y_actions
    /\ mask_and v1 (map (has_orders EOS_IDX) y_actions) = Ok v2
    /\ match only_with_min_final_score with
       | None => Ok v2
       | Some min_score =>
           let final_score :=
             Py.map_values (fun v => Z.of_nat (List.length v)) centers in
           m <- max_score final_score ;;
           if (min_score <=? m)%Z
           then clear_low_scores final_score min_score 0 POWERS v2
           else Ok v2
       end = Ok valid.
Proof.
  unfold encode_phase; intros H.
  apply bind_ok_inv in H; destruct H as (ph & _ & H).
  apply bind_ok_inv in H; destruct H as (s & Hs & H).
  apply bind_ok_inv in H; destruct H as ([ys v1] & Hloop & H).
  apply bind_ok_inv in H; destruct H as (y & Hstack & H).
  apply bind_ok_inv in H; destruct H as (v2 & Hand & H).
  apply bind_ok_inv in H; destruct H as (v3 & Hmin & H).
  inversion H; subst; clear H.
  simpl in Hstack, Hand.
  assert (Hy : y_actions = ys).
  { unfold stack_slots in Hstack; destruct ys as [|slot rest];
      [discriminate|].
    destruct (forallb _ rest); [|discriminate].
    inversion Hstack; reflexivity. }
  subst ys; exists v1, v2; auto.
Qed.

(** The labels and the mask of a turn. *)
Lemma encode_phase_slots (game : Game State) (phase_idx : nat) (alpha : Q)
  (power_orders_samples : Py.dict (list (list string)))
  (x_possible_actions : list (list (list Z)))
  (centers : Py.dict (list string))
  (only_with_min_final_score : option Z) (n_cf_agent_samples : nat)
  (input_valid_power_idxs : list bool) (exclude_n_holds : Z)
  (y_final_scores : list Q) (y_actions : list (list (list Z)))
  (valid : list bool) :
  List.length input_valid_power_idxs = List.length POWERS ->
  encode_phase LOCS ORDER_VOCABULARY EOS_IDX POWERS square_score game
    phase_idx alpha power_orders_samples x_possible_actions centers
    only_with_min_final_score n_cf_agent_samples input_valid_power_idxs
    exclude_n_holds = Ok (y_final_scores, y_actions, valid) ->
  List.length y_actions = List.length POWERS
  /\ List.length valid = List.length POWERS
  /\ (exists n_samples,
        Forall (fun slot =>
                  List.length slot = n_samples
                  /\ Forall (fun s => List.length s = MAX_SEQ_LEN) slot)
               y_actions)
  /\ mask_le input_valid_power_idxs valid
  /\ (forall i power,
        nth_error POWERS i = Some power ->
        Py.get power_orders_samples power = Some [] ->
        nth_error y_actions i
        = Some (empty_slot n_cf_agent_samples)
        /\ nth_error valid i = Some false)
  /\ (forall i slot,
        nth_error y_actions i = Some slot ->
        has_orders EOS_IDX slot = false ->
        nth_error valid i = Some false).
Proof.
  intros Hin H.
  destruct (encode_phase_inv _ _ _ _ _ _ _ _ _ _ _ _ _ H)
    as (v1 & v2 & _ & Hloop & Hstack & Hand & Hmin).
  destruct (encode_powers_slots _ _ _ _ _ _ _ _ _ Hloop)
    as (Hl & Hf & Hle1 & Hempty).
  assert (Hy : exists n, Forall (fun slot => List.length slot = n) y_actions).
  { unfold stack_slots in Hstack; destruct y_actions as [|slot rest];
      [discriminate|].
    destruct (forallb _ rest) eqn:E; [|discriminate].
    exists (List.length slot); constructor; [reflexivity|].
    rewrite forallb_forall in E; apply Forall_forall; intros t Ht.
    apply Nat.eqb_eq, E, Ht. }
  destruct Hy as [n Hn].
  destruct (mask_and_bits v1 (map (has_orders EOS_IDX) y_actions) v2)
    as [Hle2 Hbits]; [|exact Hand|].
  { rewrite length_map, Hl; destruct Hle1 as [-> _]; symmetry; exact Hin. }
  assert (Hle3 : mask_le v2 valid).
  { destruct only_with_min_final_score as [m|];
      [|inversion Hmin; apply mask_le_refl].
    apply bind_ok_inv in Hmin; destruct Hmin as (mx & _ & Hmin).
    destruct (m <=? mx)%Z; [|inversion Hmin; apply mask_le_refl].
    eapply clear_low_scores_le; exact Hmin. }
  assert (Hle : mask_le input_valid_power_idxs valid)
    by (eapply mask_le_trans; [exact Hle1|];
        eapply mask_le_trans; eassumption).
  split; [exact Hl|].
  split; [destruct Hle as [-> _]; exact Hin|].
  split.
  { exists n; rewrite Forall_forall in *; intros slot Hs; split; auto. }
  split; [exact Hle|].
  split.
  - intros i power Hp Hget; destruct (Hempty i power Hp Hget) as [H1 H2].
    split; [exact H1|]; simpl in H2.
    apply (proj2 Hle3), (proj2 Hle2); exact H2.
  - intros i slot Hs Hno; apply (proj2 Hle3), Hbits.
    rewrite nth_error_map, Hs; simpl; rewrite Hno; reflexivity.
Qed.

(** The slot of every power with order samples holds the labels that
    [encode_power_actions] returns for them on the candidate set of the
    power. *)
Lemma encode_phase_labels (game : Game State) (phase_idx : nat) (alpha : Q)
  (power_orders_samples : Py.dict (list (list string)))
  (x_possible_actions : list (list (list Z)))
  (centers : Py.dict (list string))
  (only_with_min_final_score : option Z) (n_cf_agent_samples : nat)
  (input_valid_power_idxs : list bool) (exclude_n_holds : Z)
  (y_final_scores : list Q) (y_actions : list (list (list Z)))
  (valid : list bool) :
  encode_phase LOCS ORDER_VOCABULARY EOS_IDX POWERS square_score game
    phase_idx alpha power_orders_samples x_possible_actions centers
    only_with_min_final_score n_cf_agent_samples input_valid_power_idxs
    exclude_n_holds = Ok (y_final_scores, y_actions, valid) ->
  forall i power orders_samples,
    nth_error POWERS i = Some power ->
    Py.get power_orders_samples power = Some orders_samples ->
    orders_samples <> [] ->
    exists xp slot,
      nth_error x_possible_actions i = Some xp
      /\ nth_error y_actions i = Some slot
      /\ Forall2 (fun orders labels =>
                    exists v, encode orders xp = Ok (labels, v))
                 orders_samples slot.
Proof.
  intros H i power ss Hi Hget Hne.
  destruct (encode_phase_inv _ _ _ _ _ _ _ _ _ _ _ _ _ H)
    as (v1 & v2 & _ & Hloop & _).
  apply (encode_powers_labels _ _ _ _ _ _ _ _ _ Hloop i power ss Hi Hget Hne).
Qed.

End PhaseLabels.

(** The entries of the index of a game are the set bits of its masks. *)

Lemma nonzero_from_In (mask : list bool) :
  forall (i k : Z),
    In k (nonzero_from i mask) <->
    exists j, nth_error mask j = Some true /\ k = (i + Z.of_nat j)%Z.
Proof.
  induction mask as [|b mask IH]; intros i k; simpl.
  - split; [intros [] | intros ([|j] & H & _); discriminate].
  - rewrite in_app_iff, IH; split.
    + intros [H|(j & Hj & ->)].
      * destruct b; [|destruct H]; destruct H as [<-|[]].
        exists 0; split; [reflexivity | lia].
      * exists (S j); split; [exact Hj | lia].
    + intros ([|j] & Hj & ->); simpl in Hj.
      * inversion Hj; subst b; left; left; lia.
      * right; exists j; split; [exact Hj | lia].
Qed.

Lemma index_phases_entries (Fields : Type) (n_powers : nat)
  (rows : EncodedGame Fields) :
  forall game_idx phase_idx x_idx es,
    index_phases n_powers game_idx phase_idx x_idx rows = Ok es ->
    forall e,
      In e es <->
      exists j row p,
        nth_error rows j = Some row
        /\ nth_error (valid_power_idxs row) p = Some true
        /\ e = mkEntry game_idx (phase_idx + Z.of_nat j) (Z.of_nat p)
                       (x_idx + Z.of_nat j).
Proof.
  induction rows as [|row rest IH]; simpl; intros g ph x es H e.
  - inversion H; subst; split; [intros [] |].
    intros ([|j] & r & p & Hj & _); discriminate.
  - destruct (List.length (valid_power_idxs row) =? n_powers);
      [|discriminate].
    apply bind_ok_inv in H; destruct H as (es' & He & H).
    inversion H; subst; clear H.
    rewrite in_app_iff, in_map_iff, (IH _ _ _ _ He); split.
    + intros [(k & <- & Hk)|(j & r & p & Hj & Hp & ->)].
      * apply nonzero_from_In in Hk; destruct Hk as (p & Hp & ->).
        exists 0, row, p; repeat split; [exact Hp|].
        f_equal; lia.
      * exists (S j), r, p; repeat split; [exact Hj | exact Hp|].
        f_equal; lia.
    + intros ([|j] & r & p & Hj & Hp & ->); simpl in Hj.
      * inversion Hj; subst r; left; exists (Z.of_nat p); split.
        -- f_equal; lia.
        -- apply nonzero_from_In; exists p; split; [exact Hp | lia].
      * right; exists j, r, p; repeat split; [exact Hj | exact Hp|].
        f_equal; lia.
Qed.

(** C8, amended.  A turn is encoded with one slot of labels and one bit
    of the mask for each of the seven powers, every slot having the same
    number of samples of [MAX_SEQ_LEN] labels; no bit that the input mask
    clears is set; a power without order samples has a slot of sentinels
    and a cleared bit, and so has every power with a sample of sentinels
    only; the slot of a power with order samples holds, whatever its bit,
    the labels that [encode_power_actions] returns for them; the index of
    a game has an entry for exactly the set bits of its masks. *)
Theorem invalid_samples_keep_slots
  (LOCS ORDER_VOCABULARY : list string) (EOS_IDX : Z) (POWERS : list string)
  (State : Type) (square_score : nat -> State -> Q) (game : Game State)
  (phase_idx : nat) (value_decay_alpha : Q)
  (power_orders_samples : Py.dict (list (list string)))
  (x_possible_actions : list (list (list Z)))
  (centers : Py.dict (list string))
  (only_with_min_final_score : option Z) (n_cf_agent_samples : nat)
  (input_valid_power_idxs : list bool) (exclude_n_holds : Z)
  (y_final_scores : list Q) (y_actions : list (list (list Z)))
  (valid : list bool) :
  List.length POWERS = 7 ->
  List.length input_valid_power_idxs = 7 ->
  encode_phase LOCS ORDER_VOCABULARY EOS_IDX POWERS square_score game
    phase_idx value_decay_alpha power_orders_samples x_possible_actions
    centers only_with_min_final_score n_cf_agent_samples
    input_valid_power_idxs exclude_n_holds
  = Ok (y_final_scores, y_actions, valid) ->
  (List.length y_actions = 7
   /\ List.length valid = 7
   /\ (exists n_samples,
         Forall (fun slot =>
                   List.length slot = n_samples
                   /\ Forall (fun s => List.length s = MAX_SEQ_LEN) slot)
                y_actions)
   /\ mask_le input_valid_power_idxs valid
   /\ (forall i power,
         nth_error POWERS i = Some power ->
         Py.get power_orders_samples power = Some [] ->
         nth_error y_actions i
         = Some (repeat (repeat EOS_IDX MAX_SEQ_LEN) n_cf_agent_samples)
         /\ nth_error valid i = Some false)
   /\ (forall i slot,
         nth_error y_actions i = Some slot ->
         has_orders EOS_IDX slot = false ->
         nth_error valid i = Some false)
   /\ (forall i power orders_samples,
         nth_error POWERS i = Some power ->
         Py.get power_orders_samples power = Some orders_samples ->
         orders_samples <> [] ->
         exists xp slot,
           nth_error x_possible_actions i = Some xp
           /\ nth_error y_actions i = Some slot
           /\ Forall2 (fun orders labels =>
                         exists v,
                           encode_power_actions LOCS ORDER_VOCABULARY
                             EOS_IDX orders xp = Ok (labels, v))
                      orders_samples slot))
  /\ (forall (Fields : Type) (rows : EncodedGame Fields)
             (game_idx phase_idx x_idx : Z) (es : list IndexEntry),
         index_phases 7 game_idx phase_idx x_idx rows = Ok es ->
         forall e,
           In e es <->
           exists j row p,
             nth_error rows j = Some row
             /\ nth_error (valid_power_idxs row) p = Some true
             /\ e = mkEntry game_idx (phase_idx + Z.of_nat j) (Z.of_nat p)
                            (x_idx + Z.of_nat j)).
Proof.
  intros Hp Hin H; split.
  - destruct (encode_phase_slots _ _ _ _ _ _ _ _ _ _ _ _ _ _ _ _ _ _ _
                (eq_trans Hin (eq_sym Hp)) H)
      as (H1 & H2 & H3 & H4 & H5 & H6).
    rewrite Hp in H1, H2.
    repeat (split; [assumption|]).
    apply (encode_phase_labels _ _ _ _ _ _ _ _ _ _ _ _ _ _ _ _ _ _ _ H).
  - intros Fields rows g ph x es He e.
    apply (index_phases_entries _ _ _ _ _ _ _ He).
Qed.

Lemma invalid_samples_keep_slots_witness :
  exists y_final_scores y_actions valid,
    encode_phase Ex.LOCS Ex.VOCAB Ex.EOS Ex.POWERS Ex.square_score Ex.game 0
      (1 # 2) Ex.phase_orders Ex.phase_candidates [("FRANCE", ["PAR"])] None
      1 Ex.all_powers_valid (-1)%Z = Ok (y_final_scores, y_actions, valid)
    /\ List.length y_actions = 7
    /\ List.length valid = 7
    /\ mask_le Ex.all_powers_valid valid.
Proof.
  assert (H : exists r,
             encode_phase Ex.LOCS Ex.VOCAB Ex.EOS Ex.POWERS Ex.square_score
               Ex.game 0 (1 # 2) Ex.phase_orders Ex.phase_candidates
               [("FRANCE", ["PAR"])] None 1 Ex.all_powers_valid (-1)%Z
             = Ok r)
    by (eexists; vm_compute; reflexivity).
  destruct H as [[[y_final_scores y_actions] valid] H].
  destruct (invalid_samples_keep_slots Ex.LOCS Ex.VOCAB Ex.EOS Ex.POWERS
              nat Ex.square_score Ex.game 0 (1 # 2)
              Ex.phase_orders Ex.phase_candidates [("FRANCE", ["PAR"])] None
              1 Ex.all_powers_valid (-1)%Z y_final_scores y_actions valid
              eq_refl eq_refl H) as [(H1 & H2 & _ & H4 & _) _].
  exists y_final_scores, y_actions, valid.
  split; [exact H|]; split; [exact H1|]; split; [exact H2 | exact H4].
Defined.

(** C8 as stated fails for a power that is invalid for another reason than
    its orders.  FRANCE, cleared in the input mask, has its hold order
    encoded: the bit of FRANCE is cleared and its slot holds the label 1,
    which is neither the sentinel nor zero. *)
Lemma invalid_samples_keep_slots_counterexample :
  let sentinels := [repeat Ex.EOS 17] in
  exists y_final_scores,
    encode_phase Ex.LOCS Ex.VOCAB Ex.EOS Ex.POWERS Ex.square_score Ex.game 0
      (1 # 2) Ex.phase_orders Ex.phase_candidates [("FRANCE", ["PAR"])] None
      1 Ex.france_excluded (-1)%Z
    = Ok (y_final_scores,
          [sentinels; sentinels; [1%Z :: repeat Ex.EOS 16]; sentinels;
           sentinels; sentinels; sentinels],
          [false; false; false; false; false; false; false]).
Proof. eexists; vm_compute; reflexivity. Qed.

(** A game whose first turn has no valid power is left out of the dataset
    with all its turns: the count of the length is over the games that
    [preprocess] keeps. *)
Example preprocess_drops_game :
  exists d,
    preprocess (Fields := unit) 7 (Dataset_init ["game_1"] 1)
      [(Some "game_1",
        Some [mkRow [false; false; false; false; false; false; false] tt;
              mkRow [true; false; false; false; false; false; false] tt])]
    = Ok d
    /\ encoded_games d = Some []
    /\ Dataset_len d = Ok 0%Z.
Proof. eexists; repeat split; vm_compute; reflexivity. Qed.

(** * Further properties of the module *)

(** ** filter_orders_in_vocab *)

Section VocabularyFilter.

Variable ORDER_VOCABULARY : list string.

Local Abbreviation smarter := (smarter_order_index ORDER_VOCABULARY).
Local Abbreviation ids_of := (resolved_ids ORDER_VOCABULARY).
Local Abbreviation kept := (resolved_orders ORDER_VOCABULARY).

Lemma filter_orders_in_vocab_ids (orders : list string) :
  filter_orders_in_vocab ORDER_VOCABULARY orders
  = Ok (kept orders, ids_of orders)
  /\ mapM smarter (kept orders) = Ok (ids_of orders)
  /\ List.length (ids_of orders) = List.length (kept orders)
  /\ List.length (kept orders) <= List.length orders.
Proof.
  unfold resolved_orders, resolved_ids.
  induction orders as [|o os (IH1 & IH2 & IH3 & IH4)]; simpl.
  - repeat split; lia.
  - destruct (smarter o) as [i|e] eqn:E; simpl.
    + rewrite IH1, E; simpl; rewrite IH2; simpl.
      repeat split; lia.
    + pose proof (smarter_order_index_raises _ _ _ E); subst e.
      repeat split; try assumption; lia.
Qed.

(** [filter_orders_in_vocab] never raises: it returns the orders that
    [smarter_order_index] resolves, in their order, with their ids. *)
Theorem filter_orders_in_vocab_total (orders : list string) :
  filter_orders_in_vocab ORDER_VOCABULARY orders
  = Ok (kept orders, ids_of orders)
  /\ mapM smarter (kept orders) = Ok (ids_of orders)
  /\ List.length (ids_of orders) = List.length (kept orders)
  /\ List.length (kept orders) <= List.length orders.
Proof. apply filter_orders_in_vocab_ids. Qed.

(** The loop of [encode_power_actions] over a list without builds collects
    the same ids. *)
Lemma resolve_orders_ids (orders : list string) :
  resolve_orders ORDER_VOCABULARY orders = Ok (ids_of orders).
Proof.
  unfold resolved_ids; induction orders as [|o os IH]; simpl; [reflexivity|].
  destruct (smarter o) as [i|e] eqn:E; simpl.
  - rewrite IH; reflexivity.
  - pose proof (smarter_order_index_raises _ _ _ E); subst e; exact IH.
Qed.

End VocabularyFilter.

(** ** The shape of the candidate sets *)

Lemma set_prefix_length (vals row : list Z) :
  List.length vals <= List.length row ->
  List.length (set_prefix vals row) = List.length row.
Proof.
  intros H; unfold set_prefix; rewrite length_app, length_skipn; lia.
Qed.

Lemma set_prefix_padding (EOS_IDX : Z) (vals : list Z) :
  set_prefix vals (repeat EOS_IDX MAX_VALID_LEN) = padded_row EOS_IDX vals.
Proof. unfold set_prefix, padded_row; rewrite skipn_repeat; reflexivity. Qed.

Lemma Forall_set_nth {A : Type} (P : A -> Prop) (l : list A) (i : nat)
  (v : A) :
  Forall P l -> P v -> Forall P (set_nth l i v).
Proof.
  intros Hl Hv; revert i; induction Hl as [|x xs Hx Hxs IH]; intros [|i];
    simpl; constructor; auto.
Qed.

Lemma fold_set_nth_shape {A : Type} (P : A -> Prop) (v : A) (js : list nat) :
  forall l, Forall P l -> P v ->
            List.length (fold_left (fun t j => set_nth t j v) js l)
            = List.length l
            /\ Forall P (fold_left (fun t j => set_nth t j v) js l).
Proof.
  induction js as [|j js IH]; simpl; intros l Hl Hv; [auto|].
  destruct (IH (set_nth l j v)) as [H1 H2];
    [apply Forall_set_nth; assumption | exact Hv|].
  rewrite set_nth_length in H1; auto.
Qed.

Lemma assign_rows_shape (t t' : list (list Z)) (r : nat) (vals : list Z) :
  rows_shape t -> assign_rows t r vals = Ok t' -> rows_shape t'.
Proof.
  intros [Hl Hf] H; unfold assign_rows in H.
  destruct (List.length vals <=? MAX_VALID_LEN) eqn:E; [|discriminate].
  apply Nat.leb_le in E; inversion H; subst; clear H; split.
  - rewrite length_app, length_map, <- length_app, firstn_skipn; exact Hl.
  - rewrite <- (firstn_skipn r t) in Hf; apply Forall_app in Hf.
    destruct Hf as [H1 H2]; apply Forall_app; split; [|exact H2].
    apply Forall_map; eapply Forall_impl; [|exact H1]; intros row Hr.
    simpl in Hr |- *.
    rewrite set_prefix_length; [exact Hr | rewrite Hr; exact E].
Qed.

Lemma assign_row_shape (t t' : list (list Z)) (i : nat) (vals : list Z) :
  rows_shape t -> assign_row t i vals = Ok t' ->
  rows_shape t' /\ i < MAX_SEQ_LEN.
Proof.
  intros [Hl Hf] H; unfold assign_row in H.
  destruct (nth_error t i) as [row|] eqn:Er; [|discriminate].
  destruct (List.length vals <=? MAX_VALID_LEN) eqn:E; [|discriminate].
  apply Nat.leb_le in E; inversion H; subst; clear H.
  assert (Hi : i < List.length t) by (apply nth_error_Some; congruence).
  split; [split|lia].
  - rewrite set_nth_length; exact Hl.
  - apply Forall_set_nth; [exact Hf|].
    rewrite set_prefix_length; [|].
    + rewrite Forall_forall in Hf; apply Hf.
      eapply nth_error_In; exact Er.
    + rewrite Forall_forall in Hf.
      rewrite (Hf row (nth_error_In _ _ Er)); exact E.
Qed.

Section CandidateShape.

Variable LOCS : list string.
Variable ORDER_VOCABULARY : list string.
Variable EOS_IDX : Z.

Local Abbreviation impl :=
  (get_valid_orders_impl LOCS ORDER_VOCABULARY EOS_IDX).

Lemma empty_rows_shape :
  rows_shape (repeat (repeat EOS_IDX MAX_VALID_LEN) MAX_SEQ_LEN).
Proof.
  split; [apply repeat_length|].
  apply Forall_forall; intros row Hr; apply repeat_spec in Hr; subst row.
  apply repeat_length.
Qed.

Lemma mark_locs_shape (l l' : list Z) (ols : list string) :
  Forall assignment_entry l ->
  mark_locs LOCS l ols = Ok l' ->
  List.length l' = List.length l /\ Forall assignment_entry l'.
Proof.
  intros Hl H; unfold mark_locs in H.
  apply bind_ok_inv in H; destruct H as (js & _ & H).
  inversion H; subst; clear H.
  apply fold_set_nth_shape; [exact Hl|].
  right; left; reflexivity.
Qed.

Lemma move_steps_shape (apo : Py.dict (list string)) (ols : list string) :
  forall i t l t' l',
    rows_shape t -> Forall assignment_entry l ->
    move_steps LOCS ORDER_VOCABULARY apo i ols t l = Ok (t', l') ->
    rows_shape t' /\ List.length l' = List.length l
    /\ Forall assignment_entry l'.
Proof.
  induction ols as [|loc rest IH]; simpl; intros i t l t' l' Ht Hl H.
  - inversion H; subst; auto.
  - apply bind_ok_inv in H; destruct H as (v & _ & H).
    apply bind_ok_inv in H; destruct H as (r & _ & H).
    apply bind_ok_inv in H; destruct H as (t1 & Ht1 & H).
    apply bind_ok_inv in H; destruct H as (j & _ & H).
    destruct (assign_row_shape _ _ _ _ Ht Ht1) as [Ht1' Hi].
    destruct (IH _ _ _ _ _ Ht1' (Forall_set_nth _ _ j (Z.of_nat i) Hl
                                   (or_intror (or_intror
                                      (conj (Zle_0_nat i)
                                            (proj1 (Nat2Z.inj_lt _ _) Hi)))))
                 H)
      as (H1 & H2 & H3).
    rewrite set_nth_length in H2; auto.
Qed.

(** Whatever the turn, a result of [get_valid_orders_impl] has the shape
    of its docstring: one batch entry of [MAX_SEQ_LEN] steps of
    [MAX_VALID_LEN] ids, one step assignment per location of [LOCS], each
    -1, -2 or the number of a step, and a step count that is not
    negative. *)
Theorem get_valid_orders_impl_shape (power : string)
  (all_possible_orders all_orderable_locations : Py.dict (list string))
  (builds : Py.dict Z)
  (all_order_idxs : list (list (list Z))) (loc_idxs : list (list Z))
  (n : Z) :
  impl power all_possible_orders all_orderable_locations builds
  = Ok (all_order_idxs, loc_idxs, n) ->
  candidate_shape all_order_idxs
  /\ assignment_shape LOCS loc_idxs
  /\ (0 <= n)%Z.
Proof.
  assert (Hl0 : Forall assignment_entry
                       (repeat (-1)%Z (List.length LOCS))).
  { apply Forall_forall; intros v Hv; apply repeat_spec in Hv; subst v.
    left; reflexivity. }
  assert (Hfin : forall rows l m,
             Ok ([rows], [l], m) = Ok (all_order_idxs, loc_idxs, n) ->
             rows_shape rows ->
             List.length l = List.length LOCS -> Forall assignment_entry l ->
             (0 <= m)%Z ->
             candidate_shape all_order_idxs
             /\ assignment_shape LOCS loc_idxs /\ (0 <= n)%Z).
  { intros rows l m H Hr Hll Hlf Hm; inversion H; subst.
    split; [exists rows; auto|].
    split; [exists l; auto | exact Hm]. }
  unfold get_valid_orders_impl; intros H.
  destruct (negb (Py.mem all_orderable_locations power)).
  { eapply Hfin; [exact H | apply empty_rows_shape | apply repeat_length
                  | exact Hl0 | lia]. }
  apply bind_ok_inv in H; destruct H as (locs & _ & H).
  apply bind_ok_inv in H; destruct H as (ols & _ & H).
  apply bind_ok_inv in H; destruct H as (cands & _ & H).
  apply bind_ok_inv in H; destruct H as (n_builds & _ & H).
  destruct (0 <? n_builds)%Z eqn:Epos.
  - apply Z.ltb_lt in Epos.
    apply bind_ok_inv in H; destruct H as (ids & _ & H).
    apply bind_ok_inv in H; destruct H as (t1 & Ht1 & H).
    apply bind_ok_inv in H; destruct H as (l1 & Hl1 & H).
    destruct (mark_locs_shape _ _ _ Hl0 Hl1) as [Hlen Hf].
    rewrite repeat_length in Hlen.
    eapply Hfin; [exact H
                 | eapply assign_rows_shape; [apply empty_rows_shape|exact Ht1]
                 | exact Hlen | exact Hf | lia].
  - destruct (n_builds <? 0)%Z eqn:Eneg.
    + apply Z.ltb_lt in Eneg.
      apply bind_ok_inv in H; destruct H as (r & _ & H).
      apply bind_ok_inv in H; destruct H as (t1 & Ht1 & H).
      apply bind_ok_inv in H; destruct H as (l1 & Hl1 & H).
      destruct (mark_locs_shape _ _ _ Hl0 Hl1) as [Hlen Hf].
      rewrite repeat_length in Hlen.
      eapply Hfin; [exact H
                   | eapply assign_rows_shape;
                     [apply empty_rows_shape|exact Ht1]
                   | exact Hlen | exact Hf | lia].
    + apply bind_ok_inv in H; destruct H as ([t1 l1] & Hm & H).
      destruct (move_steps_shape _ _ _ _ _ _ _ empty_rows_shape Hl0 Hm)
        as (Ht & Hlen & Hf).
      rewrite repeat_length in Hlen.
      eapply Hfin; [exact H | exact Ht | exact Hlen | exact Hf | lia].
Qed.

End CandidateShape.

(** ** The steps of a move turn *)

Lemma index_nth (l : list string) (x : string) :
  forall j, Py.index l x = Ok j -> nth_error l j = Some x.
Proof.
  induction l as [|y ys IH]; simpl; intros j H; [discriminate|].
  destruct (String.eqb y x) eqn:E.
  - inversion H; subst; apply String.eqb_eq in E; subst; reflexivity.
  - apply bind_ok_inv in H; destruct H as (i & Hi & H).
    inversion H; subst; simpl; apply IH; exact Hi.
Qed.

Section MoveTurn.

Variable LOCS : list string.
Variable ORDER_VOCABULARY : list string.
Variable EOS_IDX : Z.

Local Abbreviation impl :=
  (get_valid_orders_impl LOCS ORDER_VOCABULARY EOS_IDX).
Local Abbreviation steps := (move_steps LOCS ORDER_VOCABULARY).
Local Abbreviation ids_of := (resolved_ids ORDER_VOCABULARY).
Local Abbreviation ok_loc := (orderable_ok LOCS ORDER_VOCABULARY).

Lemma move_steps_spec (apo : Py.dict (list string)) (ols : list string) :
  forall i t l,
    i + List.length ols <= List.length t ->
    Forall (ok_loc apo) ols ->
    exists t' l',
      steps apo i ols t l = Ok (t', l')
      /\ List.length t' = List.length t
      /\ List.length l' = List.length l
      /\ (forall k loc,
            nth_error ols k = Some loc ->
            exists v row j,
              Py.get apo loc = Some v
              /\ nth_error t (i + k) = Some row
              /\ nth_error t' (i + k)
                 = Some (set_prefix (Py.sorted_Z (ids_of v)) row)
              /\ Py.index LOCS loc = Ok j
              /\ (NoDup ols -> j < List.length l ->
                  nth_error l' j = Some (Z.of_nat (i + k))))
      /\ (forall p, p < i \/ i + List.length ols <= p ->
                    nth_error t' p = nth_error t p)
      /\ (forall j, (forall loc, In loc ols -> Py.index LOCS loc <> Ok j) ->
                    nth_error l' j = nth_error l j).
Proof.
  induction ols as [|loc rest IH]; intros i t l Hfit Hok.
  - exists t, l; simpl; repeat split; auto.
    intros [|k] loc Hk; discriminate.
  - simpl in Hfit; inversion Hok as [|? ? Hloc Hrest]; subst.
    destruct Hloc as (Hin & v & Hv & Hlen).
    destruct (index_In_total _ _ Hin) as [j Hj].
    destruct (nth_error t i) as [row|] eqn:Er;
      [|apply nth_error_None in Er; lia].
    destruct (filter_orders_in_vocab_ids ORDER_VOCABULARY v) as (Hf & _).
    set (t1 := set_nth t i (set_prefix (Py.sorted_Z (ids_of v)) row)).
    set (l1 := set_nth l j (Z.of_nat i)).
    destruct (IH (S i) t1 l1) as (t' & l' & Hs & Ht & Hl & Hk & Hp & Hj').
    { unfold t1; rewrite set_nth_length; lia. }
    { exact Hrest. }
    exists t', l'.
    assert (Hstep : steps apo i (loc :: rest) t l = Ok (t', l')).
    { cbn [move_steps]; unfold Py.lookup; rewrite Hv; cbn [bind].
      rewrite Hf; cbn [bind snd].
      unfold assign_row; rewrite Er.
      unfold Py.sorted_Z at 1; rewrite sort_length.
      destruct (List.length (ids_of v) <=? MAX_VALID_LEN) eqn:E;
        [|apply Nat.leb_gt in E; lia].
      cbn [bind]; rewrite Hj; cbn [bind]; exact Hs. }
    split; [exact Hstep|].
    split; [rewrite Ht; apply set_nth_length|].
    split; [rewrite Hl; apply set_nth_length|].
    split; [|split].
    + intros [|k] loc' Hnth; simpl in Hnth.
      * inversion Hnth; subst loc'; exists v, row, j.
        rewrite Nat.add_0_r.
        split; [exact Hv|]; split; [exact Er|]; split.
        -- rewrite Hp by lia; apply set_nth_same.
           apply nth_error_Some; congruence.
        -- split; [exact Hj|]; intros Hnd Hjl.
           rewrite Hj'; [apply set_nth_same; exact Hjl|].
           intros loc' Hin' Hidx; inversion Hnd; subst.
           apply index_nth in Hidx; apply index_nth in Hj.
           rewrite Hj in Hidx; inversion Hidx; subst; contradiction.
      * destruct (Hk k loc' Hnth) as (v' & row' & j' & H1 & H2 & H3 & H4 & H5).
        exists v', row', j'.
        replace (i + S k) with (S i + k) by lia.
        split; [exact H1|]; split.
        -- unfold t1 in H2; rewrite set_nth_other in H2 by lia; exact H2.
        -- split; [exact H3|]; split; [exact H4|].
           intros Hnd Hjl; apply H5; [inversion Hnd; assumption|].
           unfold l1; rewrite set_nth_length; exact Hjl.
    + intros p Hpp; simpl in Hpp; rewrite Hp by lia.
      unfold t1; apply set_nth_other; lia.
    + intros j0 Hno; rewrite Hj'.
      * unfold l1; apply set_nth_other; intros ->.
        apply (Hno loc); [left; reflexivity | exact Hj].
      * intros loc' Hin'; apply Hno; right; exact Hin'.
Qed.

Lemma move_steps_app (apo : Py.dict (list string)) (l1 l2 : list string) :
  forall i t l,
    steps apo i (l1 ++ l2) t l
    = (r <- steps apo i l1 t l ;;
       steps apo (i + List.length l1) l2 (fst r) (snd r)).
Proof.
  induction l1 as [|loc rest IH]; intros i t l; simpl.
  - rewrite Nat.add_0_r; reflexivity.
  - destruct (Py.lookup apo loc) as [v|]; simpl; [|reflexivity].
    destruct (filter_orders_in_vocab ORDER_VOCABULARY v) as [r|]; simpl;
      [|reflexivity].
    destruct (assign_row t i (Py.sorted_Z (snd r))) as [t1|]; simpl;
      [|reflexivity].
    destruct (Py.index LOCS loc) as [j|]; simpl; [|reflexivity].
    rewrite IH; replace (S i + List.length rest) with (i + S (List.length rest))
      by lia.
    reflexivity.
Qed.

End MoveTurn.

Section MoveTurnResults.

Variable LOCS : list string.
Variable ORDER_VOCABULARY : list string.
Variable EOS_IDX : Z.

Local Abbreviation impl :=
  (get_valid_orders_impl LOCS ORDER_VOCABULARY EOS_IDX).
Local Abbreviation ids_of := (resolved_ids ORDER_VOCABULARY).
Local Abbreviation ok_loc := (orderable_ok LOCS ORDER_VOCABULARY).
Local Abbreviation empty_rows :=
  (repeat (repeat EOS_IDX MAX_VALID_LEN) MAX_SEQ_LEN).

Lemma lookups_total (apo : Py.dict (list string)) (ols : list string) :
  Forall (ok_loc apo) ols -> exists cands, mapM (Py.lookup apo) ols = Ok cands.
Proof.
  intros H; apply mapM_total; eapply Forall_impl; [|exact H].
  intros loc (_ & v & Hv & _); exists v; unfold Py.lookup; rewrite Hv.
  reflexivity.
Qed.

(** The head of [get_valid_orders_impl] on a turn without builds or
    disbands: the call is the loop over the sorted locations. *)
Lemma impl_move_turn (power : string)
  (all_possible_orders all_orderable_locations : Py.dict (list string))
  (builds : Py.dict Z) (locs ols : list string) :
  let stripped := Py.map_values strip_waive all_possible_orders in
  Py.get all_orderable_locations power = Some locs ->
  sort_orderable LOCS stripped locs = Ok ols ->
  Forall (ok_loc stripped) ols ->
  Py.get builds power = Some 0%Z ->
  impl power all_possible_orders all_orderable_locations builds
  = (r <- move_steps LOCS ORDER_VOCABULARY stripped 0 ols empty_rows
            (repeat (-1)%Z (List.length LOCS)) ;;
     Ok ([fst r], [snd r], Z.of_nat (List.length ols))).
Proof.
  intros stripped Hget Hsort Hok Hb.
  destruct (lookups_total _ _ Hok) as [cands Hc].
  unfold get_valid_orders_impl, Py.mem; rewrite Hget; cbn [negb].
  fold stripped; unfold Py.lookup at 1; rewrite Hget; cbn [bind].
  rewrite Hsort; cbn [bind]; rewrite Hc; cbn [bind].
  unfold Py.lookup at 1; rewrite Hb; cbn [bind].
  reflexivity.
Qed.


(** A power with more than [MAX_SEQ_LEN] orderable locations on an
    ordinary turn makes the call raise [IndexError]: the loop has no row
    for the step past the last one. *)
Theorem move_turn_too_many_locations (power : string)
  (all_possible_orders all_orderable_locations : Py.dict (list string))
  (builds : Py.dict Z) (locs ols : list string) :
  let stripped := Py.map_values strip_waive all_possible_orders in
  Py.get all_orderable_locations power = Some locs ->
  sort_orderable LOCS stripped locs = Ok ols ->
  Forall (ok_loc stripped) ols ->
  MAX_SEQ_LEN < List.length ols ->
  Py.get builds power = Some 0%Z ->
  impl power all_possible_orders all_orderable_locations builds
  = Raise IndexError.
Proof.
  intros stripped Hget Hsort Hok Hmany Hb; subst stripped.
  rewrite (impl_move_turn _ _ _ _ _ _ Hget Hsort Hok Hb).
  rewrite <- (firstn_skipn MAX_SEQ_LEN ols) at 1.
  rewrite move_steps_app.
  assert (Hok1 : Forall (ok_loc (Py.map_values strip_waive
                                   all_possible_orders))
                         (firstn MAX_SEQ_LEN ols)).
  { rewrite <- (firstn_skipn MAX_SEQ_LEN ols) in Hok.
    apply Forall_app in Hok; tauto. }
  assert (Hlen1 : List.length (firstn MAX_SEQ_LEN ols) = MAX_SEQ_LEN)
    by (rewrite length_firstn; lia).
  destruct (move_steps_spec LOCS ORDER_VOCABULARY
              (Py.map_values strip_waive all_possible_orders)
              (firstn MAX_SEQ_LEN ols) 0 empty_rows
              (repeat (-1)%Z (List.length LOCS)))
    as (rows & l & Hs & Ht & _); [| exact Hok1 |].
  { rewrite repeat_length, Hlen1; simpl; lia. }
  rewrite Hs; cbn [bind fst snd]; rewrite Hlen1; simpl.
  destruct (skipn MAX_SEQ_LEN ols) as [|loc rest] eqn:Es.
  { assert (List.length (skipn MAX_SEQ_LEN ols) = 0) by (rewrite Es; reflexivity).
    rewrite length_skipn in H; lia. }
  assert (Hin : In loc ols).
  { rewrite <- (firstn_skipn MAX_SEQ_LEN ols), Es.
    apply in_or_app; right; left; reflexivity. }
  rewrite Forall_forall in Hok; destruct (Hok loc Hin) as (_ & v & Hv & _).
  cbn [move_steps]; unfold Py.lookup; rewrite Hv; cbn [bind].
  destruct (filter_orders_in_vocab_ids ORDER_VOCABULARY v) as (Hf & _).
  rewrite Hf; cbn [bind snd]; unfold assign_row.
  rewrite repeat_length in Ht.
  destruct (nth_error rows MAX_SEQ_LEN) eqn:E; [|reflexivity].
  assert (MAX_SEQ_LEN < List.length rows)
    by (apply nth_error_Some; congruence).
  lia.
Qed.

End MoveTurnResults.

(** ** Adjustment turns: the rows of a disband turn, the tags of the
       locations *)

Lemma firstn_repeat_min {A : Type} (x : A) (r m : nat) :
  firstn r (repeat x m) = repeat x (Nat.min r m).
Proof.
  revert m; induction r as [|r IH]; intros [|m]; simpl; try reflexivity.
  rewrite IH; reflexivity.
Qed.

Lemma fold_set_nth_spec {A : Type} (v : A) (js : list nat) :
  forall l,
    (forall j, In j js -> j < List.length l ->
               nth_error (fold_left (fun t j => set_nth t j v) js l) j
               = Some v)
    /\ (forall j, ~ In j js ->
                  nth_error (fold_left (fun t j => set_nth t j v) js l) j
                  = nth_error l j).
Proof.
  induction js as [|j0 js IH]; intros l; simpl.
  - split; [intros j [] | reflexivity].
  - destruct (IH (set_nth l j0 v)) as [H1 H2]; split.
    + intros j Hin Hj.
      destruct (in_dec Nat.eq_dec j js) as [Hjs|Hjs].
      * apply H1; [exact Hjs | rewrite set_nth_length; exact Hj].
      * destruct Hin as [->|Hin]; [|contradiction].
        rewrite H2 by exact Hjs; apply set_nth_same; exact Hj.
    + intros j Hno; rewrite H2 by tauto.
      apply set_nth_other; intros ->; apply Hno; left; reflexivity.
Qed.

Section AdjustmentTurn.

Variable LOCS : list string.
Variable ORDER_VOCABULARY : list string.
Variable EOS_IDX : Z.

Local Abbreviation impl :=
  (get_valid_orders_impl LOCS ORDER_VOCABULARY EOS_IDX).
Local Abbreviation ids_of := (resolved_ids ORDER_VOCABULARY).
Local Abbreviation empty_rows :=
  (repeat (repeat EOS_IDX MAX_VALID_LEN) MAX_SEQ_LEN).

(** What [mark_locs] writes on a fresh step assignment. *)
Lemma mark_locs_tags (ols : list string) (l : list Z) :
  mark_locs LOCS (repeat (-1)%Z (List.length LOCS)) ols = Ok l ->
  List.length l = List.length LOCS
  /\ (forall loc, In loc ols ->
                  exists j, Py.index LOCS loc = Ok j
                            /\ nth_error l j = Some (-2)%Z)
  /\ (forall j, j < List.length LOCS ->
                (forall loc, In loc ols -> Py.index LOCS loc <> Ok j) ->
                nth_error l j = Some (-1)%Z).
Proof.
  unfold mark_locs; intros H.
  apply bind_ok_inv in H; destruct H as (js & Hjs & H).
  inversion H; subst; clear H.
  apply mapM_Forall2 in Hjs.
  destruct (fold_set_nth_spec (-2)%Z js (repeat (-1)%Z (List.length LOCS)))
    as [H1 H2].
  split; [|split].
  - destruct (fold_set_nth_shape (fun _ : Z => True) (-2)%Z js
                (repeat (-1)%Z (List.length LOCS))) as [Hl _];
      [apply Forall_forall; auto | exact I|].
    rewrite Hl; apply repeat_length.
  - intros loc Hin.
    assert (Hj : exists j, Py.index LOCS loc = Ok j /\ In j js).
    { clear - Hjs Hin; induction Hjs as [|a b la lb Hab _ IH];
        [destruct Hin|].
      destruct Hin as [->|Hin]; [exists b; split; [exact Hab | left; auto]|].
      destruct (IH Hin) as (j & Hj & Hjn); exists j; split; [exact Hj|].
      right; exact Hjn. }
    destruct Hj as (j & Hj & Hjn); exists j; split; [exact Hj|].
    apply H1; [exact Hjn|]; rewrite repeat_length.
    apply index_nth in Hj; apply nth_error_Some; congruence.
  - intros j Hjl Hno; rewrite H2; [apply nth_error_repeat; exact Hjl|].
    intros Hin.
    assert (Hloc : exists loc, In loc ols /\ Py.index LOCS loc = Ok j).
    { clear - Hjs Hin; induction Hjs as [|a b la lb Hab _ IH];
        [destruct Hin|].
      destruct Hin as [->|Hin]; [exists a; split; [left; auto | exact Hab]|].
      destruct (IH Hin) as (loc & Hl & Hj); exists loc; split; [right|]; auto. }
    destruct Hloc as (loc & Hl & Hj); exact (Hno loc Hl Hj).
Qed.

(** On a turn with builds or disbands owed, a result tags every orderable
    location of the power with -2 in the step assignment and leaves every
    other location at -1; the step count is the number of builds or of
    disbands owed. *)
Theorem adjustment_turn_tags (power : string)
  (all_possible_orders all_orderable_locations : Py.dict (list string))
  (builds : Py.dict Z) (locs : list string) (n_builds : Z)
  (all_order_idxs : list (list (list Z))) (loc_idxs : list (list Z))
  (n : Z) :
  Py.get all_orderable_locations power = Some locs ->
  Py.get builds power = Some n_builds ->
  n_builds <> 0%Z ->
  impl power all_possible_orders all_orderable_locations builds
  = Ok (all_order_idxs, loc_idxs, n) ->
  n = Z.abs n_builds
  /\ exists l,
       loc_idxs = [l]
       /\ (forall loc, In loc locs ->
                       exists j, Py.index LOCS loc = Ok j
                                 /\ nth_error l j = Some (-2)%Z)
       /\ (forall j, j < List.length LOCS ->
                     (forall loc, In loc locs -> Py.index LOCS loc <> Ok j) ->
                     nth_error l j = Some (-1)%Z).
Proof.
  intros Hget Hb Hn H.
  unfold get_valid_orders_impl, Py.mem in H; rewrite Hget in H.
  cbn [negb] in H.
  unfold Py.lookup at 1 in H; rewrite Hget in H; cbn [bind] in H.
  apply bind_ok_inv in H; destruct H as (ols & Hsort & H).
  apply bind_ok_inv in H; destruct H as (cands & _ & H).
  unfold Py.lookup at 1 in H; rewrite Hb in H; cbn [bind] in H.
  pose proof (sort_orderable_perm _ _ _ _ Hsort) as Hperm.
  assert (Hfin : forall t1 l1 m,
             mark_locs LOCS (repeat (-1)%Z (List.length LOCS)) ols = Ok l1 ->
             Ok ([t1], [l1], m) = Ok (all_order_idxs, loc_idxs, n) ->
             m = Z.abs n_builds ->
             n = Z.abs n_builds
             /\ exists l,
                  loc_idxs = [l]
                  /\ (forall loc, In loc locs ->
                                  exists j, Py.index LOCS loc = Ok j
                                            /\ nth_error l j = Some (-2)%Z)
                  /\ (forall j, j < List.length LOCS ->
                                (forall loc, In loc locs ->
                                             Py.index LOCS loc <> Ok j) ->
                                nth_error l j = Some (-1)%Z)).
  { intros t1 l1 m Hm He Habs; inversion He; subst.
    destruct (mark_locs_tags _ _ Hm) as (_ & H1 & H2).
    split; [reflexivity|]; exists l1; split; [reflexivity|]; split.
    - intros loc Hin; apply H1.
      eapply Permutation_in; [apply Permutation_sym; exact Hperm | exact Hin].
    - intros j Hj Hno; apply H2; [exact Hj|].
      intros loc Hin; apply Hno.
      eapply Permutation_in; [exact Hperm | exact Hin]. }
  destruct (0 <? n_builds)%Z eqn:Epos.
  - apply Z.ltb_lt in Epos.
    apply bind_ok_inv in H; destruct H as (ids & _ & H).
    apply bind_ok_inv in H; destruct H as (t1 & _ & H).
    apply bind_ok_inv in H; destruct H as (l1 & Hl1 & H).
    apply (Hfin _ _ _ Hl1 H); lia.
  - apply Z.ltb_ge in Epos.
    destruct (n_builds <? 0)%Z eqn:Eneg; [|apply Z.ltb_ge in Eneg; lia].
    apply Z.ltb_lt in Eneg.
    apply bind_ok_inv in H; destruct H as (r & _ & H).
    apply bind_ok_inv in H; destruct H as (t1 & _ & H).
    apply bind_ok_inv in H; destruct H as (l1 & Hl1 & H).
    apply (Hfin _ _ _ Hl1 H); lia.
Qed.

(** On a turn with [-n_builds] disbands owed, the first [-n_builds] steps
    (at most [MAX_SEQ_LEN]) all hold the same row: the sorted ids of the
    candidates of all the orderable locations that the vocabulary
    resolves, before the padding; the other steps are padding.  The step
    count is the number of disbands, also past [MAX_SEQ_LEN]. *)
Theorem disband_turn_rows (power : string)
  (all_possible_orders all_orderable_locations : Py.dict (list string))
  (builds : Py.dict Z) (locs ols : list string)
  (cands : list (list string)) (n_builds : Z) :
  let stripped := Py.map_values strip_waive all_possible_orders in
  let ids := Py.sorted_Z (ids_of (List.concat cands)) in
  let r := Z.to_nat (- n_builds) in
  Py.get all_orderable_locations power = Some locs ->
  sort_orderable LOCS stripped locs = Ok ols ->
  mapM (Py.lookup stripped) ols = Ok cands ->
  Forall (fun loc => In loc LOCS) ols ->
  Py.get builds power = Some n_builds ->
  (n_builds < 0)%Z ->
  List.length ids <= MAX_VALID_LEN ->
  exists l,
    impl power all_possible_orders all_orderable_locations builds
    = Ok ([repeat (padded_row EOS_IDX ids) (Nat.min r MAX_SEQ_LEN)
           ++ repeat (repeat EOS_IDX MAX_VALID_LEN) (MAX_SEQ_LEN - r)],
          [l], (- n_builds)%Z).
Proof.
  intros stripped ids r Hget Hsort Hc Hlocs Hb Hneg Hfit.
  subst stripped.
  assert (Hmark : exists js, mapM (Py.index LOCS) ols = Ok js).
  { apply mapM_total; eapply Forall_impl; [|exact Hlocs].
    intros loc Hin; apply index_In_total; exact Hin. }
  destruct Hmark as [js Hjs].
  eexists.
  unfold get_valid_orders_impl, Py.mem; rewrite Hget; cbn [negb].
  unfold Py.lookup at 1; rewrite Hget; cbn [bind].
  rewrite Hsort; cbn [bind]; rewrite Hc; cbn [bind].
  unfold Py.lookup at 1; rewrite Hb; cbn [bind].
  destruct (0 <? n_builds)%Z eqn:Epos; [apply Z.ltb_lt in Epos; lia|].
  destruct (n_builds <? 0)%Z eqn:Eneg; [|apply Z.ltb_ge in Eneg; lia].
  destruct (filter_orders_in_vocab_ids ORDER_VOCABULARY (List.concat cands))
    as (Hf & _).
  rewrite Hf; cbn [bind snd].
  unfold assign_rows; fold ids; fold r.
  destruct (List.length ids <=? MAX_VALID_LEN) eqn:E;
    [|apply Nat.leb_gt in E; lia].
  cbn [bind]; unfold mark_locs; rewrite Hjs; cbn [bind].
  rewrite firstn_repeat_min, skipn_repeat, map_repeat, set_prefix_padding.
  reflexivity.
Qed.

End AdjustmentTurn.

Lemma filter_orders_in_vocab_total_witness :
  filter_orders_in_vocab Ex.VOCAB ["A PAR H"; "A XXX H"; "F STP/SC - BAR"]
  = Ok (["A PAR H"; "F STP/SC - BAR"], [0; 2]%Z).
Proof.
  exact (proj1 (filter_orders_in_vocab_total Ex.VOCAB
                  ["A PAR H"; "A XXX H"; "F STP/SC - BAR"])).
Defined.

Lemma get_valid_orders_impl_shape_witness :
  exists all_order_idxs loc_idxs n,
    get_valid_orders_impl Ex.LOCS Ex.VOCAB Ex.EOS "FRANCE"
      Ex2.move_possible_orders Ex2.orderable [("FRANCE", 0%Z)]
    = Ok (all_order_idxs, loc_idxs, n)
    /\ candidate_shape all_order_idxs
    /\ assignment_shape Ex.LOCS loc_idxs
    /\ (0 <= n)%Z.
Proof.
  assert (H : exists r,
             get_valid_orders_impl Ex.LOCS Ex.VOCAB Ex.EOS "FRANCE"
               Ex2.move_possible_orders Ex2.orderable [("FRANCE", 0%Z)]
             = Ok r)
    by (eexists; vm_compute; reflexivity).
  destruct H as [[[a l] n] H]; exists a, l, n; split; [exact H|].
  exact (get_valid_orders_impl_shape Ex.LOCS Ex.VOCAB Ex.EOS _ _ _ _ _ _ _ H).
Defined.


Lemma move_turn_too_many_locations_witness :
  get_valid_orders_impl Ex2.locs18 Ex2.vocab18 Ex.EOS "RUSSIA"
    Ex2.holds18 [("RUSSIA", Ex2.locs18)] [("RUSSIA", 0%Z)]
  = Raise IndexError.
Proof.
  apply (move_turn_too_many_locations Ex2.locs18 Ex2.vocab18 Ex.EOS "RUSSIA"
           Ex2.holds18 [("RUSSIA", Ex2.locs18)] [("RUSSIA", 0%Z)]
           Ex2.locs18 Ex2.locs18).
  - reflexivity.
  - vm_compute; reflexivity.
  - repeat (apply Forall_cons || apply Forall_nil);
      (split; [simpl; tauto|]; eexists; split; [reflexivity|];
       apply Nat.leb_le; vm_compute; reflexivity).
  - apply Nat.ltb_lt; vm_compute; reflexivity.
  - reflexivity.
Defined.

Lemma adjustment_turn_tags_witness :
  exists a l,
    get_valid_orders_impl Ex.LOCS Ex.VOCAB Ex.EOS "FRANCE"
      Ex.build_possible_orders Ex.build_orderable [("FRANCE", 2%Z)]
    = Ok (a, [l], 2%Z)
    /\ nth_error l 1 = Some (-2)%Z
    /\ nth_error l 2 = Some (-2)%Z
    /\ nth_error l 0 = Some (-1)%Z.
Proof.
  assert (H : exists r,
             get_valid_orders_impl Ex.LOCS Ex.VOCAB Ex.EOS "FRANCE"
               Ex.build_possible_orders Ex.build_orderable [("FRANCE", 2%Z)]
             = Ok r)
    by (eexists; vm_compute; reflexivity).
  destruct H as [[[a ls] n] H].
  destruct (adjustment_turn_tags Ex.LOCS Ex.VOCAB Ex.EOS "FRANCE"
              Ex.build_possible_orders Ex.build_orderable [("FRANCE", 2%Z)]
              ["PAR"; "MAR"] 2%Z a ls n eq_refl eq_refl)
    as (Hn & l & -> & H1 & H2); [discriminate | exact H|].
  simpl in Hn; subst n; exists a, l; split; [exact H|].
  destruct (H1 "MAR" (or_intror (or_introl eq_refl))) as (j0 & Hj0 & Hl0).
  destruct (H1 "PAR" (or_introl eq_refl)) as (j1 & Hj1 & Hl1).
  vm_compute in Hj0, Hj1; inversion Hj0; inversion Hj1; subst.
  split; [exact Hl0|]; split; [exact Hl1|].
  apply H2; [simpl; lia|].
  intros loc [<-|[<-|[]]]; vm_compute; discriminate.
Defined.

Lemma disband_turn_rows_witness :
  exists l,
    get_valid_orders_impl Ex.LOCS Ex2.disband_vocab Ex.EOS "FRANCE"
      Ex2.disband_possible_orders Ex2.orderable [("FRANCE", (-2)%Z)]
    = Ok ([repeat (padded_row Ex.EOS [0; 2]%Z) 2
           ++ repeat (repeat Ex.EOS MAX_VALID_LEN) (MAX_SEQ_LEN - 2)],
          [l], 2%Z).
Proof.
  destruct (disband_turn_rows Ex.LOCS Ex2.disband_vocab Ex.EOS "FRANCE"
              Ex2.disband_possible_orders Ex2.orderable [("FRANCE", (-2)%Z)]
              ["PAR"; "MAR"] ["MAR"; "PAR"] [["A MAR D"]; ["A PAR D"]]
              (-2)%Z)
    as [l H].
  - reflexivity.
  - reflexivity.
  - reflexivity.
  - repeat constructor; simpl; tauto.
  - reflexivity.
  - lia.
  - apply Nat.leb_le; vm_compute; reflexivity.
  - exists l; exact H.
Defined.

(** ** Orders without a coast, labels and their decoding *)

Lemma remove_without_head (c : ascii) (pat s : string) :
  contains_char c s = false -> Py.remove (String c pat) s = s.
Proof.
  unfold Py.remove, contains_char.
  induction s as [|a s IH]; simpl; intros H; [reflexivity|].
  apply orb_false_iff in H; destruct H as [Ha Hs].
  destruct (ascii_dec c a) as [->|Hne].
  - rewrite Ascii.eqb_refl in Ha; discriminate.
  - rewrite (IH Hs); reflexivity.
Qed.

(** An order without the character ['/'] gets nothing from the fallback:
    it is left as it is, and [smarter_order_index] is the direct lookup,
    hit or miss. *)
Theorem smarter_order_index_without_coast (ORDER_VOCABULARY : list string)
  (order : string) :
  contains_char "/" order = false ->
  strip_coasts order = order
  /\ smarter_order_index ORDER_VOCABULARY order
     = ORDER_VOCABULARY_TO_IDX ORDER_VOCABULARY order.
Proof.
  intros H.
  assert (Hs : strip_coasts order = order).
  { unfold strip_coasts, coast_suffixes; simpl.
    do 4 (rewrite (remove_without_head "/"%char _ order H)); reflexivity. }
  split; [exact Hs|].
  unfold smarter_order_index; rewrite Hs.
  destruct (ORDER_VOCABULARY_TO_IDX ORDER_VOCABULARY order) as [i|e] eqn:E;
    [reflexivity|].
  pose proof (ORDER_VOCABULARY_TO_IDX_raises _ _ _ E); subst e; reflexivity.
Qed.

Lemma find_pos_first (row : list Z) (idx : Z) :
  forall c, find_pos row idx = Some c ->
            nth_error row c = Some idx
            /\ forall c', c' < c -> nth_error row c' <> Some idx.
Proof.
  induction row as [|v row IH]; simpl; intros c H; [discriminate|].
  destruct (Z.eqb v idx) eqn:E.
  - inversion H; subst; apply Z.eqb_eq in E; subst.
    split; [reflexivity | intros c' Hc; lia].
  - destruct (find_pos row idx) as [c0|]; [|discriminate].
    inversion H; subst; destruct (IH c0 eq_refl) as [H1 H2].
    split; [exact H1|].
    intros [|c'] Hc; simpl.
    + intros Hv; inversion Hv; subst; rewrite Z.eqb_refl in E; discriminate.
    + apply H2; lia.
Qed.

Section Labels.

Variable LOCS : list string.
Variable ORDER_VOCABULARY : list string.
Variable EOS_IDX : Z.

Local Abbreviation encode :=
  (encode_power_actions LOCS ORDER_VOCABULARY EOS_IDX).
Local Abbreviation ids_of := (resolved_ids ORDER_VOCABULARY).
Local Abbreviation in_range := (label_in_range EOS_IDX).

Lemma locate_orders_in_range (x : list (list Z)) (order_idxs : list Z) :
  forall i y,
    (forall k v, nth_error y k = Some v -> in_range x k v) ->
    forall k v,
      nth_error (fst (locate_orders x i order_idxs y)) k = Some v ->
      in_range x k v.
Proof.
  induction order_idxs as [|idx rest IH]; simpl; intros i y Hy; [exact Hy|].
  destruct (nth_error x i) as [row|] eqn:Er; [|exact Hy].
  destruct (find_pos row idx) as [c|] eqn:Ec; [|exact Hy].
  destruct (i <? List.length y) eqn:Ei; [|exact Hy].
  apply IH; intros k v Hk.
  destruct (Nat.eq_dec i k) as [<-|Hne].
  - apply Nat.ltb_lt in Ei; rewrite set_nth_same in Hk by exact Ei.
    inversion Hk; subst; right; exists row; split; [exact Er|].
    destruct (find_pos_first _ _ _ Ec) as [Hn _].
    assert (c < List.length row) by (apply nth_error_Some; congruence).
    lia.
  - rewrite set_nth_other in Hk by exact Hne; apply Hy; exact Hk.
Qed.

(** Valid or not, build or not, the labels that [encode_power_actions]
    returns fill the [MAX_SEQ_LEN] places, and each is the sentinel or a
    position inside the candidate list of its step. *)
Theorem labels_in_range (orders : list string) (x : list (list Z))
  (labels : list Z) (valid : bool) :
  encode orders x = Ok (labels, valid) ->
  List.length labels = MAX_SEQ_LEN
  /\ forall k v, nth_error labels k = Some v -> in_range x k v.
Proof.
  intros H; split; [eapply encode_power_actions_length; exact H|].
  assert (H0 : forall k v,
             nth_error (repeat EOS_IDX MAX_SEQ_LEN) k = Some v ->
             in_range x k v).
  { intros k v Hk; left; apply nth_error_In, repeat_spec in Hk; exact Hk. }
  assert (Hloc : forall idxs l b,
             (order_idxs <- sort_by_loc LOCS ORDER_VOCABULARY idxs ;;
              Ok (locate_orders x 0 order_idxs (repeat EOS_IDX MAX_SEQ_LEN)))
             = Ok (l, b) ->
             forall k v, nth_error l k = Some v -> in_range x k v).
  { intros idxs l b Hr; apply bind_ok_inv in Hr.
    destruct Hr as (sorted & _ & Hr); inversion Hr as [Hr'].
    intros k v Hk.
    apply (locate_orders_in_range x sorted 0 _ H0 k v).
    rewrite Hr'; exact Hk. }
  unfold encode_power_actions in H.
  destruct (existsb _ orders); [inversion H; subst; exact H0|].
  destruct (existsb is_build orders).
  - destruct (forallb is_build orders); [|discriminate].
    destruct (ORDER_VOCABULARY_TO_IDX ORDER_VOCABULARY _) as [idx|[]];
      try discriminate.
    + apply (Hloc _ _ _ H).
    + inversion H; subst; exact H0.
  - apply bind_ok_inv in H; destruct H as (idxs & _ & H).
    apply (Hloc _ _ _ H).
Qed.

Lemma locate_orders_valid (x : list (list Z)) (order_idxs : list Z) :
  forall i y labels,
    locate_orders x i order_idxs y = (labels, true) ->
    (forall k idx,
        nth_error order_idxs k = Some idx ->
        exists c, candidate_pos x (i + k) idx = Some c
                  /\ nth_error labels (i + k) = Some (Z.of_nat c))
    /\ (forall p, p < i \/ i + List.length order_idxs <= p ->
                  nth_error labels p = nth_error y p).
Proof.
  induction order_idxs as [|idx rest IH]; simpl; intros i y labels H.
  - inversion H; subst; split; [intros [|k] ? Hk; discriminate | auto].
  - destruct (nth_error x i) as [row|] eqn:Er; [|discriminate].
    destruct (find_pos row idx) as [c|] eqn:Ec; [|discriminate].
    destruct (i <? List.length y) eqn:Ei; [|discriminate].
    apply Nat.ltb_lt in Ei.
    destruct (IH _ _ _ H) as [Hk Hp]; split.
    + intros [|k] idx' Hnth; simpl in Hnth.
      * inversion Hnth; subst idx'; exists c; rewrite Nat.add_0_r.
        split; [unfold candidate_pos; rewrite Er; exact Ec|].
        rewrite Hp by lia; apply set_nth_same; exact Ei.
      * destruct (Hk k idx' Hnth) as (c' & H1 & H2).
        replace (i + S k) with (S i + k) by lia; eauto.
    + intros p Hpp; rewrite Hp by lia; apply set_nth_other; lia.
Qed.

(** The labels of a valid sample decode to its orders: for a list without
    builds that is encoded as valid, label k is the first position, in the
    candidate list of step k, of the k-th id of the resolved orders in
    location order, and the labels past the orders are the sentinel. *)
Theorem valid_labels_decode (orders : list string) (x : list (list Z))
  (labels : list Z) :
  Forall (fun o => ~ short_order o) orders ->
  Forall (fun o => ~ build_order o) orders ->
  encode orders x = Ok (labels, true) ->
  exists sorted,
    sort_by_loc LOCS ORDER_VOCABULARY (ids_of orders) = Ok sorted
    /\ Permutation sorted (ids_of orders)
    /\ (forall k idx,
          nth_error sorted k = Some idx ->
          exists c row,
            nth_error labels k = Some (Z.of_nat c)
            /\ nth_error x k = Some row
            /\ nth_error row c = Some idx
            /\ forall c', c' < c -> nth_error row c' <> Some idx)
    /\ (forall k, List.length sorted <= k < MAX_SEQ_LEN ->
                  nth_error labels k = Some EOS_IDX).
Proof.
  intros Hlen Hnb H; unfold encode_power_actions in H.
  rewrite (existsb_short_false _ Hlen) in H.
  rewrite (existsb_is_build_false _ Hlen Hnb) in H.
  rewrite resolve_orders_ids in H; cbn [bind] in H.
  apply bind_ok_inv in H; destruct H as (sorted & Hsort & H).
  inversion H as [Hloc]; clear H.
  destruct (sort_by_loc_sorted _ _ _ _ Hsort) as [Hperm _].
  destruct (locate_orders_valid _ _ _ _ _ Hloc) as [Hk Hp].
  exists sorted; split; [exact Hsort|]; split; [exact Hperm|]; split.
  - intros k idx Hnth; destruct (Hk k idx Hnth) as (c & Hc & Hl).
    simpl in Hc, Hl; unfold candidate_pos in Hc.
    destruct (nth_error x k) as [row|] eqn:Er; [|discriminate].
    destruct (find_pos_first _ _ _ Hc) as [H1 H2].
    exists c, row; auto.
  - intros k Hkk; rewrite Hp by (simpl; lia).
    apply nth_error_repeat; lia.
Qed.

End Labels.

(** ** The order of the orders *)

Lemma sorted_perm_unique {A : Type} (R : A -> A -> Prop) :
  (forall a b c, R a b -> R b c -> R a c) ->
  forall l1 l2,
    Sorted R l1 -> Sorted R l2 -> Permutation l1 l2 ->
    (forall a b, In a l1 -> In b l1 -> R a b -> R b a -> a = b) ->
    l1 = l2.
Proof.
  intros Htrans l1 l2 H1 H2.
  apply Sorted_StronglySorted in H1; [|exact Htrans].
  apply Sorted_StronglySorted in H2; [|exact Htrans].
  revert l2 H2; induction H1 as [|a l1 Hs1 IH Ha]; intros l2 H2 Hp Hanti.
  - apply Permutation_nil in Hp; subst; reflexivity.
  - destruct l2 as [|b l2];
      [apply Permutation_sym, Permutation_nil in Hp; discriminate|].
    inversion H2 as [|? ? Hs2 Hb]; subst.
    assert (Hab : a = b).
    { assert (Hin_a : In a (b :: l2))
        by (eapply Permutation_in; [exact Hp | left; reflexivity]).
      assert (Hin_b : In b (a :: l1))
        by (eapply Permutation_in;
            [apply Permutation_sym; exact Hp | left; reflexivity]).
      destruct Hin_a as [->|Hin_a]; [reflexivity|].
      destruct Hin_b as [->|Hin_b]; [reflexivity|].
      rewrite Forall_forall in Ha, Hb.
      apply Hanti; [left; reflexivity | right; exact Hin_b
                    | apply Ha; exact Hin_b | apply Hb; exact Hin_a]. }
    subst b; f_equal; apply IH.
    + exact Hs2.
    + eapply Permutation_cons_inv; exact Hp.
    + intros x y Hx Hy; apply Hanti; right; assumption.
Qed.

Section OrderOfOrders.

Variable LOCS : list string.
Variable ORDER_VOCABULARY : list string.
Variable EOS_IDX : Z.

Local Abbreviation encode :=
  (encode_power_actions LOCS ORDER_VOCABULARY EOS_IDX).
Local Abbreviation ids_of := (resolved_ids ORDER_VOCABULARY).
Local Abbreviation rank := (loc_rank LOCS ORDER_VOCABULARY).
Local Abbreviation key_ok :=
  (fun idx => exists k, loc_key LOCS ORDER_VOCABULARY idx = Ok k).

Lemma sort_by_loc_ranked (order_idxs : list Z) :
  Forall key_ok order_idxs ->
  sort_by_loc LOCS ORDER_VOCABULARY order_idxs
  = Ok (Py.sorted_by_key (map (fun idx => (rank idx, idx)) order_idxs)).
Proof.
  intros H; unfold sort_by_loc.
  rewrite (mapM_map _ (fun idx => (rank idx, idx))); [reflexivity|].
  eapply Forall_impl; [|exact H]; intros idx [k Hk]; simpl.
  unfold loc_rank; rewrite Hk; reflexivity.
Qed.

Lemma sorted_by_rank_unique (ids1 ids2 : list Z) :
  Permutation ids1 ids2 ->
  NoDup (map rank ids1) ->
  Py.sorted_by_key (map (fun idx => (rank idx, idx)) ids1)
  = Py.sorted_by_key (map (fun idx => (rank idx, idx)) ids2).
Proof.
  intros Hp Hnd; unfold Py.sorted_by_key; f_equal.
  set (g := fun idx : Z => (rank idx, idx)).
  set (leb := fun a b : nat * Z => fst a <=? fst b).
  apply (sorted_perm_unique (fun a b : nat * Z => fst a <= fst b)).
  - intros a b c; lia.
  - apply sort_sorted; intros a b Hab;
      [apply Nat.leb_le; exact Hab | apply Nat.leb_gt in Hab; lia].
  - apply sort_sorted; intros a b Hab;
      [apply Nat.leb_le; exact Hab | apply Nat.leb_gt in Hab; lia].
  - eapply perm_trans; [apply sort_perm|].
    eapply perm_trans; [apply Permutation_map; exact Hp|].
    apply Permutation_sym, sort_perm.
  - intros a b Ha Hb Hab Hba.
    assert (Ha' : In a (map g ids1))
      by (eapply Permutation_in; [apply sort_perm | exact Ha]).
    assert (Hb' : In b (map g ids1))
      by (eapply Permutation_in; [apply sort_perm | exact Hb]).
    apply in_map_iff in Ha', Hb'.
    destruct Ha' as (ia & <- & Hia); destruct Hb' as (ib & <- & Hib).
    simpl in Hab, Hba.
    assert (Hr : rank ia = rank ib) by lia.
    assert (ia = ib); [|subst; reflexivity].
    clear - Hnd Hia Hib Hr.
    induction ids1 as [|i ids IH]; [destruct Hia|].
    simpl in Hnd; inversion Hnd as [|? ? Hnot Hnd']; subst.
    destruct Hia as [->|Hia]; destruct Hib as [->|Hib]; auto.
    + exfalso; apply Hnot; rewrite Hr; apply in_map; exact Hib.
    + exfalso; apply Hnot; rewrite <- Hr; apply in_map; exact Hia.
Qed.

(** The order in which the orders of a list without builds are given does
    not matter, when no two of its resolved orders have their unit in the
    same location: a rearranged list is encoded to the same labels and
    validity. *)
Theorem order_of_orders_irrelevant (orders1 orders2 : list string)
  (x : list (list Z)) :
  Permutation orders1 orders2 ->
  Forall (fun o => ~ short_order o) orders1 ->
  Forall (fun o => ~ build_order o) orders1 ->
  Forall key_ok (ids_of orders1) ->
  NoDup (map rank (ids_of orders1)) ->
  encode orders1 x = encode orders2 x.
Proof.
  intros Hp Hlen Hnb Hkeys Hnd.
  assert (Hlen2 : Forall (fun o => ~ short_order o) orders2)
    by (eapply Permutation_Forall; eassumption).
  assert (Hnb2 : Forall (fun o => ~ build_order o) orders2)
    by (eapply Permutation_Forall; eassumption).
  assert (Hids : Permutation (ids_of orders1) (ids_of orders2))
    by (unfold resolved_ids; apply Permutation_flat_map; exact Hp).
  assert (Hkeys2 : Forall key_ok (ids_of orders2))
    by (eapply Permutation_Forall; eassumption).
  unfold encode_power_actions.
  rewrite (existsb_short_false _ Hlen), (existsb_short_false _ Hlen2).
  rewrite (existsb_is_build_false _ Hlen Hnb).
  rewrite (existsb_is_build_false _ Hlen2 Hnb2).
  rewrite !resolve_orders_ids; cbn [bind].
  rewrite (sort_by_loc_ranked _ Hkeys), (sort_by_loc_ranked _ Hkeys2).
  rewrite (sorted_by_rank_unique _ _ Hids Hnd); reflexivity.
Qed.

End OrderOfOrders.

Lemma smarter_order_index_without_coast_witness :
  strip_coasts "A MAR - BUR" = "A MAR - BUR"
  /\ smarter_order_index Ex.VOCAB "A MAR - BUR"
     = ORDER_VOCABULARY_TO_IDX Ex.VOCAB "A MAR - BUR".
Proof.
  apply (smarter_order_index_without_coast Ex.VOCAB "A MAR - BUR").
  reflexivity.
Defined.

Lemma labels_in_range_witness :
  List.length ([1; 0]%Z ++ repeat Ex.EOS 15) = MAX_SEQ_LEN
  /\ forall k v,
       nth_error ([1; 0]%Z ++ repeat Ex.EOS 15) k = Some v ->
       label_in_range Ex.EOS Ex.move_candidates k v.
Proof.
  apply (labels_in_range Ex.LOCS Ex.VOCAB Ex.EOS ["A PAR H"; "A MAR - BUR"]
           Ex.move_candidates _ true).
  vm_compute; reflexivity.
Defined.

Lemma valid_labels_decode_witness :
  exists sorted,
    sort_by_loc Ex.LOCS Ex.VOCAB
      (resolved_ids Ex.VOCAB ["A PAR H"; "A MAR - BUR"]) = Ok sorted
    /\ Permutation sorted (resolved_ids Ex.VOCAB ["A PAR H"; "A MAR - BUR"]).
Proof.
  destruct (valid_labels_decode Ex.LOCS Ex.VOCAB Ex.EOS
              ["A PAR H"; "A MAR - BUR"] Ex.move_candidates
              ([1; 0]%Z ++ repeat Ex.EOS 15))
    as (sorted & H1 & H2 & _).
  - repeat constructor; unfold short_order; simpl; lia.
  - repeat constructor; unfold build_order; simpl; discriminate.
  - vm_compute; reflexivity.
  - exists sorted; split; assumption.
Defined.

Lemma order_of_orders_irrelevant_witness :
  encode_power_actions Ex.LOCS Ex.VOCAB Ex.EOS ["A PAR H"; "A MAR - BUR"]
    Ex.move_candidates
  = encode_power_actions Ex.LOCS Ex.VOCAB Ex.EOS ["A MAR - BUR"; "A PAR H"]
      Ex.move_candidates.
Proof.
  apply (order_of_orders_irrelevant Ex.LOCS Ex.VOCAB Ex.EOS
           ["A PAR H"; "A MAR - BUR"] ["A MAR - BUR"; "A PAR H"]).
  - apply perm_swap.
  - repeat constructor; unfold short_order; simpl; lia.
  - repeat constructor; unfold build_order; simpl; discriminate.
  - repeat constructor; eexists; vm_compute; reflexivity.
  - vm_compute; repeat constructor; simpl; intuition discriminate.
Defined.

(** ** The score target at the edges *)

Section YearEnds.

Variable State : Type.

(** The turns that weigh in the score target are the last recorded turns
    of their years: a name is in [end_of_year_phases] exactly when a turn
    has this name and no turn after it is of the same year. *)
Theorem year_end_is_last_of_its_year (phases : list (Phase State))
  (ends : list string) :
  end_of_year_phases phases = Ok ends ->
  forall n,
    In n ends
    <-> exists l1 ph l2 y,
          phases = l1 ++ ph :: l2 /\ name ph = n /\ year_of n = Ok y
          /\ Forall (fun q => year_of (name q) <> Ok y) l2.
Proof.
  unfold end_of_year_phases; intros H n.
  apply bind_ok_inv in H; destruct H as (d & Hd & H); inversion H; subst.
  pose proof (year_table_spec _ phases [] d (NoDup_nil _) Hd) as Hspec.
  rewrite in_map_iff; split.
  - intros ([k v] & Hv & Hin); simpl in Hv; subst v.
    apply Hspec in Hin; destruct Hin as [(l1 & ph & l2 & H1)|[[] _]].
    exists l1, ph, l2, k; exact H1.
  - intros (l1 & ph & l2 & y & H1).
    exists (y, n); split; [reflexivity|].
    apply Hspec; left; exists l1, ph, l2; exact H1.
Qed.

End YearEnds.

Lemma year_end_is_last_of_its_year_witness :
  In "W1901A" ["W1901A"; "F1902M"; "S1903M"]
  <-> exists l1 ph l2 y,
        get_phase_history Ex.game = l1 ++ ph :: l2
        /\ name ph = "W1901A" /\ year_of "W1901A" = Ok y
        /\ Forall (fun q => year_of (name q) <> Ok y) l2.
Proof.
  apply (year_end_is_last_of_its_year nat (get_phase_history Ex.game)
           ["W1901A"; "F1902M"; "S1903M"]).
  vm_compute; reflexivity.
Defined.

Lemma year_table_raises {State : Type} (phases : list (Phase State)) :
  Exists (fun ph => year_of (name ph) = Raise ValueError) phases ->
  Forall (fun ph => year_of (name ph) = Raise ValueError
                    \/ exists y, year_of (name ph) = Ok y) phases ->
  forall d, year_table d phases = Raise ValueError.
Proof.
  induction phases as [|ph rest IH]; intros Hex Hall d.
  - inversion Hex.
  - inversion Hall as [|? ? Hph Hrest]; subst; simpl.
    unfold year_of in Hph; destruct Hph as [Hph|[y Hy]].
    + rewrite Hph; reflexivity.
    + rewrite Hy; cbn [bind]; apply IH; [|exact Hrest].
      inversion Hex as [? ? Habs|]; subst; [|assumption].
      unfold year_of in Habs; rewrite Hy in Habs; discriminate.
Qed.

Lemma int_raises (s : string) (e : exn) :
  Py.int s = Raise e -> e = ValueError.
Proof.
  unfold Py.int; intros H.
  repeat match type of H with
         | context [match ?x with _ => _ end] => destruct x; cbn [bind] in H
         end; congruence.
Qed.

Lemma running_sum_zero (w alpha : Q) (vs : list Q) :
  (w == 0)%Q -> (running_sum w alpha vs == 0)%Q.
Proof.
  revert w; induction vs as [|v vs IH]; simpl; intros w H; [reflexivity|].
  rewrite (IH (w * alpha)%Q) by (rewrite H; ring).
  rewrite H; ring.
Qed.

Section ScoreEdges.

Variable State : Type.
Variable square_score : nat -> State -> Q.

Local Abbreviation sq_scores := (sq_scores_of square_score 7).
Local Abbreviation encode_scores :=
  (encode_weighted_sos_scores square_score 7).
Local Abbreviation parses :=
  (fun ph : Phase State => exists y, year_of (name ph) = Ok y).

(** Any index other than that of the last turn: the year ends after it
    are weighted, the final scores take the rest. *)
Lemma encode_scores_general (game : Game State) (phase_idx : nat)
  (alpha : Q) :
  let phases := get_phase_history game in
  Z.of_nat phase_idx <> (Z.of_nat (List.length phases) - 1)%Z ->
  Forall parses phases ->
  List.length (get_square_scores game) = 7 ->
  exists ends result,
    end_of_year_phases phases = Ok ends
    /\ encode_scores game phase_idx alpha = Ok result
    /\ List.length result = 7
    /\ let year_ends :=
         filter (is_year_end ends) (skipn (phase_idx + 1) phases) in
       forall p, p < 7 ->
         (nth p result 0
          == running_sum (1 - alpha) alpha
               (map (fun ph => square_score p (state ph)) year_ends)
             + (1 - running_sum (1 - alpha) alpha
                      (repeat 1 (List.length year_ends)))
               * nth p (get_square_scores game) 0)%Q.
Proof.
  intros phases Hnot Hnames Hfinal.
  destruct (year_table_total State _ Hnames []) as [d Hd].
  exists (map snd d).
  unfold encode_weighted_sos_scores, end_of_year_phases; fold phases.
  replace (Z.of_nat phase_idx =? Z.of_nat (List.length phases) - 1)%Z
    with false by (symmetry; apply Z.eqb_neq; exact Hnot).
  rewrite Hd; cbn [bind].
  destruct (accumulate_sum State square_score alpha (map snd d)
              (skipn (phase_idx + 1) phases) (repeat 0%Q 7) 1%Q
              (1 - alpha)%Q eq_refl)
    as (a & Ha & Hl & Hs & Hr).
  rewrite Ha; cbn [bind].
  rewrite row_add_rows by (rewrite length_map, Hl; exact Hfinal).
  eexists; split; [reflexivity|]; split; [reflexivity|].
  split.
  { rewrite length_map, length_combine, length_map, Hl, Hfinal.
    reflexivity. }
  cbv zeta; intros p Hp.
  rewrite nth_row_sum by (rewrite ?length_map; lia).
  rewrite nth_scaled by lia.
  rewrite (Hs p Hp), Hr.
  assert (E0 : nth p (repeat 0%Q 7) 0%Q = 0%Q)
    by (do 7 (destruct p as [|p]; [reflexivity|]); lia).
  rewrite E0; ring.
Qed.

(** An index from the number of turns on is not rejected: no turn is after
    it, and the target is the final scores of the game.  This holds for a
    game without turns and the index 0 as well. *)
Theorem index_past_the_last_turn (game : Game State) (phase_idx : nat)
  (alpha : Q) :
  List.length (get_phase_history game) <= phase_idx ->
  Forall parses (get_phase_history game) ->
  List.length (get_square_scores game) = 7 ->
  exists result,
    encode_scores game phase_idx alpha = Ok result
    /\ List.length result = 7
    /\ forall p, p < 7 ->
         (nth p result 0 == nth p (get_square_scores game) 0)%Q.
Proof.
  intros Hlen Hnames Hfinal.
  destruct (encode_scores_general game phase_idx alpha)
    as (ends & result & _ & Hres & Hl & Hp); [lia | assumption..|].
  exists result; split; [exact Hres|]; split; [exact Hl|].
  intros p Hlt; rewrite (Hp p Hlt).
  rewrite skipn_all2 by lia; simpl; ring.
Qed.

(** The two ends of the decay.  With [value_decay_alpha = 1] no turn
    weighs and the target is the final scores of the game; with
    [value_decay_alpha = 0] the next year-end turn takes all the weight and
    the target is its square scores. *)
Theorem decay_extremes (game : Game State) (phase_idx : nat) :
  let phases := get_phase_history game in
  Z.of_nat phase_idx <> (Z.of_nat (List.length phases) - 1)%Z ->
  Forall parses phases ->
  List.length (get_square_scores game) = 7 ->
  exists ends result1 result0,
    end_of_year_phases phases = Ok ends
    /\ encode_scores game phase_idx 1 = Ok result1
    /\ encode_scores game phase_idx 0 = Ok result0
    /\ (forall p, p < 7 ->
          (nth p result1 0 == nth p (get_square_scores game) 0)%Q)
    /\ (forall ph rest,
          filter (is_year_end ends) (skipn (phase_idx + 1) phases)
          = ph :: rest ->
          forall p, p < 7 ->
            (nth p result0 0 == square_score p (state ph))%Q).
Proof.
  intros phases Hnot Hnames Hfinal.
  destruct (encode_scores_general game phase_idx 1 Hnot Hnames Hfinal)
    as (ends & result1 & He & H1 & _ & Hp1).
  destruct (encode_scores_general game phase_idx 0 Hnot Hnames Hfinal)
    as (ends' & result0 & He' & H0 & _ & Hp0).
  fold phases in He, He'; rewrite He in He'; inversion He'; subst ends'.
  exists ends, result1, result0.
  split; [exact He|]; split; [exact H1|]; split; [exact H0|]; split.
  - intros p Hlt; rewrite (Hp1 p Hlt).
    rewrite !running_sum_zero by ring; ring.
  - intros ph rest Hf p Hlt; rewrite (Hp0 p Hlt).
    fold phases; rewrite Hf; simpl.
    rewrite !running_sum_zero by ring; ring.
Qed.

(** The names of the turns are read only when the index is not that of
    the last turn: a name whose middle is not a number then makes the call
    raise [ValueError], wherever the turn is, before any score is
    computed. *)
Theorem malformed_turn_name (game : Game State) (phase_idx : nat)
  (alpha : Q) (ph : Phase State) :
  let phases := get_phase_history game in
  In ph phases ->
  (forall y, year_of (name ph) <> Ok y) ->
  (phase_idx = List.length phases - 1 ->
   exists result, encode_scores game phase_idx alpha = Ok result)
  /\ (phase_idx <> List.length phases - 1 ->
      encode_scores game phase_idx alpha = Raise ValueError).
Proof.
  intros phases Hin Hbad.
  assert (Hpos : List.length phases <> 0).
  { intros E0; apply length_zero_iff_nil in E0; rewrite E0 in Hin.
    destruct Hin. }
  split.
  - intros Hlast.
    destruct (nth_error phases phase_idx) as [phase|] eqn:E.
    + unfold encode_weighted_sos_scores; fold phases.
      replace (Z.of_nat phase_idx =? Z.of_nat (List.length phases) - 1)%Z
        with true
        by (symmetry; apply Z.eqb_eq; lia).
      unfold Py.getitem; rewrite E; cbn [bind].
      eexists; reflexivity.
    + apply nth_error_None in E; lia.
  - intros Hnot.
    unfold encode_weighted_sos_scores, end_of_year_phases; fold phases.
    replace (Z.of_nat phase_idx =? Z.of_nat (List.length phases) - 1)%Z
      with false
      by (symmetry; apply Z.eqb_neq; lia).
    rewrite year_table_raises; [reflexivity | |].
    + apply Exists_exists; exists ph; split; [exact Hin|].
      unfold year_of in *.
      destruct (Py.int (Py.slice_1_m1 (name ph))) as [y|e] eqn:E.
      * exfalso; apply (Hbad y); reflexivity.
      * apply int_raises in E; subst; reflexivity.
    + apply Forall_forall; intros q _; unfold year_of.
      destruct (Py.int (Py.slice_1_m1 (name q))) as [y|e] eqn:E.
      * right; eauto.
      * apply int_raises in E; subst; left; reflexivity.
Qed.

End ScoreEdges.

Lemma index_past_the_last_turn_witness :
  exists result,
    encode_weighted_sos_scores Ex.square_score 7 Ex.game 6 (1 # 2)
    = Ok result
    /\ List.length result = 7
    /\ forall p, p < 7 ->
         (nth p result 0 == nth p (get_square_scores Ex.game) 0)%Q.
Proof.
  apply (index_past_the_last_turn nat Ex.square_score Ex.game 6 (1 # 2)).
  - simpl; lia.
  - repeat constructor; eexists; vm_compute; reflexivity.
  - reflexivity.
Defined.

Lemma decay_extremes_witness :
  exists ends result1 result0,
    end_of_year_phases (get_phase_history Ex.game) = Ok ends
    /\ encode_weighted_sos_scores Ex.square_score 7 Ex.game 0 1 = Ok result1
    /\ encode_weighted_sos_scores Ex.square_score 7 Ex.game 0 0 = Ok result0
    /\ (forall p, p < 7 ->
          (nth p result1 0 == nth p (get_square_scores Ex.game) 0)%Q)
    /\ (forall ph rest,
          filter (is_year_end ends)
                 (skipn (0 + 1) (get_phase_history Ex.game))
          = ph :: rest ->
          forall p, p < 7 ->
            (nth p result0 0 == Ex.square_score p (state ph))%Q).
Proof.
  apply (decay_extremes nat Ex.square_score Ex.game 0).
  - simpl; lia.
  - repeat constructor; eexists; vm_compute; reflexivity.
  - reflexivity.
Defined.

Lemma malformed_turn_name_witness :
  let game := mkGame [mkPhase "S1901M" 1; mkPhase "COMPLETED" 2]
                     [1; 0; 0; 0; 0; 0; 0]%Q in
  (1 = List.length (get_phase_history game) - 1 ->
   exists result,
     encode_weighted_sos_scores Ex.square_score 7 game 1 (1 # 2)
     = Ok result)
  /\ (0 <> List.length (get_phase_history game) - 1 ->
      encode_weighted_sos_scores Ex.square_score 7 game 0 (1 # 2)
      = Raise ValueError).
Proof.
  intros game; split.
  - apply (malformed_turn_name nat Ex.square_score game 1 (1 # 2)
             (mkPhase "COMPLETED" 2)).
    + right; left; reflexivity.
    + intros y; vm_compute; discriminate.
  - apply (malformed_turn_name nat Ex.square_score game 0 (1 # 2)
             (mkPhase "COMPLETED" 2)).
    + right; left; reflexivity.
    + intros y; vm_compute; discriminate.
Defined.

(** ** The filters of a turn *)

Lemma has_orders_sentinels (EOS_IDX : Z) (n : nat) :
  existsb (fun v => negb (Z.eqb v EOS_IDX)) (repeat EOS_IDX n) = false.
Proof.
  induction n as [|n IH]; simpl; [reflexivity|].
  rewrite Z.eqb_refl, IH; reflexivity.
Qed.

Lemma clear_low_scores_spec (final_score : Py.dict Z) (min_score : Z)
  (powers : list string) :
  forall i0 v,
    i0 + List.length powers <= List.length v ->
    exists v',
      clear_low_scores final_score min_score i0 powers v = Ok v'
      /\ List.length v' = List.length v
      /\ (forall j power,
            nth_error powers j = Some power ->
            nth_error v' (i0 + j)
            = if (match Py.get final_score power with
                  | Some s => s | None => 0%Z end <? min_score)%Z
              then Some false else nth_error v (i0 + j))
      /\ (forall k, k < i0 -> nth_error v' k = nth_error v k).
Proof.
  induction powers as [|power rest IH]; simpl; intros i0 v Hlen.
  - exists v; split; [reflexivity|]; split; [reflexivity|].
    split; [intros [|j] p Hp; discriminate | reflexivity].
  - set (score := match Py.get final_score power with
                  | Some s => s | None => 0%Z end).
    set (v1 := if (score <? min_score)%Z then set_nth v i0 false else v).
    assert (H1 : (if (score <? min_score)%Z
                  then tensor_set v i0 false else Ok v) = Ok v1).
    { unfold v1, tensor_set; destruct (score <? min_score)%Z;
        [|reflexivity].
      replace (i0 <? List.length v) with true
        by (symmetry; apply Nat.ltb_lt; lia).
      reflexivity. }
    assert (Hl1 : List.length v1 = List.length v)
      by (unfold v1; destruct (score <? min_score)%Z;
          [apply set_nth_length | reflexivity]).
    destruct (IH (S i0) v1) as (v' & Hv' & Hl & Hj & Hk); [lia|].
    exists v'; rewrite H1; cbn [bind].
    split; [exact Hv'|]; split; [congruence|]; split.
    + intros [|j] p Hp; simpl in Hp.
      * inversion Hp; subst p; fold score.
        rewrite Nat.add_0_r, (Hk i0) by lia.
        unfold v1; destruct (score <? min_score)%Z; [|reflexivity].
        apply set_nth_same; lia.
      * replace (i0 + S j) with (S i0 + j) by lia.
        rewrite (Hj j p Hp).
        assert (E : nth_error v1 (S i0 + j) = nth_error v (S i0 + j)).
        { unfold v1; destruct (score <? min_score)%Z; [|reflexivity].
          apply set_nth_other; lia. }
        rewrite E; reflexivity.
    + intros k Hlt; rewrite (Hk k) by lia.
      unfold v1; destruct (score <? min_score)%Z; [|reflexivity].
      apply set_nth_other; lia.
Qed.

Section PhaseFilters.

Variable LOCS : list string.
Variable ORDER_VOCABULARY : list string.
Variable EOS_IDX : Z.
Variable POWERS : list string.
Variable State : Type.
Variable square_score : nat -> State -> Q.
Variable game : Game State.
Variable phase_idx : nat.
Variable value_decay_alpha : Q.

Local Abbreviation encode :=
  (encode_power_actions LOCS ORDER_VOCABULARY EOS_IDX).
Local Abbreviation samples :=
  (encode_samples LOCS ORDER_VOCABULARY EOS_IDX).
Local Abbreviation powers_loop :=
  (encode_powers LOCS ORDER_VOCABULARY EOS_IDX).
Local Abbreviation phase :=
  (encode_phase LOCS ORDER_VOCABULARY EOS_IDX POWERS square_score game
     phase_idx value_decay_alpha).
Local Abbreviation holds_test n orders :=
  (Z.leb 0%Z n && Z.leb n (Z.of_nat (List.length orders))
   && forallb (fun o => Py.endswith o " H") orders)%bool.

Lemma all_holds_test (exclude_n_holds : Z) (orders : list string) :
  all_holds exclude_n_holds orders ->
  holds_test exclude_n_holds orders = true.
Proof.
  intros [[H0 H1] Hall].
  apply andb_true_iff; split; [apply andb_true_iff; split|].
  - apply Z.leb_le; exact H0.
  - apply Z.leb_le; exact H1.
  - apply forallb_forall; rewrite Forall_forall in Hall; exact Hall.
Qed.


(** A loop over the samples that returns has met no sample of holds. *)
Lemma encode_samples_no_holds (exclude_n_holds : Z) (power_i : nat)
  (x : list (list (list Z))) (orders_samples : list (list string)) :
  forall v r,
    samples exclude_n_holds power_i x orders_samples v = Ok r ->
    Forall (fun orders => holds_test exclude_n_holds orders = false)
           orders_samples.
Proof.
  induction orders_samples as [|orders rest IH]; simpl; intros v r H;
    [constructor|].
  apply bind_ok_inv in H; destruct H as (xp & _ & H).
  apply bind_ok_inv in H; destruct H as (l & _ & H).
  apply bind_ok_inv in H; destruct H as (bit & _ & H).
  apply bind_ok_inv in H; destruct H as (v1 & Hset & H).
  apply bind_ok_inv in H; destruct H as (r' & Hrest & _).
  constructor; [|apply (IH _ _ Hrest)].
  destruct (holds_test exclude_n_holds orders);
    [discriminate | reflexivity].
Qed.

(** Without a sample of holds the value of [exclude_n_holds] does not
    matter. *)
Lemma encode_samples_same (n n0 : Z) (power_i : nat)
  (x : list (list (list Z))) (orders_samples : list (list string)) :
  Forall (fun orders => holds_test n orders = false) orders_samples ->
  Forall (fun orders => holds_test n0 orders = false) orders_samples ->
  forall v,
    samples n power_i x orders_samples v
    = samples n0 power_i x orders_samples v.
Proof.
  induction 1 as [|orders rest Ho _ IH]; intros H0 v; [reflexivity|].
  inversion H0 as [|? ? Ho0 Hrest0]; subst; simpl.
  rewrite Ho, Ho0.
  destruct (Py.getitem x power_i) as [xp|e]; [|reflexivity]; cbn [bind].
  destruct (encode orders xp) as [l|e]; [|reflexivity]; cbn [bind].
  destruct (Py.getitem v power_i) as [bit|e]; [|reflexivity]; cbn [bind].
  destruct (tensor_set v power_i _) as [v1|e]; [|reflexivity]; cbn [bind].
  rewrite (IH Hrest0 v1); reflexivity.
Qed.

(** A sample of holds stops the loop where the same samples are encoded
    under another value of [exclude_n_holds]. *)
Lemma encode_samples_raise (n n0 : Z) (power_i : nat)
  (x : list (list (list Z))) (orders_samples : list (list string)) :
  forall v r,
    samples n0 power_i x orders_samples v = Ok r ->
    existsb (fun orders => holds_test n orders) orders_samples = true ->
    samples n power_i x orders_samples v = Raise RuntimeError.
Proof.
  induction orders_samples as [|orders rest IH]; simpl; intros v r H Hex;
    [discriminate|].
  apply bind_ok_inv in H; destruct H as (xp & Hxp & H).
  apply bind_ok_inv in H; destruct H as (l & Hl & H).
  apply bind_ok_inv in H; destruct H as (bit & Hbit & H).
  apply bind_ok_inv in H; destruct H as (v1 & Hset & H).
  apply bind_ok_inv in H; destruct H as (r' & Hrest & _).
  rewrite Hxp; cbn [bind]; rewrite Hl; cbn [bind].
  rewrite Hbit; cbn [bind].
  destruct (holds_test n0 orders); [discriminate|].
  destruct (holds_test n orders); [reflexivity|].
  simpl in Hex; rewrite Hset; cbn [bind].
  rewrite (IH _ _ Hrest Hex); reflexivity.
Qed.

Lemma encode_powers_no_holds (n_cf_agent_samples : nat)
  (exclude_n_holds : Z)
  (power_orders_samples : Py.dict (list (list string)))
  (x : list (list (list Z))) (powers : list string) :
  forall power_i v r j power orders_samples orders,
    powers_loop n_cf_agent_samples exclude_n_holds power_orders_samples x
      power_i powers v = Ok r ->
    nth_error powers j = Some power ->
    Py.get power_orders_samples power = Some orders_samples ->
    In orders orders_samples ->
    holds_test exclude_n_holds orders = false.
Proof.
  induction powers as [|p rest IH];
    intros power_i v r j power ss orders H Hj Hget Hin;
    [destruct j; discriminate|].
  simpl in H.
  apply bind_ok_inv in H; destruct H as (ss0 & Hlook & H).
  apply bind_ok_inv in H; destruct H as ([slot v1] & Hslot & H).
  apply bind_ok_inv in H; destruct H as (r' & Hrest & _).
  cbn [fst snd] in Hrest.
  destruct j as [|j]; simpl in Hj.
  - inversion Hj; subst p.
    unfold Py.lookup in Hlook; rewrite Hget in Hlook.
    inversion Hlook; subst ss0.
    destruct ss as [|o os]; [destruct Hin|].
    pose proof (encode_samples_no_holds _ _ _ _ _ _ Hslot) as Hall.
    rewrite Forall_forall in Hall; apply Hall, Hin.
  - apply (IH _ _ _ _ _ _ _ Hrest Hj Hget Hin).
Qed.

Lemma encode_powers_raise (n_cf_agent_samples : nat) (n n0 : Z)
  (power_orders_samples : Py.dict (list (list string)))
  (x : list (list (list Z))) (powers : list string) :
  forall power_i v r j power orders_samples orders,
    powers_loop n_cf_agent_samples n0 power_orders_samples x
      power_i powers v = Ok r ->
    nth_error powers j = Some power ->
    Py.get power_orders_samples power = Some orders_samples ->
    In orders orders_samples ->
    holds_test n orders = true ->
    powers_loop n_cf_agent_samples n power_orders_samples x
      power_i powers v = Raise RuntimeError.
Proof.
  induction powers as [|p rest IH];
    intros power_i v r j power ss orders H Hj Hget Hin Hh;
    [destruct j; discriminate|].
  simpl in H |- *.
  apply bind_ok_inv in H; destruct H as (ss0 & Hlook & H).
  apply bind_ok_inv in H; destruct H as ([slot v1] & Hslot & H).
  apply bind_ok_inv in H; destruct H as (r' & Hrest & _).
  cbn [fst snd] in Hrest.
  rewrite Hlook; cbn [bind].
  destruct ss0 as [|o os].
  - rewrite Hslot; cbn [bind fst snd].
    destruct j as [|j]; simpl in Hj.
    + inversion Hj; subst p.
      unfold Py.lookup in Hlook; rewrite Hget in Hlook.
      inversion Hlook; subst ss; destruct Hin.
    + rewrite (IH _ _ _ _ _ _ _ Hrest Hj Hget Hin Hh); reflexivity.
  - destruct (existsb (fun orders => holds_test n orders) (o :: os))
      eqn:Ex.
    + rewrite (encode_samples_raise n n0 _ _ _ _ _ Hslot Ex); reflexivity.
    + assert (Hn : Forall (fun orders => holds_test n orders = false)
                          (o :: os)).
      { apply Forall_forall; intros o' Ho'.
        destruct (holds_test n o') eqn:E; [|reflexivity].
        assert (existsb (fun orders => holds_test n orders) (o :: os)
                = true)
          by (apply existsb_exists; exists o'; split; assumption).
        congruence. }
      rewrite (encode_samples_same n n0 _ _ _ Hn
                 (encode_samples_no_holds _ _ _ _ _ _ Hslot)).
      rewrite Hslot; cbn [bind fst snd].
      destruct j as [|j]; simpl in Hj.
      * inversion Hj; subst p.
        unfold Py.lookup in Hlook; rewrite Hget in Hlook.
        inversion Hlook; subst ss.
        rewrite Forall_forall in Hn; rewrite (Hn _ Hin) in Hh.
        discriminate.
      * rewrite (IH _ _ _ _ _ _ _ Hrest Hj Hget Hin Hh); reflexivity.
Qed.

(** The filter of holds.  When a sample of a power is made of hold orders
    only and [exclude_n_holds] is between zero and the number of its
    orders, [encode_phase] does not return: the update of the mask with
    the integer 0 raises.  Where the same turn is encoded under another
    value of [exclude_n_holds], the default -1 for one, the exception is
    [RuntimeError]. *)
Theorem all_holds_raise
  (power_orders_samples : Py.dict (list (list string)))
  (x_possible_actions : list (list (list Z)))
  (centers : Py.dict (list string))
  (only_with_min_final_score : option Z) (n_cf_agent_samples : nat)
  (input_valid_power_idxs : list bool) (exclude_n_holds : Z)
  (i : nat) (power : string) (orders_samples : list (list string))
  (orders : list string) :
  nth_error POWERS i = Some power ->
  Py.get power_orders_samples power = Some orders_samples ->
  In orders orders_samples ->
  all_holds exclude_n_holds orders ->
  (forall r,
      phase power_orders_samples x_possible_actions centers
        only_with_min_final_score n_cf_agent_samples input_valid_power_idxs
        exclude_n_holds <> Ok r)
  /\ (forall n0 r0,
        phase power_orders_samples x_possible_actions centers
          only_with_min_final_score n_cf_agent_samples
          input_valid_power_idxs n0 = Ok r0 ->
        phase power_orders_samples x_possible_actions centers
          only_with_min_final_score n_cf_agent_samples
          input_valid_power_idxs exclude_n_holds = Raise RuntimeError).
Proof.
  intros Hi Hget Hin Hh; apply all_holds_test in Hh; split.
  - intros [[s y] valid] H.
    destruct (encode_phase_inv _ _ _ _ _ _ _ _ _ _ _ _ _ _ _ _ _ _ _ H)
      as (v1 & v2 & _ & Hloop & _).
    rewrite (encode_powers_no_holds _ _ _ _ _ _ _ _ _ _ _ _
               Hloop Hi Hget Hin) in Hh.
    discriminate.
  - intros n0 r0 H; unfold encode_phase in H |- *.
    apply bind_ok_inv in H; destruct H as (ph & Hph & H).
    apply bind_ok_inv in H; destruct H as (s & Hs & H).
    apply bind_ok_inv in H; destruct H as (r & Hloop & _).
    rewrite Hph; cbn [bind]; rewrite Hs; cbn [bind].
    rewrite (encode_powers_raise _ _ _ _ _ _ _ _ _ _ _ _ _
               Hloop Hi Hget Hin Hh).
    reflexivity.
Qed.

(** The filter of the final score.  Beside a turn that is encoded without
    the filter: with a minimum that no power reaches, the result is the
    same; with a minimum that some power reaches, the labels are the same
    and the bit of a power is cleared when it ends below the minimum (a
    power without centers counts for zero) and kept otherwise; when the
    final state lists no power at all, the call raises [ValueError]. *)
Theorem min_final_score_filter
  (power_orders_samples : Py.dict (list (list string)))
  (x_possible_actions : list (list (list Z)))
  (centers : Py.dict (list string))
  (n_cf_agent_samples : nat)
  (input_valid_power_idxs : list bool) (exclude_n_holds : Z)
  (y_final_scores : list Q) (y_actions : list (list (list Z)))
  (valid : list bool) (min_score : Z) :
  let final_score :=
    Py.map_values (fun v => Z.of_nat (List.length v)) centers in
  let filtered :=
    phase power_orders_samples x_possible_actions centers (Some min_score)
      n_cf_agent_samples input_valid_power_idxs exclude_n_holds in
  List.length input_valid_power_idxs = List.length POWERS ->
  phase power_orders_samples x_possible_actions centers None
    n_cf_agent_samples input_valid_power_idxs exclude_n_holds
  = Ok (y_final_scores, y_actions, valid) ->
  (centers = [] -> filtered = Raise ValueError)
  /\ (forall m, max_score final_score = Ok m -> (m < min_score)%Z ->
                filtered = Ok (y_final_scores, y_actions, valid))
  /\ (forall m, max_score final_score = Ok m -> (min_score <= m)%Z ->
        exists valid',
          filtered = Ok (y_final_scores, y_actions, valid')
          /\ forall i power,
               nth_error POWERS i = Some power ->
               nth_error valid' i
               = if (final_score_of centers power <? min_score)%Z
                 then Some false else nth_error valid i).
Proof.
  intros final_score filtered Hlen H.
  assert (Hv : List.length valid = List.length POWERS).
  { destruct (encode_phase_slots _ _ _ _ _ _ _ _ _ _ _ _ _ _ _ _ _ _ _
                Hlen H) as (_ & Hv & _); exact Hv. }
  unfold encode_phase in H.
  apply bind_ok_inv in H; destruct H as (ph & Hph & H).
  apply bind_ok_inv in H; destruct H as (s & Hs & H).
  apply bind_ok_inv in H; destruct H as ([ys v1] & Hloop & H).
  apply bind_ok_inv in H; destruct H as (y & Hstack & H).
  apply bind_ok_inv in H; destruct H as (v2 & Hand & H).
  cbn [bind] in H; inversion H; subst; clear H.
  unfold filtered, encode_phase; rewrite Hph; cbn [bind].
  rewrite Hs; cbn [bind]; rewrite Hloop; cbn [bind].
  rewrite Hstack; cbn [bind]; rewrite Hand; cbn [bind].
  fold final_score.
  split; [|split].
  - intros ->; reflexivity.
  - intros m Hm Hlt; rewrite Hm; cbn [bind].
    replace (min_score <=? m)%Z with false
      by (symmetry; apply Z.leb_gt; exact Hlt).
    reflexivity.
  - intros m Hm Hle; rewrite Hm; cbn [bind].
    replace (min_score <=? m)%Z with true
      by (symmetry; apply Z.leb_le; exact Hle).
    destruct (clear_low_scores_spec final_score min_score POWERS 0 valid)
      as (v' & Hv' & _ & Hj & _); [simpl; lia|].
    exists v'; rewrite Hv'; split; [reflexivity|].
    intros i power Hi; apply (Hj i power Hi).
Qed.

End PhaseFilters.

Section RecordedOrders.

Variable LOCS : list string.
Variable ORDER_VOCABULARY : list string.
Variable EOS_IDX : Z.
Variable POWERS : list string.
Variable State : Type.
Variable square_score : nat -> State -> Q.
Variable game : Game State.
Variable phase_idx : nat.
Variable value_decay_alpha : Q.

Local Abbreviation encode :=
  (encode_power_actions LOCS ORDER_VOCABULARY EOS_IDX).
Local Abbreviation powers_loop :=
  (encode_powers LOCS ORDER_VOCABULARY EOS_IDX).
Local Abbreviation phase :=
  (encode_phase LOCS ORDER_VOCABULARY EOS_IDX POWERS square_score game
     phase_idx value_decay_alpha).
Local Abbreviation sentinels := (repeat EOS_IDX MAX_SEQ_LEN).
Local Abbreviation recorded orders power :=
  (match Py.get orders power with Some v => v | None => [] end).

Lemma recorded_samples_get (orders : Py.dict (list string))
  (powers : list string) (power : string) :
  In power powers ->
  Py.get (recorded_samples powers orders) power
  = Some [recorded orders power].
Proof.
  induction powers as [|p rest IH]; intros Hin; [destruct Hin|].
  simpl; destruct (String.eqb_spec p power) as [->|Hne]; [reflexivity|].
  destruct Hin as [->|Hin]; [contradiction | apply IH; exact Hin].
Qed.

Lemma encode_no_orders (x : list (list Z)) :
  encode [] x = Ok (sentinels, true).
Proof. reflexivity. Qed.

Lemma encode_powers_recorded (n_cf_agent_samples : nat)
  (exclude_n_holds : Z) (power_orders_samples : Py.dict (list (list string)))
  (orders : Py.dict (list string)) (x : list (list (list Z)))
  (powers : list string) :
  (forall p, In p powers ->
             Py.get power_orders_samples p = Some [recorded orders p]) ->
  forall power_i v ys v',
    powers_loop n_cf_agent_samples exclude_n_holds power_orders_samples x
      power_i powers v = Ok (ys, v') ->
    Forall (fun slot => List.length slot = 1) ys
    /\ forall j p, nth_error powers j = Some p ->
                   recorded orders p = [] ->
                   nth_error ys j = Some [sentinels].
Proof.
  induction powers as [|power rest IH]; intros Hget power_i v ys v' H;
    simpl in H.
  - inversion H; subst; split; [constructor|].
    intros [|j] p Hp; discriminate.
  - apply bind_ok_inv in H; destruct H as (ss & Hlook & H).
    apply bind_ok_inv in H; destruct H as ([slot v1] & Hslot & H).
    apply bind_ok_inv in H; destruct H as ([ys' v2] & Hrest & H).
    inversion H; subst; clear H.
    unfold Py.lookup in Hlook; rewrite (Hget power (or_introl eq_refl)) in Hlook.
    inversion Hlook; subst ss; clear Hlook.
    simpl in Hslot.
    apply bind_ok_inv in Hslot; destruct Hslot as (xp & _ & Hslot).
    apply bind_ok_inv in Hslot; destruct Hslot as ([l b] & Henc & Hslot).
    apply bind_ok_inv in Hslot; destruct Hslot as (bit & _ & Hslot).
    apply bind_ok_inv in Hslot; destruct Hslot as (v0 & _ & Hslot).
    cbn [bind fst snd] in Hslot; inversion Hslot; subst; clear Hslot.
    destruct (IH (fun p Hp => Hget p (or_intror Hp)) _ _ _ _ Hrest)
      as [Hone Hempty].
    split; [constructor; [reflexivity | exact Hone]|].
    intros [|j] p Hp Hrec; simpl in Hp.
    + inversion Hp; subst p; simpl.
      rewrite Hrec, encode_no_orders in Henc.
      inversion Henc; reflexivity.
    + apply (Hempty j p Hp Hrec).
Qed.

(** Without a [cf_agent] the samples are the recorded orders: every power
    gets one sample, whatever [n_cf_agent_samples] is, and a power for
    which the turn records no order, or an empty list of orders, gets the
    sentinels and a cleared bit. *)
Theorem recorded_orders_one_sample (orders : Py.dict (list string))
  (x_possible_actions : list (list (list Z)))
  (centers : Py.dict (list string))
  (only_with_min_final_score : option Z) (n_cf_agent_samples : nat)
  (input_valid_power_idxs : list bool) (exclude_n_holds : Z)
  (y_final_scores : list Q) (y_actions : list (list (list Z)))
  (valid : list bool) :
  List.length input_valid_power_idxs = List.length POWERS ->
  phase (recorded_samples POWERS orders) x_possible_actions centers
    only_with_min_final_score n_cf_agent_samples input_valid_power_idxs
    exclude_n_holds = Ok (y_final_scores, y_actions, valid) ->
  Forall (fun slot => List.length slot = 1) y_actions
  /\ forall i power,
       nth_error POWERS i = Some power ->
       Py.get orders power = None \/ Py.get orders power = Some [] ->
       nth_error y_actions i = Some [sentinels]
       /\ nth_error valid i = Some false.
Proof.
  intros Hlen H.
  destruct (encode_phase_slots _ _ _ _ _ _ _ _ _ _ _ _ _ _ _ _ _ _ _
              Hlen H) as (_ & _ & _ & _ & _ & Hno).
  destruct (encode_phase_inv _ _ _ _ _ _ _ _ _ _ _ _ _ _ _ _ _ _ _ H)
    as (v1 & v2 & _ & Hloop & _).
  destruct (encode_powers_recorded _ _ _ orders _ POWERS
              (recorded_samples_get orders POWERS) _ _ _ _ Hloop)
    as [Hone Hempty].
  split; [exact Hone|].
  intros i power Hi Hrec.
  assert (Hs : nth_error y_actions i = Some [sentinels]).
  { apply (Hempty i power Hi).
    destruct Hrec as [-> | ->]; reflexivity. }
  split; [exact Hs|].
  apply (Hno i _ Hs); unfold has_orders; simpl.
  rewrite has_orders_sentinels; reflexivity.
Qed.

End RecordedOrders.

Section TooManyOrders.

Variable LOCS : list string.
Variable ORDER_VOCABULARY : list string.
Variable EOS_IDX : Z.

Local Abbreviation encode :=
  (encode_power_actions LOCS ORDER_VOCABULARY EOS_IDX).
Local Abbreviation ids_of := (resolved_ids ORDER_VOCABULARY).

(** Too many orders: a list without builds of which more orders resolve
    than there are steps ([MAX_SEQ_LEN], or the rows of the candidates
    given) is not rejected with an error, it is encoded as invalid. *)
Theorem too_many_orders_invalid (orders : list string) (x : list (list Z))
  (labels : list Z) (valid : bool) :
  Forall (fun o => ~ short_order o) orders ->
  Forall (fun o => ~ build_order o) orders ->
  MAX_SEQ_LEN < List.length (ids_of orders)
  \/ List.length x < List.length (ids_of orders) ->
  encode orders x = Ok (labels, valid) ->
  valid = false.
Proof.
  intros Hlen Hnb Hmany H.
  pose proof (encode_power_actions_length _ _ _ _ _ _ _ H) as Hlabels.
  unfold encode_power_actions in H.
  rewrite (existsb_short_false _ Hlen) in H.
  rewrite (existsb_is_build_false _ Hlen Hnb) in H.
  rewrite resolve_orders_ids in H; cbn [bind] in H.
  apply bind_ok_inv in H; destruct H as (sorted & Hsort & H).
  inversion H as [Hloc]; clear H.
  destruct (sort_by_loc_sorted _ _ _ _ Hsort) as [Hperm _].
  apply Permutation_length in Hperm.
  destruct valid; [exfalso | reflexivity].
  destruct (locate_orders_valid _ _ _ _ _ Hloc) as [Hk _].
  destruct (nth_error sorted (List.length sorted - 1)) as [idx|] eqn:E.
  - destruct (Hk _ _ E) as (c & Hc & Hl); simpl in Hc, Hl.
    unfold candidate_pos in Hc.
    destruct (nth_error x (List.length sorted - 1)) as [row|] eqn:Er;
      [|discriminate].
    assert (List.length sorted - 1 < List.length x)
      by (apply nth_error_Some; congruence).
    assert (List.length sorted - 1 < List.length labels)
      by (apply nth_error_Some; congruence).
    lia.
  - apply nth_error_None in E; lia.
Qed.

End TooManyOrders.

Lemma all_holds_raise_witness :
  (forall r,
      encode_phase Ex.LOCS Ex.VOCAB Ex.EOS Ex.POWERS Ex.square_score Ex.game
        0 (1 # 2) Ex.phase_orders Ex.phase_candidates [("FRANCE", ["PAR"])]
        None 1 Ex.all_powers_valid 1%Z <> Ok r)
  /\ encode_phase Ex.LOCS Ex.VOCAB Ex.EOS Ex.POWERS Ex.square_score Ex.game
       0 (1 # 2) Ex.phase_orders Ex.phase_candidates [("FRANCE", ["PAR"])]
       None 1 Ex.all_powers_valid 1%Z = Raise RuntimeError.
Proof.
  destruct (all_holds_raise Ex.LOCS Ex.VOCAB Ex.EOS Ex.POWERS nat
              Ex.square_score Ex.game 0 (1 # 2) Ex.phase_orders
              Ex.phase_candidates [("FRANCE", ["PAR"])] None 1
              Ex.all_powers_valid 1%Z 2 "FRANCE" [["A PAR H"]] ["A PAR H"]
              eq_refl eq_refl) as [H1 H2].
  - left; reflexivity.
  - split; [simpl; lia | repeat constructor].
  - split; [exact H1|].
    assert (H : exists r0,
               encode_phase Ex.LOCS Ex.VOCAB Ex.EOS Ex.POWERS
                 Ex.square_score Ex.game 0 (1 # 2) Ex.phase_orders
                 Ex.phase_candidates [("FRANCE", ["PAR"])] None 1
                 Ex.all_powers_valid (-1)%Z = Ok r0)
      by (eexists; vm_compute; reflexivity).
    destruct H as [r0 H]; apply (H2 (-1)%Z r0 H).
Defined.

Lemma min_final_score_filter_witness :
  exists y_final_scores y_actions valid valid',
    encode_phase Ex.LOCS Ex.VOCAB Ex.EOS Ex.POWERS Ex.square_score Ex.game
      0 (1 # 2) Ex.phase_orders Ex.phase_candidates [("FRANCE", ["PAR"])]
      None 1 Ex.all_powers_valid (-1)%Z
    = Ok (y_final_scores, y_actions, valid)
    /\ encode_phase Ex.LOCS Ex.VOCAB Ex.EOS Ex.POWERS Ex.square_score
         Ex.game 0 (1 # 2) Ex.phase_orders Ex.phase_candidates
         [("FRANCE", ["PAR"])] (Some 1%Z) 1 Ex.all_powers_valid (-1)%Z
       = Ok (y_final_scores, y_actions, valid')
    /\ forall i power,
         nth_error Ex.POWERS i = Some power ->
         nth_error valid' i
         = if (final_score_of [("FRANCE", ["PAR"])] power <? 1)%Z
           then Some false else nth_error valid i.
Proof.
  assert (H : exists r,
             encode_phase Ex.LOCS Ex.VOCAB Ex.EOS Ex.POWERS Ex.square_score
               Ex.game 0 (1 # 2) Ex.phase_orders Ex.phase_candidates
               [("FRANCE", ["PAR"])] None 1 Ex.all_powers_valid (-1)%Z
             = Ok r)
    by (eexists; vm_compute; reflexivity).
  destruct H as [[[y_final_scores y_actions] valid] H].
  destruct (min_final_score_filter Ex.LOCS Ex.VOCAB Ex.EOS Ex.POWERS nat
              Ex.square_score Ex.game 0 (1 # 2)
              Ex.phase_orders Ex.phase_candidates [("FRANCE", ["PAR"])] 1
              Ex.all_powers_valid (-1)%Z y_final_scores y_actions valid
              1%Z eq_refl H)
    as (_ & _ & H3).
  destruct (H3 1%Z eq_refl) as (valid' & Hv & Hbits); [lia|].
  exists y_final_scores, y_actions, valid, valid'; split; [exact H|].
  split; [exact Hv | exact Hbits].
Defined.

Lemma recorded_orders_one_sample_witness :
  exists y_final_scores y_actions valid,
    encode_phase Ex.LOCS Ex.VOCAB Ex.EOS Ex.POWERS Ex.square_score Ex.game
      0 (1 # 2) (recorded_samples Ex.POWERS [("FRANCE", ["A PAR H"])])
      Ex.phase_candidates [("FRANCE", ["PAR"])] None 3 Ex.all_powers_valid
      (-1)%Z = Ok (y_final_scores, y_actions, valid)
    /\ Forall (fun slot => List.length slot = 1) y_actions
    /\ nth_error y_actions 0 = Some [repeat Ex.EOS MAX_SEQ_LEN]
    /\ nth_error valid 0 = Some false.
Proof.
  assert (H : exists r,
             encode_phase Ex.LOCS Ex.VOCAB Ex.EOS Ex.POWERS Ex.square_score
               Ex.game 0 (1 # 2)
               (recorded_samples Ex.POWERS [("FRANCE", ["A PAR H"])])
               Ex.phase_candidates [("FRANCE", ["PAR"])] None 3
               Ex.all_powers_valid (-1)%Z = Ok r)
    by (eexists; vm_compute; reflexivity).
  destruct H as [[[y_final_scores y_actions] valid] H].
  destruct (recorded_orders_one_sample Ex.LOCS Ex.VOCAB Ex.EOS Ex.POWERS
              nat Ex.square_score Ex.game 0 (1 # 2)
              [("FRANCE", ["A PAR H"])] Ex.phase_candidates
              [("FRANCE", ["PAR"])] None 3 Ex.all_powers_valid (-1)%Z
              y_final_scores y_actions valid eq_refl H) as [H1 H2].
  destruct (H2 0 "AUSTRIA" eq_refl (or_introl eq_refl)) as [H3 H4].
  exists y_final_scores, y_actions, valid; auto.
Defined.

Lemma too_many_orders_invalid_witness :
  exists labels,
    encode_power_actions Ex.LOCS Ex.VOCAB Ex.EOS
      ["A PAR H"; "A MAR - BUR"] [[0; 1]%Z] = Ok (labels, false).
Proof.
  assert (H : exists r,
             encode_power_actions Ex.LOCS Ex.VOCAB Ex.EOS
               ["A PAR H"; "A MAR - BUR"] [[0; 1]%Z] = Ok r)
    by (eexists; vm_compute; reflexivity).
  destruct H as [[labels valid] H].
  exists labels; rewrite H; do 2 f_equal.
  apply (too_many_orders_invalid Ex.LOCS Ex.VOCAB Ex.EOS
           ["A PAR H"; "A MAR - BUR"] [[0; 1]%Z] labels valid).
  - repeat constructor; unfold short_order; simpl; lia.
  - repeat constructor; unfold build_order; simpl; discriminate.
  - right; vm_compute; lia.
  - exact H.
Defined.

(** ** The a-priori mask of a game *)

Lemma get_valid_power_idxs_ok (game_metadata : Py.dict (Py.dict Q))
  (min_rating : option Q) (game_id : string) (POWERS : list string) :
  forall bits,
    get_valid_power_idxs POWERS game_metadata min_rating game_id = Ok bits ->
    forall i pwr,
      nth_error POWERS i = Some pwr ->
      exists m game rating,
        min_rating = Some m
        /\ Py.get game_metadata game_id = Some game
        /\ Py.get game pwr = Some rating
        /\ nth_error bits i = Some (Qle_bool m rating).
Proof.
  unfold get_valid_power_idxs.
  induction POWERS as [|p ps IH]; intros bits H i pwr Hi;
    [destruct i; discriminate|].
  simpl in H.
  apply bind_ok_inv in H; destruct H as (b & Hb & H).
  apply bind_ok_inv in H; destruct H as (bs & Hbs & H).
  inversion H; subst; clear H.
  destruct i as [|i]; simpl in Hi; [|apply (IH _ Hbs i pwr Hi)].
  inversion Hi; subst p; clear Hi.
  apply bind_ok_inv in Hb; destruct Hb as (game & Hg & Hb).
  apply bind_ok_inv in Hb; destruct Hb as (rating & Hr & Hb).
  unfold Py.lookup in Hg, Hr.
  destruct (Py.get game_metadata game_id) as [g|] eqn:Eg; inversion Hg;
    subst g.
  destruct (Py.get game pwr) as [r|] eqn:Er; inversion Hr; subst r.
  destruct min_rating as [m|]; inversion Hb; subst.
  exists m, game, rating; auto.
Qed.

(** [get_valid_power_idxs] compares the rating of every power with
    [min_rating]: a result has one bit for each power, in the order of
    [POWERS], set when the rating is at least the minimum.  With powers to
    look at, a game without metadata raises [KeyError], and so does the
    first power without a rating; with [min_rating] left at its default
    [None], the first comparison raises [TypeError]. *)
Theorem get_valid_power_idxs_bits (POWERS : list string)
  (game_metadata : Py.dict (Py.dict Q)) (min_rating : option Q)
  (game_id : string) :
  let valid_powers := get_valid_power_idxs POWERS game_metadata in
  (forall bits,
      valid_powers min_rating game_id = Ok bits ->
      List.length bits = List.length POWERS
      /\ forall i pwr,
           nth_error POWERS i = Some pwr ->
           exists m game rating,
             min_rating = Some m
             /\ Py.get game_metadata game_id = Some game
             /\ Py.get game pwr = Some rating
             /\ nth_error bits i = Some (Qle_bool m rating))
  /\ (POWERS <> [] -> Py.get game_metadata game_id = None ->
      valid_powers min_rating game_id = Raise KeyError)
  /\ (forall pwr rest game,
        POWERS = pwr :: rest ->
        Py.get game_metadata game_id = Some game ->
        (Py.get game pwr = None ->
         valid_powers min_rating game_id = Raise KeyError)
        /\ (Py.get game pwr <> None -> min_rating = None ->
            valid_powers min_rating game_id = Raise TypeError)).
Proof.
  intros valid_powers; unfold valid_powers; split; [|split].
  - intros bits H; split.
    + unfold get_valid_power_idxs in H; eapply mapM_length; exact H.
    + apply (get_valid_power_idxs_ok _ _ _ _ _ H).
  - intros Hne Hget; destruct POWERS as [|p ps]; [congruence|].
    unfold get_valid_power_idxs; simpl; unfold Py.lookup; rewrite Hget.
    reflexivity.
  - intros pwr rest game -> Hget; unfold get_valid_power_idxs; split.
    + intros Hp; simpl; unfold Py.lookup; rewrite Hget; cbn [bind].
      rewrite Hp; reflexivity.
    + intros Hp ->; simpl; unfold Py.lookup; rewrite Hget; cbn [bind].
      destruct (Py.get game pwr); [reflexivity | congruence].
Qed.

(** ** The rows of the candidates of an example *)

(** The gather index of an example with turn row [x_idx] and power
    [power_idx] has [MAX_SEQ_LEN] rows; for a turn row and a power in
    range they are rows of a store of
    [num_phases * len(POWERS) * MAX_SEQ_LEN] rows, as [validate_dataset]
    checks it, and two different pairs of a turn row and a power share no
    row. *)
Theorem possible_actions_idx_rows (n_powers : nat) (num_phases : Z)
  (x_idx power_idx : Z) :
  (0 <= x_idx < num_phases)%Z ->
  (0 <= power_idx < Z.of_nat n_powers)%Z ->
  List.length (possible_actions_idx n_powers x_idx power_idx) = MAX_SEQ_LEN
  /\ Forall (fun k => 0 <= k < num_phases * Z.of_nat n_powers
                                * Z.of_nat MAX_SEQ_LEN)%Z
            (possible_actions_idx n_powers x_idx power_idx)
  /\ forall x' p' k,
       (0 <= x')%Z -> (0 <= p' < Z.of_nat n_powers)%Z ->
       In k (possible_actions_idx n_powers x_idx power_idx) ->
       In k (possible_actions_idx n_powers x' p') ->
       x' = x_idx /\ p' = power_idx.
Proof.
  intros Hx Hp; unfold possible_actions_idx.
  split; [rewrite length_map, length_seq; reflexivity|].
  split.
  - apply Forall_forall; intros k Hk; apply in_map_iff in Hk.
    destruct Hk as (j & <- & Hj); apply in_seq in Hj.
    set (M := Z.of_nat MAX_SEQ_LEN) in *.
    set (n := Z.of_nat n_powers) in *.
    assert (Hj' : (0 <= Z.of_nat j < M)%Z) by (unfold M; lia).
    assert (Ha : (0 <= x_idx * n + power_idx)%Z) by nia.
    assert (Hb : (x_idx * n + power_idx + 1 <= num_phases * n)%Z) by nia.
    split; [nia|].
    apply Z.lt_le_trans with ((x_idx * n + power_idx + 1) * M)%Z; [lia|].
    apply Z.mul_le_mono_nonneg_r; lia.
  - intros x' p' k Hx' Hp' Hk Hk'.
    apply in_map_iff in Hk, Hk'.
    destruct Hk as (j & <- & Hj); destruct Hk' as (j' & E & Hj').
    apply in_seq in Hj, Hj'.
    set (M := Z.of_nat MAX_SEQ_LEN) in *.
    set (n := Z.of_nat n_powers) in *.
    assert (B : (0 <= Z.of_nat j < M)%Z) by (unfold M; lia).
    assert (B' : (0 <= Z.of_nat j' < M)%Z) by (unfold M; lia).
    assert (Ea : (x' * n + p' = x_idx * n + power_idx)%Z).
    { destruct (Z.lt_trichotomy (x' * n + p') (x_idx * n + power_idx))
        as [Hlt|[Heq|Hgt]]; [exfalso | exact Heq | exfalso].
      - assert ((x' * n + p' + 1) * M <= (x_idx * n + power_idx) * M)%Z
          by (apply Z.mul_le_mono_nonneg_r; lia).
        lia.
      - assert ((x_idx * n + power_idx + 1) * M <= (x' * n + p') * M)%Z
          by (apply Z.mul_le_mono_nonneg_r; lia).
        lia. }
    assert (Ex : x' = x_idx).
    { destruct (Z.lt_trichotomy x' x_idx) as [Hlt|[Heq|Hgt]];
        [exfalso | exact Heq | exfalso].
      - assert ((x' + 1) * n <= x_idx * n)%Z
          by (apply Z.mul_le_mono_nonneg_r; lia).
        lia.
      - assert ((x_idx + 1) * n <= x' * n)%Z
          by (apply Z.mul_le_mono_nonneg_r; lia).
        lia. }
    split; [exact Ex | subst x'; lia].
Qed.

Lemma get_valid_power_idxs_bits_witness :
  let metadata := [("game_1", [("FRANCE", 3 # 2); ("ITALY", 1 # 2)])]%Q in
  get_valid_power_idxs ["FRANCE"; "ITALY"] metadata (Some 1%Q) "game_2"
  = Raise KeyError
  /\ get_valid_power_idxs ["FRANCE"; "ITALY"] metadata None "game_1"
     = Raise TypeError.
Proof.
  intros metadata; split.
  - apply (get_valid_power_idxs_bits ["FRANCE"; "ITALY"] metadata
             (Some 1%Q) "game_2"); [discriminate | reflexivity].
  - destruct (get_valid_power_idxs_bits ["FRANCE"; "ITALY"] metadata
                None "game_1") as (_ & _ & H).
    destruct (H "FRANCE" ["ITALY"] [("FRANCE", 3 # 2); ("ITALY", 1 # 2)]%Q
                eq_refl eq_refl) as [_ H2].
    apply H2; [discriminate | reflexivity].
Defined.

Lemma possible_actions_idx_rows_witness :
  List.length (possible_actions_idx 7 3 2) = MAX_SEQ_LEN
  /\ Forall (fun k => 0 <= k < 5 * Z.of_nat 7 * Z.of_nat MAX_SEQ_LEN)%Z
            (possible_actions_idx 7 3 2)
  /\ forall x' p' k,
       (0 <= x')%Z -> (0 <= p' < Z.of_nat 7)%Z ->
       In k (possible_actions_idx 7 3 2) ->
       In k (possible_actions_idx 7 x' p') ->
       x' = 3%Z /\ p' = 2%Z.
Proof.
  apply (possible_actions_idx_rows 7 5 3 2); lia.
Defined.

(** ** The index of a pre-processed dataset *)

Lemma nth_error_concat_at {A : Type} (ls : list (list A)) :
  forall gi l j a,
    nth_error ls gi = Some l -> nth_error l j = Some a ->
    nth_error (List.concat ls)
              (List.length (List.concat (firstn gi ls)) + j) = Some a.
Proof.
  induction ls as [|l0 rest IH]; intros [|gi] l j a Hl Hj; simpl in *;
    try discriminate.
  - inversion Hl; subst l0.
    rewrite nth_error_app1 by (apply nth_error_Some; congruence).
    exact Hj.
  - rewrite length_app, <- Nat.add_assoc.
    rewrite nth_error_app2 by lia.
    replace (List.length l0
             + (List.length (List.concat (firstn gi rest)) + j)
             - List.length l0)
      with (List.length (List.concat (firstn gi rest)) + j) by lia.
    apply (IH gi l j a Hl Hj).
Qed.

Lemma nth_error_concat_inv {A : Type} (ls : list (list A)) :
  forall r a,
    nth_error (List.concat ls) r = Some a ->
    exists gi l j,
      nth_error ls gi = Some l /\ nth_error l j = Some a
      /\ r = List.length (List.concat (firstn gi ls)) + j.
Proof.
  induction ls as [|l0 rest IH]; intros r a H; simpl in H.
  - destruct r; discriminate.
  - destruct (Nat.lt_ge_cases r (List.length l0)) as [Hlt|Hge].
    + rewrite nth_error_app1 in H by exact Hlt.
      exists 0, l0, r; auto.
    + rewrite nth_error_app2 in H by exact Hge.
      destruct (IH _ _ H) as (gi & l & j & H1 & H2 & H3).
      exists (S gi), l, j; split; [exact H1|]; split; [exact H2|].
      simpl; rewrite length_app; lia.
Qed.

Section IndexEntries.

Variable Fields : Type.
Variable n_powers : nat.

Local Abbreviation DS := (Dataset Fields).

Lemma index_phases_rows (rows : EncodedGame Fields) :
  forall game_idx phase_idx x_idx es,
    index_phases n_powers game_idx phase_idx x_idx rows = Ok es ->
    Forall (fun row => List.length (valid_power_idxs row) = n_powers) rows.
Proof.
  induction rows as [|row rest IH]; simpl; intros g ph x es H;
    [constructor|].
  destruct (List.length (valid_power_idxs row) =? n_powers) eqn:E;
    [|discriminate].
  apply bind_ok_inv in H; destruct H as (es' & He & _).
  constructor; [apply Nat.eqb_eq; exact E | apply (IH _ _ _ _ He)].
Qed.

Lemma index_games_rows (games : list (EncodedGame Fields)) :
  forall game_idx x_idx es,
    index_games n_powers game_idx x_idx games = Ok es ->
    Forall (fun row => List.length (valid_power_idxs row) = n_powers)
           (List.concat games).
Proof.
  induction games as [|g rest IH]; simpl; intros gi x es H; [constructor|].
  apply bind_ok_inv in H; destruct H as (es1 & H1 & H).
  apply bind_ok_inv in H; destruct H as (es2 & H2 & _).
  apply Forall_app; split;
    [apply (index_phases_rows _ _ _ _ _ H1) | apply (IH _ _ _ H2)].
Qed.

(** The entries of the index: one for every set bit of a row of a game,
    with the number of the game, the number of the turn in the game, the
    power, and the number of the row among all rows. *)
Lemma index_games_entries (games : list (EncodedGame Fields)) :
  forall game_idx x_idx es,
    index_games n_powers game_idx x_idx games = Ok es ->
    forall e,
      In e es <->
      exists gi g j row p,
        nth_error games gi = Some g
        /\ nth_error g j = Some row
        /\ nth_error (valid_power_idxs row) p = Some true
        /\ e = mkEntry (game_idx + Z.of_nat gi) (Z.of_nat j) (Z.of_nat p)
                 (x_idx
                  + Z.of_nat (List.length (List.concat (firstn gi games))
                              + j)).
Proof.
  induction games as [|g rest IH]; simpl; intros game_idx x_idx es H e.
  - inversion H; subst; split; [intros []|].
    intros ([|gi] & g & j & row & p & Hg & _); discriminate.
  - apply bind_ok_inv in H; destruct H as (es1 & H1 & H).
    apply bind_ok_inv in H; destruct H as (es2 & H2 & H).
    inversion H; subst; clear H.
    rewrite in_app_iff, (index_phases_entries _ _ _ _ _ _ _ H1),
      (IH _ _ _ H2); split.
    + intros [(j & row & p & Hj & Hp & ->)
             |(gi & g' & j & row & p & Hg & Hj & Hp & ->)].
      * exists 0, g, j, row, p; simpl.
        repeat split; try assumption; f_equal; lia.
      * exists (S gi), g', j, row, p; simpl.
        repeat split; try assumption.
        rewrite length_app; f_equal; lia.
    + intros ([|gi] & g' & j & row & p & Hg & Hj & Hp & ->); simpl in Hg.
      * inversion Hg; subst g'; left; exists j, row, p.
        repeat split; try assumption; simpl; f_equal; lia.
      * right; exists gi, g', j, row, p.
        repeat split; try assumption; simpl.
        rewrite length_app; f_equal; lia.
Qed.

(** What [preprocess] leaves in the dataset. *)
Lemma preprocess_index (self : DS)
  (tuples : list (option string * option (EncodedGame Fields))) (d : DS) :
  preprocess n_powers self tuples = Ok d ->
  exists kept es,
    index_games n_powers 0 0 kept = Ok es
    /\ game_idxs d = Some (map e_game es)
    /\ phase_idxs d = Some (map e_phase es)
    /\ power_idxs d = Some (map e_power es)
    /\ x_idxs d = Some (map e_x es)
    /\ encoded_games d = Some (List.concat kept)
    /\ num_games d = Some (Z.of_nat (List.length kept))
    /\ num_phases d = Some (Z.of_nat (List.length (List.concat kept)))
    /\ num_elements d = Some (Z.of_nat (List.length es))
    /\ n_cf_agent_samples d = n_cf_agent_samples self
    /\ _preprocessed d = true.
Proof.
  unfold preprocess; intros H.
  destruct (debug_only_opening_phase _ self); [discriminate|].
  apply bind_ok_inv in H; destruct H as (kept & Hk & H).
  apply bind_ok_inv in H; destruct H as (ids & Hi & H).
  apply bind_ok_inv in H; destruct H as (es & He & H).
  inversion H; subst; clear H; simpl.
  exists kept, es.
  split; [exact He|].
  do 6 (split; [reflexivity|]).
  split; [destruct kept; reflexivity|].
  repeat split; reflexivity.
Qed.

Lemma index_entry_valid (kept : list (EncodedGame Fields))
  (es : list IndexEntry) (e : IndexEntry) :
  index_games n_powers 0 0 kept = Ok es ->
  In e es ->
  (0 <= e_game e < Z.of_nat (List.length kept))%Z
  /\ (0 <= e_x e < Z.of_nat (List.length (List.concat kept)))%Z
  /\ (0 <= e_power e < Z.of_nat n_powers)%Z
  /\ exists row,
       nth_error (List.concat kept) (Z.to_nat (e_x e)) = Some row
       /\ nth_error (valid_power_idxs row) (Z.to_nat (e_power e))
          = Some true.
Proof.
  intros He Hin.
  apply (index_games_entries _ _ _ _ He) in Hin.
  destruct Hin as (gi & g & j & row & p & Hg & Hj & Hp & ->); simpl.
  pose proof (nth_error_concat_at _ _ _ _ _ Hg Hj) as Hrow.
  assert (Hgi : gi < List.length kept)
    by (apply nth_error_Some; congruence).
  assert (Hx : List.length (List.concat (firstn gi kept)) + j
               < List.length (List.concat kept))
    by (apply (proj1 (nth_error_Some _ _)); intros E;
        generalize (eq_trans (eq_sym Hrow) E); discriminate).
  assert (Hlen : List.length (valid_power_idxs row) = n_powers).
  { pose proof (index_games_rows _ _ _ _ He) as Hall.
    rewrite Forall_forall in Hall; apply Hall.
    eapply nth_error_In; exact Hrow. }
  assert (Hpn : p < n_powers)
    by (rewrite <- Hlen; apply nth_error_Some; congruence).
  split; [lia|]; split; [lia|]; split; [lia|].
  exists row; rewrite !Nat2Z.id; auto.
Qed.

(** Every entry of the index that [preprocess] builds points at a set bit:
    the rows [x_idxs[k]] and [power_idxs[k]] name a turn row of the
    storage, below [num_phases], and a power, below [len(POWERS)], that is
    valid in this row, and [game_idxs[k]] is below [num_games]; and every
    set bit of the storage has its entry. *)
Theorem preprocess_index_points_at_valid_powers (self : DS)
  (tuples : list (option string * option (EncodedGame Fields))) (d : DS) :
  preprocess n_powers self tuples = Ok d ->
  exists gs ps xs rows,
    game_idxs d = Some gs /\ power_idxs d = Some ps /\ x_idxs d = Some xs
    /\ encoded_games d = Some rows
    /\ num_phases d = Some (Z.of_nat (List.length rows))
    /\ List.length gs = List.length xs
    /\ List.length ps = List.length xs
    /\ (forall k g x p,
          nth_error gs k = Some g -> nth_error xs k = Some x ->
          nth_error ps k = Some p ->
          (exists ng, num_games d = Some ng /\ (0 <= g < ng)%Z)
          /\ (0 <= x < Z.of_nat (List.length rows))%Z
          /\ (0 <= p < Z.of_nat n_powers)%Z
          /\ exists row,
               nth_error rows (Z.to_nat x) = Some row
               /\ nth_error (valid_power_idxs row) (Z.to_nat p)
                  = Some true)
    /\ (forall r row p,
          nth_error rows r = Some row ->
          nth_error (valid_power_idxs row) p = Some true ->
          exists k, nth_error xs k = Some (Z.of_nat r)
                    /\ nth_error ps k = Some (Z.of_nat p)).
Proof.
  intros H.
  destruct (preprocess_index _ _ _ H)
    as (kept & es & He & Hg & _ & Hp & Hx & Hr & Hng & Hnp & _).
  exists (map e_game es), (map e_power es), (map e_x es), (List.concat kept).
  do 5 (split; [assumption|]).
  split; [rewrite !length_map; reflexivity|].
  split; [rewrite !length_map; reflexivity|].
  split.
  - intros k g x p Hkg Hkx Hkp.
    rewrite nth_error_map in Hkg, Hkx, Hkp.
    destruct (nth_error es k) as [e|] eqn:Ek; [|discriminate].
    simpl in Hkg, Hkx, Hkp; inversion Hkg; inversion Hkx; inversion Hkp.
    subst g x p.
    destruct (index_entry_valid _ _ _ He (nth_error_In _ _ Ek))
      as (H1 & H2 & H3 & H4).
    split; [eexists; split; [exact Hng | exact H1]|].
    auto.
  - intros r row p Hrow Hbit.
    destruct (nth_error_concat_inv _ _ _ Hrow)
      as (gi & g & j & Hgi & Hj & ->).
    assert (Hin : In (mkEntry (0 + Z.of_nat gi) (Z.of_nat j) (Z.of_nat p)
                        (0 + Z.of_nat
                               (List.length (List.concat (firstn gi kept))
                                + j))) es).
    { apply (index_games_entries _ _ _ _ He).
      exists gi, g, j, row, p; auto. }
    apply In_nth_error in Hin; destruct Hin as [k Hk].
    exists k; rewrite !nth_error_map, Hk; simpl; auto.
Qed.

(** The examples of a pre-processed dataset: with at least one sample per
    example, every index from 0 up to the length resolves, to a sample
    below [n_cf_agent_samples] and to a turn row and a power that is valid
    in this row. *)
Theorem getitem_returns_valid_power (self : DS)
  (tuples : list (option string * option (EncodedGame Fields))) (d : DS)
  (len i : Z) :
  preprocess n_powers self tuples = Ok d ->
  (0 < n_cf_agent_samples self)%Z ->
  Dataset_len d = Ok len ->
  (0 <= i < len)%Z ->
  exists r rows row,
    Dataset_getitem d i = Ok [r]
    /\ r_sample_idx r = (i mod n_cf_agent_samples self)%Z
    /\ (0 <= r_sample_idx r < n_cf_agent_samples self)%Z
    /\ encoded_games d = Some rows
    /\ (0 <= r_x_idx r)%Z /\ (0 <= r_power_idx r < Z.of_nat n_powers)%Z
    /\ nth_error rows (Z.to_nat (r_x_idx r)) = Some row
    /\ nth_error (valid_power_idxs row) (Z.to_nat (r_power_idx r))
       = Some true.
Proof.
  intros H Hcf Hlen Hi.
  destruct (preprocess_index _ _ _ H)
    as (kept & es & He & _ & _ & Hp & Hx & Hr & _ & _ & Hne & Hn & Hpre).
  assert (Hl : len = (Z.of_nat (List.length es) * n_cf_agent_samples self)%Z).
  { unfold Dataset_len, Dataset_len_ in Hlen; rewrite Hne, Hn in Hlen.
    simpl in Hlen.
    destruct (_ <? 0)%Z; [discriminate | inversion Hlen; reflexivity]. }
  subst len.
  set (n := n_cf_agent_samples self) in *.
  assert (Hrow : (0 <= i / n < Z.of_nat (List.length es))%Z).
  { split; [apply Z.div_pos; lia|].
    apply Z.div_lt_upper_bound; lia. }
  destruct (nth_error es (Z.to_nat (i / n))) as [e|] eqn:Ee;
    [|apply nth_error_None in Ee; lia].
  destruct (index_entry_valid _ _ _ He (nth_error_In _ _ Ee))
    as (_ & H2 & H3 & row & H4 & H5).
  exists (mkResolved (e_x e) (e_power e) (i mod n)%Z), (List.concat kept), row.
  split.
  - rewrite (getitem_in_range Fields d (map e_x es) (map e_power es) i);
      try assumption.
    + rewrite Hn; fold n.
      rewrite (nth_error_nth _ _ 0%Z
                 (eq_trans (nth_error_map _ _ _) (f_equal _ Ee))).
      rewrite (nth_error_nth _ _ 0%Z
                 (eq_trans (nth_error_map _ _ _) (f_equal _ Ee))).
      reflexivity.
    + rewrite !length_map; reflexivity.
    + rewrite length_map; exact Hne.
    + rewrite Hn; exact Hcf.
    + rewrite length_map, Hn; exact Hi.
  - simpl; split; [reflexivity|].
    split; [apply Z.mod_pos_bound; exact Hcf|].
    split; [exact Hr|].
    split; [lia|]; split; [exact H3|]; split; assumption.
Qed.

(** A batch is resolved index by index: the result of [__getitem__] on an
    index tensor has, for every index of the tensor and in its order, what
    [__getitem__] returns for this index alone. *)
Theorem getitem_batch_is_pointwise (d : DS) (idx : list Z)
  (batch : list Resolved) :
  Dataset_getitem_tensor d idx = Ok batch ->
  Forall2 (fun i r => Dataset_getitem d i = Ok [r]) idx batch.
Proof.
  unfold Dataset_getitem, Dataset_getitem_tensor; intros H.
  destruct (negb (_preprocessed d)); [discriminate|].
  apply bind_ok_inv in H; destruct H as (m & Hm & H).
  apply bind_ok_inv in H; destruct H as (n & Hn & H).
  rewrite Hn; cbn [bind].
  destruct (negb (m <? n)%Z) eqn:Em; [discriminate|].
  apply negb_false_iff, Z.ltb_lt in Em.
  destruct (n_cf_agent_samples d =? 0)%Z; [discriminate|].
  apply bind_ok_inv in H; destruct H as (xs & Hxs & H).
  apply bind_ok_inv in H; destruct H as (ps & Hps & H).
  rewrite Hxs, Hps; cbn [bind].
  assert (Hmax : Forall (fun i => (i <= m)%Z) idx).
  { unfold tensor_max in Hm; destruct idx as [|i0 rest]; [discriminate|].
    inversion Hm; subst m; clear.
    assert (G : forall l a, (a <= fold_left Z.max l a)%Z
                            /\ Forall (fun i => (i <= fold_left Z.max l a)%Z) l).
    { induction l as [|x l IH]; intros a; simpl; [split; [lia|constructor]|].
      destruct (IH (Z.max a x)) as [H1 H2].
      split; [lia|]; constructor; [lia | exact H2]. }
    destruct (G rest i0); constructor; assumption. }
  clear Hm; revert batch H; induction idx as [|i rest IH]; intros batch H;
    simpl in H.
  - inversion H; constructor.
  - inversion Hmax as [|? ? Hi Hrest]; subst.
    apply bind_ok_inv in H; destruct H as (r & Hr & H).
    apply bind_ok_inv in H; destruct H as (rs & Hrs & H).
    inversion H; subst; clear H.
    constructor; [|apply (IH Hrest _ Hrs)].
    simpl.
    replace (negb (i <? n)%Z) with false
      by (symmetry; apply negb_false_iff, Z.ltb_lt; lia).
    rewrite Hr; reflexivity.
Qed.

End IndexEntries.

Lemma preprocess_index_points_at_valid_powers_witness :
  exists ps xs rows,
    power_idxs Ex.indexed = Some ps /\ x_idxs Ex.indexed = Some xs
    /\ encoded_games Ex.indexed = Some rows
    /\ List.length ps = List.length xs
    /\ forall r row p,
         nth_error rows r = Some row ->
         nth_error (valid_power_idxs row) p = Some true ->
         exists k, nth_error xs k = Some (Z.of_nat r)
                   /\ nth_error ps k = Some (Z.of_nat p).
Proof.
  destruct (preprocess_index_points_at_valid_powers unit 7
              (Dataset_init ["game_1"; "game_2"; "game_3"] 1) Ex.tuples
              Ex.indexed)
    as (gs & ps & xs & rows & _ & H2 & H3 & H4 & _ & _ & H7 & _ & H9).
  - vm_compute; reflexivity.
  - exists ps, xs, rows; auto.
Defined.

Lemma getitem_returns_valid_power_witness :
  exists r rows row,
    Dataset_getitem Ex.indexed 1 = Ok [r]
    /\ r_sample_idx r = (1 mod 1)%Z
    /\ (0 <= r_sample_idx r < 1)%Z
    /\ encoded_games Ex.indexed = Some rows
    /\ (0 <= r_x_idx r)%Z /\ (0 <= r_power_idx r < Z.of_nat 7)%Z
    /\ nth_error rows (Z.to_nat (r_x_idx r)) = Some row
    /\ nth_error (valid_power_idxs row) (Z.to_nat (r_power_idx r))
       = Some true.
Proof.
  apply (getitem_returns_valid_power unit 7
           (Dataset_init ["game_1"; "game_2"; "game_3"] 1) Ex.tuples
           Ex.indexed 3 1).
  - vm_compute; reflexivity.
  - simpl; lia.
  - vm_compute; reflexivity.
  - lia.
Defined.

Lemma getitem_batch_is_pointwise_witness :
  Forall2 (fun i r => Dataset_getitem Ex.indexed i = Ok [r])
          [0; 2]%Z [mkResolved 0 2 0; mkResolved 2 6 0]%Z.
Proof.
  apply (getitem_batch_is_pointwise unit Ex.indexed).
  vm_compute; reflexivity.
Defined.

(** ** What pre-processing asks of the games, and the ids it keeps *)

Lemma filterM_spec {A : Type} (f : A -> result bool) (l : list A) :
  forall r,
    filterM f l = Ok r ->
    Forall (fun x => exists b, f x = Ok b) l
    /\ forall x, In x r <-> In x l /\ f x = Ok true.
Proof.
  induction l as [|a l IH]; simpl; intros r H.
  - inversion H; subst; split; [constructor|].
    intros x; split; [intros [] | intros [[] _]].
  - apply bind_ok_inv in H; destruct H as (b & Hb & H).
    apply bind_ok_inv in H; destruct H as (r' & Hr & H).
    inversion H; subst; clear H.
    destruct (IH _ Hr) as [IH1 IH2].
    split; [constructor; [eauto | exact IH1]|].
    intros x; destruct b; simpl; rewrite ?IH2; split.
    + intros [<-|[H1 H2]]; auto.
    + intros [[<-|H1] H2]; auto.
    + intros [H1 H2]; auto.
    + intros [[<-|H1] H2]; [congruence | auto].
Qed.

Section Preprocess.

Variable Fields : Type.
Variable n_powers : nat.

Local Abbreviation DS := (Dataset Fields).
Local Abbreviation Tuple := (option string * option (EncodedGame Fields))%type.
Local Abbreviation loaded :=
  (flat_map (fun t : Tuple => match snd t with Some g => [g] | None => [] end)).
Local Abbreviation id_kept :=
  (fun t : Tuple => match fst t, snd t with
                    | None, _ => Ok false
                    | Some _, Some g => first_row_any g
                    | Some _, None => Raise TypeError
                    end).
Local Abbreviation mask_ok :=
  (fun row : EncodedRow Fields =>
     List.length (valid_power_idxs row) = n_powers).

Lemma first_row_any_ok (g : EncodedGame Fields) (b : bool) :
  first_row_any g = Ok b -> g <> [] /\ has_valid_power g = b.
Proof.
  unfold first_row_any, Py.getitem; destruct g as [|row rest]; simpl;
    intros H; inversion H; split; [discriminate | reflexivity].
Qed.

Lemma index_games_ok (games : list (EncodedGame Fields)) :
  forall game_idx x_idx es,
    index_games n_powers game_idx x_idx games = Ok es ->
    Forall (Forall mask_ok) games.
Proof.
  induction games as [|g rest IH]; simpl; intros gi x es H; [constructor|].
  apply bind_ok_inv in H; destruct H as (es1 & H1 & H).
  apply bind_ok_inv in H; destruct H as (es2 & H2 & _).
  constructor;
    [apply (index_phases_rows _ _ _ _ _ _ _ H1) | apply (IH _ _ _ H2)].
Qed.

(** [preprocess] returns a dataset only if the debugging flag is off and
    every tuple can be taken: a game that was not loaded has no id, every
    loaded game has a turn, and every game that is kept has masks of
    [len(POWERS)] bits.  In every other case it raises. *)
Theorem preprocess_returns_only_if (self : DS) (tuples : list Tuple)
  (d : DS) :
  preprocess n_powers self tuples = Ok d ->
  debug_only_opening_phase _ self = false
  /\ Forall (encodable n_powers) tuples.
Proof.
  unfold preprocess; intros H.
  destruct (debug_only_opening_phase _ self); [discriminate|].
  split; [reflexivity|].
  apply bind_ok_inv in H; destruct H as (kept & Hk & H).
  apply bind_ok_inv in H; destruct H as (ids & Hi & H).
  apply bind_ok_inv in H; destruct H as (es & He & _).
  destruct (filterM_spec _ _ _ Hk) as [Hall Hin].
  destruct (filterM_spec _ _ _ Hi) as [Hids _].
  pose proof (index_games_ok _ _ _ _ He) as Hrows.
  rewrite Forall_forall in Hall, Hids, Hrows.
  apply Forall_forall; intros [i [g|]] Ht; unfold encodable; simpl.
  - assert (Hg : In g (loaded tuples))
      by (apply in_flat_map; exists (i, Some g); split;
          [exact Ht | left; reflexivity]).
    destruct (Hall g Hg) as [b Hb].
    destruct (first_row_any_ok _ _ Hb) as [Hne Hv].
    split; [exact Hne|].
    intros Htrue; apply Hrows, Hin; split; [exact Hg|].
    rewrite Hb, <- Hv, Htrue; reflexivity.
  - destruct (Hids _ Ht) as [b Hb]; simpl in Hb.
    destruct i; [discriminate | reflexivity].
Qed.

Lemma kept_games_spec (tuples : list Tuple) :
  Forall loaded_or_not tuples ->
  forall kept ids,
    filterM (@first_row_any Fields) (loaded tuples) = Ok kept ->
    filterM id_kept tuples = Ok ids ->
    kept = map snd (kept_games tuples)
    /\ flat_map (fun t : Tuple => match fst t with
                                  | Some i => [i] | None => [] end) ids
       = map fst (kept_games tuples).
Proof.
  induction 1 as [|t rest Ht _ IH]; intros kept ids Hk Hi.
  { inversion Hk; inversion Hi; split; reflexivity. }
  destruct t as [[i|] [g|]]; simpl in Ht; try contradiction.
  - simpl in Hk, Hi.
    apply bind_ok_inv in Hk; destruct Hk as (b & Hb & Hk).
    apply bind_ok_inv in Hk; destruct Hk as (kept' & Hk' & Hk).
    apply bind_ok_inv in Hi; destruct Hi as (b' & Hb' & Hi).
    apply bind_ok_inv in Hi; destruct Hi as (ids' & Hi' & Hi).
    rewrite Hb in Hb'; inversion Hb'; subst b'.
    inversion Hk; inversion Hi; subst; clear Hk Hi Hb'.
    destruct (IH _ _ Hk' Hi') as [IH1 IH2].
    destruct (first_row_any_ok _ _ Hb) as [_ Hv].
    unfold kept_games in *; simpl; rewrite Hv.
    destruct b; simpl; rewrite IH1, IH2; split; reflexivity.
  - simpl in Hk, Hi.
    apply bind_ok_inv in Hi; destruct Hi as (ids' & Hi' & Hi).
    inversion Hi; subst; clear Hi.
    apply (IH _ _ Hk Hi').
Qed.

(** [preprocess] keeps the ids in step with the games: on tuples as
    [encode_game] returns them, the ids of the dataset are the ids of the
    games with a valid power on their first turn, in their order, the
    stored rows are the rows of these games, one game after the other, and
    [num_games] is the number of ids. *)
Theorem preprocess_game_ids_aligned (self : DS) (tuples : list Tuple)
  (d : DS) :
  Forall loaded_or_not tuples ->
  preprocess n_powers self tuples = Ok d ->
  game_ids d = map fst (kept_games tuples)
  /\ encoded_games d = Some (List.concat (map snd (kept_games tuples)))
  /\ num_games d = Some (Z.of_nat (List.length (game_ids d))).
Proof.
  unfold preprocess; intros Hshape H.
  destruct (debug_only_opening_phase _ self); [discriminate|].
  apply bind_ok_inv in H; destruct H as (kept & Hk & H).
  apply bind_ok_inv in H; destruct H as (ids & Hi & H).
  apply bind_ok_inv in H; destruct H as (es & He & H).
  inversion H; subst; clear H; simpl.
  destruct (kept_games_spec _ Hshape _ _ Hk Hi) as [H1 H2].
  rewrite H2, H1, !length_map; auto.
Qed.

End Preprocess.

Lemma preprocess_returns_only_if_witness :
  debug_only_opening_phase _
    (Dataset_init (Fields := unit) ["game_1"; "game_2"; "game_3"] 1)
  = false
  /\ Forall (encodable 7) Ex.tuples.
Proof.
  apply (preprocess_returns_only_if unit 7
           (Dataset_init ["game_1"; "game_2"; "game_3"] 1) Ex.tuples
           Ex.indexed).
  vm_compute; reflexivity.
Defined.

Lemma preprocess_game_ids_aligned_witness :
  game_ids Ex.indexed = ["game_1"; "game_3"]
  /\ num_games Ex.indexed = Some 2%Z.
Proof.
  destruct (preprocess_game_ids_aligned unit 7
              (Dataset_init ["game_1"; "game_2"; "game_3"] 1) Ex.tuples
              Ex.indexed) as (H1 & _ & H3).
  - repeat constructor.
  - vm_compute; reflexivity.
  - split; [exact H1 | exact H3].
Defined.

(** ** A turn with the recorded orders is encoded *)

Section RecordedTotal.

Variable LOCS : list string.
Variable ORDER_VOCABULARY : list string.
Variable EOS_IDX : Z.
Variable POWERS : list string.
Variable State : Type.
Variable square_score : nat -> State -> Q.
Variable game : Game State.
Variable phase_idx : nat.
Variable value_decay_alpha : Q.

Local Abbreviation encode :=
  (encode_power_actions LOCS ORDER_VOCABULARY EOS_IDX).
Local Abbreviation powers_loop :=
  (encode_powers LOCS ORDER_VOCABULARY EOS_IDX).
Local Abbreviation phase :=
  (encode_phase LOCS ORDER_VOCABULARY EOS_IDX POWERS square_score game
     phase_idx value_decay_alpha).
Local Abbreviation recorded orders power :=
  (match Py.get orders power with Some v => v | None => [] end).



End RecordedTotal.


(** ** The examples of a merged dataset *)

Section MergeExamples.

Variable Fields : Type.

Local Abbreviation DS := (Dataset Fields).
Local Abbreviation len_of f :=
  (fun a : DS => match f a with Some t => List.length t | None => 0 end).

Lemma offsets_nth (g : DS -> Z) (d : DS) (l2 : list DS) :
  forall l1 start,
    nth_error (offsets start (map g (l1 ++ d :: l2))) (List.length l1)
    = Some (start + total g l1)%Z.
Proof.
  induction l1 as [|a l1 IH]; intros start; simpl.
  - f_equal; lia.
  - rewrite IH; f_equal; lia.
Qed.

Lemma the_values {B : Type} (h : DS -> option B) (ds : list DS) :
  forall r,
    mapM (fun d => the (h d)) ds = Ok r ->
    Forall2 (fun d v => h d = Some v) ds r.
Proof.
  intros r H; apply mapM_Forall2 in H.
  eapply Forall2_impl; [|exact H].
  intros a b Hab; simpl in Hab; destruct (h a); inversion Hab; reflexivity.
Qed.

Lemma the_phases (ds : list DS) (nps : list Z) :
  mapM (fun d => the (num_phases d)) ds = Ok nps -> nps = map phases ds.
Proof.
  intros H; apply the_values in H.
  induction H as [|a v l r Ha _ IH]; [reflexivity|].
  simpl; unfold phases at 1; rewrite Ha, IH; reflexivity.
Qed.

(** Where the rows of one part are in a concatenation with offsets. *)
Lemma shifted_nth (f : DS -> option (list Z)) (d : DS) (l2 : list DS)
  (t_d : list Z) (off_d : Z) :
  f d = Some t_d ->
  forall l1 offs ts,
    mapM (fun d_off => t <- the (f (fst d_off)) ;;
                       Ok (map (Z.add (snd d_off)) t))
         (combine (l1 ++ d :: l2) offs) = Ok ts ->
    nth_error offs (List.length l1) = Some off_d ->
    forall k v,
      nth_error t_d k = Some v ->
      nth_error (List.concat ts) (list_sum (map (len_of f) l1) + k)
      = Some (off_d + v)%Z.
Proof.
  intros Hd; induction l1 as [|a l1 IH]; intros [|o offs] ts H Ho k v Hk;
    simpl in Ho; try discriminate.
  - inversion Ho; subst o; simpl in H.
    rewrite Hd in H; cbn [the bind] in H.
    apply bind_ok_inv in H; destruct H as (ts' & _ & H).
    inversion H; subst; simpl.
    rewrite nth_error_app1
      by (rewrite length_map; apply nth_error_Some; congruence).
    rewrite nth_error_map, Hk; reflexivity.
  - simpl in H.
    apply bind_ok_inv in H; destruct H as (t & Ht & H).
    apply bind_ok_inv in H; destruct H as (ts' & Hts & H).
    inversion H; subst; clear H.
    apply bind_ok_inv in Ht; destruct Ht as (t_a & Ha & Ht).
    inversion Ht; subst; clear Ht.
    destruct (f a) as [t0|] eqn:Ea; inversion Ha; subst t0.
    simpl; rewrite Ea.
    rewrite nth_error_app2 by (rewrite length_map; lia).
    rewrite length_map.
    replace (List.length t_a + list_sum (map (len_of f) l1) + k
             - List.length t_a)
      with (list_sum (map (len_of f) l1) + k) by lia.
    apply (IH _ _ Hts Ho k v Hk).
Qed.

(** Where the entries of one part are in a plain concatenation. *)
Lemma plain_nth {B : Type} (f : DS -> option (list B)) (d : DS)
  (l2 : list DS) (t_d : list B) :
  f d = Some t_d ->
  forall l1 ts,
    mapM (fun a => the (f a)) (l1 ++ d :: l2) = Ok ts ->
    forall k v,
      nth_error t_d k = Some v ->
      nth_error (List.concat ts) (list_sum (map (len_of f) l1) + k)
      = Some v.
Proof.
  intros Hd; induction l1 as [|a l1 IH]; intros ts H k v Hk; simpl in H.
  - rewrite Hd in H; cbn [the bind] in H.
    apply bind_ok_inv in H; destruct H as (ts' & _ & H).
    inversion H; subst; simpl.
    rewrite nth_error_app1 by (apply nth_error_Some; congruence).
    exact Hk.
  - apply bind_ok_inv in H; destruct H as (t_a & Ha & H).
    apply bind_ok_inv in H; destruct H as (ts' & Hts & H).
    inversion H; subst; clear H.
    destruct (f a) as [t0|] eqn:Ea; inversion Ha; subst t0.
    simpl; rewrite Ea.
    rewrite nth_error_app2 by lia.
    replace (List.length t_a + list_sum (map (len_of f) l1) + k
             - List.length t_a)
      with (list_sum (map (len_of f) l1) + k) by lia.
    apply (IH _ Hts k v Hk).
Qed.

Lemma populated_sums (l : list DS) :
  Forall populated l ->
  total elements l = Z.of_nat (list_sum (map (len_of x_idxs) l))
  /\ list_sum (map (len_of power_idxs) l)
     = list_sum (map (len_of x_idxs) l).
Proof.
  induction 1 as [|a l Ha _ [IH1 IH2]]; simpl; [split; reflexivity|].
  destruct Ha as (gs & phs & pws & xs & enc & ng & np & Ha).
  destruct Ha as (_ & _ & Hp & Hx & _ & _ & _ & He & Hl).
  unfold elements at 1; rewrite He, Hx, Hp, IH1, IH2, Hl.
  split; [lia | reflexivity].
Qed.

(** The merged dataset serves the examples of its parts, one part after
    the other: example [i] of a part is the example of the merged dataset
    at [i] plus the number of examples of the parts before, with the same
    power, and with the turn row shifted by the number of turn rows of the
    parts before.  When this number is the number of their stored rows, as
    [preprocess] sets it, the shifted row of the merged storage is the row
    of the part. *)
Theorem from_merge_keeps_examples (l1 l2 : list DS) (d merged : DS)
  (i : Z) :
  Forall well_formed (l1 ++ d :: l2) ->
  from_merge (l1 ++ d :: l2) = Ok merged ->
  (0 <= i < elements d)%Z ->
  exists x p,
    Dataset_getitem d i = Ok [mkResolved x p 0]
    /\ Dataset_getitem merged (total elements l1 + i)
       = Ok [mkResolved (total phases l1 + x) p 0]
    /\ (Forall (fun a => exists rows,
                    encoded_games a = Some rows
                    /\ num_phases a = Some (Z.of_nat (List.length rows)))
               l1 ->
        forall rows_d row,
          encoded_games d = Some rows_d ->
          (0 <= x)%Z ->
          nth_error rows_d (Z.to_nat x) = Some row ->
          exists rows_m,
            encoded_games merged = Some rows_m
            /\ nth_error rows_m (Z.to_nat (total phases l1 + x)) = Some row).
Proof.
  intros Hwf H Hi.
  pose proof (from_merge_well_formed _ _ _ Hwf H) as Hwfm.
  unfold from_merge in H.
  apply bind_ok_inv in H; destruct H as ([] & Hchk & H).
  pose proof (check_mergeable_inv _ _ Hchk) as Hm.
  assert (Hpop : Forall populated (l1 ++ d :: l2)).
  { rewrite Forall_forall in *; intros a Ha.
    apply Hwf; [exact Ha | apply (Hm a Ha)]. }
  apply bind_ok_inv in H; destruct H as (ngs & Hngs & H).
  apply bind_ok_inv in H; destruct H as (nps & Hnps & H).
  apply bind_ok_inv in H; destruct H as (gs & Hgs & H).
  apply bind_ok_inv in H; destruct H as (mg & Hmg & H).
  apply bind_ok_inv in H; destruct H as (phs & Hphs & H).
  apply bind_ok_inv in H; destruct H as (mph & Hmph & H).
  apply bind_ok_inv in H; destruct H as (pws & Hpws & H).
  apply bind_ok_inv in H; destruct H as (mpw & Hmpw & H).
  apply bind_ok_inv in H; destruct H as (xs & Hxs & H).
  apply bind_ok_inv in H; destruct H as (mx & Hmx & H).
  apply bind_ok_inv in H; destruct H as (encs & Hencs & H).
  apply bind_ok_inv in H; destruct H as (nes & Hnes & H).
  inversion H; subst merged; clear H.
  assert (Hcat : forall ts m, tensor_cat ts = Ok m -> m = List.concat ts).
  { intros [|t ts] m Hc; inversion Hc; reflexivity. }
  apply Hcat in Hmx, Hmpw; subst mx mpw.
  apply the_phases in Hnps; subst nps.
  (* the part *)
  apply Forall_app in Hpop; destruct Hpop as [Hpop1 Hpop2].
  inversion Hpop2 as [|? ? Hd _]; subst.
  destruct Hd as (gs_d & phs_d & ps_d & xs_d & enc_d & ng_d & np_d & Hd).
  destruct Hd as (_ & _ & Hps_d & Hxs_d & Henc_d & _ & _ & Hne_d & Hl_d).
  assert (Hmd : mergeable d).
  { rewrite Forall_forall in Hm; apply Hm, in_or_app; right; left.
    reflexivity. }
  destruct Hmd as [Hcf_d Hpre_d].
  unfold elements in Hi; rewrite Hne_d in Hi.
  set (k := Z.to_nat i).
  assert (Hk : k < List.length xs_d) by (unfold k; lia).
  destruct (nth_error xs_d k) as [x|] eqn:Ex;
    [|apply nth_error_None in Ex; lia].
  destruct (nth_error ps_d k) as [p|] eqn:Ep;
    [|apply nth_error_None in Ep; lia].
  exists x, p.
  destruct (populated_sums l1 Hpop1) as [Hsum Hsum'].
  set (n1 := list_sum (map (len_of x_idxs) l1)) in *.
  pose proof (shifted_nth x_idxs d l2 xs_d (0 + total phases l1)%Z Hxs_d
                l1 _ _ Hxs (offsets_nth phases d l2 l1 0%Z) k x Ex) as HX.
  pose proof (plain_nth power_idxs d l2 ps_d Hps_d l1 _ Hpws k p Ep) as HP.
  rewrite Hsum' in HP; fold n1 in HX, HP.
  rewrite Z.add_0_l in HX.
  split; [|split].
  - rewrite (getitem_in_range Fields d xs_d ps_d i Hpre_d Hxs_d Hps_d Hl_d
               Hne_d) by (rewrite ?Hcf_d; lia).
    rewrite Hcf_d, Z.div_1_r, Z.mod_1_r; fold k.
    rewrite (nth_error_nth _ _ 0%Z Ex), (nth_error_nth _ _ 0%Z Ep).
    reflexivity.
  - destruct (Hwfm eq_refl)
      as (gs_m & phs_m & ps_m & xs_m & enc_m & ng_m & np_m & Hpm).
    simpl in Hpm.
    destruct Hpm as (_ & _ & Hps_m & Hxs_m & _ & _ & _ & Hne_m & Hl_m).
    inversion Hps_m; inversion Hxs_m; subst ps_m xs_m.
    assert (Hlt : n1 + k < List.length (List.concat xs))
      by (apply nth_error_Some; congruence).
    match goal with
    | |- Dataset_getitem ?m _ = _ =>
        rewrite (getitem_in_range Fields m (List.concat xs)
                   (List.concat pws) (total elements l1 + i)
                   eq_refl eq_refl eq_refl Hl_m Hne_m)
          by (simpl; lia)
    end.
    simpl; rewrite Z.div_1_r, Z.mod_1_r.
    replace (Z.to_nat (total elements l1 + i)) with (n1 + k)
      by (unfold k; lia).
    rewrite (nth_error_nth _ _ 0%Z HX), (nth_error_nth _ _ 0%Z HP).
    reflexivity.
  - intros Hrows rows_d row Hrd Hx0 Hrow; simpl.
    eexists; split; [reflexivity|].
    rewrite Henc_d in Hrd; inversion Hrd; subst rows_d.
    pose proof (plain_nth encoded_games d l2 enc_d Henc_d l1 _ Hencs
                  _ _ Hrow) as HR.
    replace (Z.to_nat (total phases l1 + x))
      with (list_sum (map (len_of encoded_games) l1) + Z.to_nat x);
      [exact HR|].
    assert (Hph : total phases l1
                  = Z.of_nat (list_sum (map (len_of encoded_games) l1))).
    { clear - Hrows; induction Hrows as [|a l (rows & Ha & Hb) _ IH];
        simpl; [reflexivity|].
      unfold phases at 1; rewrite Hb, Ha, IH; lia. }
    rewrite Hph; lia.
Qed.

End MergeExamples.

Lemma from_merge_keeps_examples_witness :
  exists merged x p,
    from_merge [Ex.indexed; Ex.indexed] = Ok merged
    /\ Dataset_getitem Ex.indexed 1 = Ok [mkResolved x p 0]
    /\ Dataset_getitem merged (total elements [Ex.indexed] + 1)
       = Ok [mkResolved (total phases [Ex.indexed] + x) p 0].
Proof.
  assert (H : exists merged,
             from_merge [Ex.indexed; Ex.indexed] = Ok merged)
    by (eexists; vm_compute; reflexivity).
  destruct H as [merged H].
  assert (Hwf : well_formed Ex.indexed).
  { intros _; unfold populated.
    do 7 eexists; repeat split; reflexivity. }
  destruct (from_merge_keeps_examples unit [Ex.indexed] [] Ex.indexed
              merged 1) as (x & p & H1 & H2 & _).
  - apply Forall_cons; [exact Hwf|].
    apply Forall_cons; [exact Hwf | apply Forall_nil].
  - exact H.
  - vm_compute; split; [discriminate | reflexivity].
  - exists merged, x, p; auto.
Defined.

(** ** When the orders of a power are encoded *)

Section EncoderReturns.

Variable LOCS : list string.
Variable ORDER_VOCABULARY : list string.
Variable EOS_IDX : Z.

Local Abbreviation encode :=
  (encode_power_actions LOCS ORDER_VOCABULARY EOS_IDX).
Local Abbreviation to_idx := (ORDER_VOCABULARY_TO_IDX ORDER_VOCABULARY).
Local Abbreviation smarter := (smarter_order_index ORDER_VOCABULARY).
Local Abbreviation ids_of := (resolved_ids ORDER_VOCABULARY).

Hypothesis vocabulary_located : Forall (located LOCS) ORDER_VOCABULARY.

Lemma loc_key_total (s : string) (idx : Z) :
  to_idx s = Ok idx -> exists k, loc_key LOCS ORDER_VOCABULARY idx = Ok k.
Proof.
  intros H; unfold loc_key.
  rewrite (ORDER_VOCABULARY_at_id _ _ _ H); cbn [bind].
  unfold ORDER_VOCABULARY_TO_IDX in H.
  destruct (vocab_find ORDER_VOCABULARY 0 s) as [j|] eqn:E; [|discriminate].
  destruct (vocab_find_nth _ _ _ _ E) as [_ Hn].
  apply nth_error_In in Hn.
  rewrite Forall_forall in vocabulary_located.
  destruct (vocabulary_located s Hn) as (loc & Hloc & Hin).
  unfold Py.getitem; rewrite Hloc; cbn [bind].
  apply index_In_total; exact Hin.
Qed.

Lemma smarter_is_lookup (order : string) (idx : Z) :
  smarter order = Ok idx -> exists s, to_idx s = Ok idx.
Proof.
  unfold smarter_order_index.
  destruct (to_idx order) as [i|e] eqn:E.
  - intros H; inversion H; subst; eauto.
  - destruct e; try discriminate; eauto.
Qed.

Lemma sort_by_loc_total (order_idxs : list Z) :
  Forall (fun idx => exists s, to_idx s = Ok idx) order_idxs ->
  exists sorted, sort_by_loc LOCS ORDER_VOCABULARY order_idxs = Ok sorted.
Proof.
  intros H; unfold sort_by_loc.
  destruct (mapM_total
              (fun idx => k <- loc_key LOCS ORDER_VOCABULARY idx ;; Ok (k, idx))
              order_idxs) as [keyed Hk].
  - eapply Forall_impl; [|exact H]; intros idx [s Hs].
    destruct (loc_key_total _ _ Hs) as [k Hkey].
    rewrite Hkey; cbn [bind]; eauto.
  - rewrite Hk; cbn [bind]; eauto.
Qed.

Lemma existsb_short_inv (orders : list string) :
  existsb (fun order => List.length (Py.split order) <? 3) orders = false ->
  Forall (fun o => ~ short_order o) orders.
Proof.
  induction orders as [|o os IH]; simpl; intros H; [constructor|].
  apply orb_false_iff in H; destruct H as [H1 H2].
  constructor; [|apply IH; exact H2].
  apply Nat.ltb_ge in H1; unfold short_order; lia.
Qed.

(** On a vocabulary whose entries all have their unit in a location of
    [LOCS], a mix of builds and other orders is the only way for
    [encode_power_actions] to raise: every other list of orders is
    encoded, to labels and a validity bit. *)
Theorem encode_power_actions_returns (orders : list string)
  (x : list (list Z)) :
  (Forall (fun o => ~ short_order o) orders ->
   Exists build_order orders -> Forall build_order orders) ->
  exists labels valid, encode orders x = Ok (labels, valid).
Proof.
  intros Hmix; unfold encode_power_actions.
  destruct (existsb _ orders) eqn:Es; [eauto|].
  pose proof (existsb_short_inv _ Es) as Hlen.
  destruct (existsb is_build orders) eqn:Eb.
  - assert (Hall : forallb is_build orders = true).
    { apply existsb_exists in Eb; destruct Eb as (o & Ho & Hb).
      assert (He : Exists build_order orders).
      { apply Exists_exists; exists o; split; [exact Ho|].
        rewrite Forall_forall in Hlen.
        apply (is_build_iff o (Hlen o Ho)); exact Hb. }
      pose proof (Hmix Hlen He) as Hf.
      apply forallb_forall; intros o' Ho'.
      rewrite Forall_forall in Hlen, Hf.
      apply (is_build_iff o' (Hlen o' Ho')), Hf, Ho'. }
    rewrite Hall.
    destruct (to_idx _) as [idx|e] eqn:E.
    + destruct (sort_by_loc_total [idx]) as [sorted Hs].
      { constructor; [eauto | constructor]. }
      rewrite Hs; cbn [bind].
      destruct (locate_orders _ _ _ _) as [l b]; eauto.
    + pose proof (ORDER_VOCABULARY_TO_IDX_raises _ _ _ E); subst e; eauto.
  - rewrite resolve_orders_ids; cbn [bind].
    destruct (sort_by_loc_total (ids_of orders)) as [sorted Hs].
    { unfold resolved_ids; apply Forall_forall; intros idx Hin.
      apply in_flat_map in Hin; destruct Hin as (o & _ & Hin).
      destruct (smarter o) as [i|e] eqn:E; simpl in Hin;
        [|destruct Hin].
      destruct Hin as [<-|[]]; apply (smarter_is_lookup _ _ E). }
    rewrite Hs; cbn [bind].
    destruct (locate_orders _ _ _ _) as [l b]; eauto.
Qed.

End EncoderReturns.

Lemma encode_power_actions_returns_witness :
  exists labels valid,
    encode_power_actions Ex.LOCS Ex.VOCAB Ex.EOS
      ["A PAR B"; "A MAR B"] Ex.single_candidates = Ok (labels, valid).
Proof.
  apply (encode_power_actions_returns Ex.LOCS Ex.VOCAB Ex.EOS).
  - repeat constructor; unfold located; eexists;
      (split; [vm_compute; reflexivity | vm_compute; tauto]).
  - intros _ _; repeat constructor; unfold build_order; vm_compute;
      reflexivity.
Defined.
